(** * Negotiation agents of group 21: opponent models, bidding and acceptance

    A shallow embedding of the decision core of the three agents
    - [AdaptiveLearner]   (Frequency-Bayesian opponent model, dynamic threshold),
    - [DeadlinePusher]    (Rank-Distance opponent model, concession curve),
    - [StrategicConceder] (Density-Estimation opponent model, AC-next),
    followed by the properties proved about them.

    Conventions of the embedding.
    - A Python [float] is a real number ([R]): the rounding of float
      arithmetic is not modelled.  Where the code converts a [Decimal] with
      [float] and compares the double with an exact value, the conversion is
      a parameter of the definitions.
    - A Python [int] that counts something is a [nat]; [Decimal] utilities of
      the GeniusWeb profile are rationals ([Q]).
    - A [dict] is a [gmap]; loops over [dict.items()] are [map_fold]s.  The
      loops embedded here accumulate sums or build another dict, so the
      iteration order of the map does not show in the result.
    - [None] is the [None] of [option]; a raised exception is [Raise e] in the
      error monad [result]. *)

From Stdlib Require Import Reals Lra Lia QArith Qcanon Qreals.
From stdpp Require Import gmap strings list fin_maps sorting.

(** ** Python run-time: exceptions, floats *)

Inductive exn : Set :=
| TypeError | ValueError | ZeroDivisionError | AttributeError | IndexError | KeyError.

Inductive result (A : Type) : Type :=
| Ok (a : A)
| Raise (e : exn).
Arguments Ok {A} a.
Arguments Raise {A} e.

Global Instance result_ret : MRet result := @Ok.
Global Instance result_bind : MBind result := λ A B f m,
  match m with Ok a => f a | Raise e => Raise e end.

Global Instance R_eq_dec : EqDecision R := Req_dec_T.
Global Instance Rlt_rel_dec : RelDecision Rlt := Rlt_dec.
Global Instance Rle_rel_dec : RelDecision Rle := Rle_dec.

(** [x / y] on floats. *)
Definition float_div (x y : R) : result R :=
  if decide (y = 0%R) then Raise ZeroDivisionError else Ok (x / y)%R.

(** [math.log(x)]. *)
Definition math_log (x : R) : result R :=
  if decide (0 < x)%R then Ok (ln x) else Raise ValueError.

(** The builtin [sum] adds from the left, starting at 0. *)
Definition py_sum (l : list R) : R := fold_left Rplus l 0%R.

(** [x ** y] for a float base [0 <= x] and a float exponent [0 < y]
    (a negative base with a fractional exponent yields a complex number in
    Python and is outside this model). *)
Definition float_pow (x y : R) : R :=
  if decide (0 < x)%R then Rpower x y else 0%R.

(** A dict comprehension [{k: f(k, v) for k, v in m.items()}] whose body can
    raise. *)
Definition dict_comprehension {A B} (f : string → A → result B)
    (m : gmap string A) : result (gmap string B) :=
  map_fold (λ k v acc, d ← acc; y ← f k v; Ok (<[k := y]> d)) (Ok ∅) m.

(** [int(x)]: truncation towards zero. *)
Definition py_int (x : R) : Z :=
  if decide (0 <= x)%R then Zfloor x else Zceil x.

(** ** GeniusWeb data: values, value sets, bids, domains *)

Inductive Value : Set :=
| DiscreteValue (name : string)
| NumberValue (num : Qc).

Global Instance Value_eq_dec : EqDecision Value.
Proof. solve_decision. Defined.

Global Instance Value_countable : Countable Value.
Proof.
  refine (inj_countable'
    (λ v, match v with DiscreteValue s => inl s | NumberValue q => inr q end)
    (λ x, match x with inl s => DiscreteValue s | inr q => NumberValue q end) _).
  by intros [].
Defined.

Inductive ValueSet : Set :=
| DiscreteValueSet (values : list Value)
| NumberValueSet (low high step : Qc).

(** A bid maps issue names to values; [bid !! issue] is [bid.getValue(issue)],
    which is [None] for an issue the bid does not mention. *)
Abbreviation Bid := (gmap string Value).
(** [domain.getIssuesValues()]. *)
Abbreviation Domain := (gmap string ValueSet).

Inductive Action : Type :=
| Offer (bid : Bid)
| Accept (bid : Bid)
| EndNegotiation.

(** ** Adaptive learner agent *)

Module AdaptiveLearner.

(** *** [utils/opponent_model.py] *)

Record BayesianIssueEstimator : Set := {
  value_set : list Value;
  n : nat;
  value_counts : gmap (option Value) nat;
  total_count : nat }.

Definition BayesianIssueEstimator_init (vs : ValueSet) : result BayesianIssueEstimator :=
  match vs with
  | DiscreteValueSet values =>
      Ok {| value_set := values;
            n := length values;
            value_counts := list_to_map ((λ value, (Some value, 0)) <$> values);
            total_count := 0 |}
  | NumberValueSet _ _ _ => Raise TypeError
  end.

Definition estimator_update (e : BayesianIssueEstimator) (value : option Value)
  : BayesianIssueEstimator :=
  {| value_set := value_set e;
     n := n e;
     value_counts :=
       <[value := default 0 (value_counts e !! value) + 1]> (value_counts e);
     total_count := total_count e + 1 |}.

Definition get_value_utility (e : BayesianIssueEstimator) (value : option Value)
  : result R :=
  float_div (INR (default 0 (value_counts e !! value) + 1))
            (INR (total_count e + n e)).

Definition get_weight (e : BayesianIssueEstimator) : result R :=
  probabilities ← mapM (λ value,
      float_div (INR (default 0 (value_counts e !! Some value) + 1))
                (INR (total_count e + n e))) (value_set e);
  terms ← mapM (λ p, l ← math_log p; Ok (p * l)%R) probabilities;
  let entropy := (- py_sum terms)%R in
  max_entropy ← math_log (INR (n e));
  normalized_entropy ←
    (if decide (0 < max_entropy)%R then float_div entropy max_entropy else Ok 0%R);
  Ok (1 - normalized_entropy)%R.

Record OpponentModel : Type := {
  offers : list Bid;
  domain : Domain;
  issue_estimators : gmap string BayesianIssueEstimator }.

Definition OpponentModel_init (domain : Domain) : result OpponentModel :=
  estimators ← dict_comprehension
      (λ issue_id value_set, BayesianIssueEstimator_init value_set) domain;
  Ok {| offers := []; domain := domain; issue_estimators := estimators |}.

Definition update (m : OpponentModel) (bid : Bid) : OpponentModel :=
  {| offers := offers m ++ [bid];
     domain := domain m;
     issue_estimators :=
       map_imap (λ issue_id estimator,
                   Some (estimator_update estimator (bid !! issue_id)))
                (issue_estimators m) |}.

Definition get_predicted_utility (m : OpponentModel) (bid : option Bid) : result R :=
  match bid with
  | None => Ok 0%R
  | Some bid =>
      if decide (length (offers m) = 0) then Ok 0%R else
      acc ← map_fold (λ issue_id estimator acc,
          '(predicted_utility, total_weight) ← acc;
          weight ← get_weight estimator;
          value_util ← get_value_utility estimator (bid !! issue_id);
          Ok (predicted_utility + weight * value_util, total_weight + weight)%R)
        (Ok (0, 0)%R) (issue_estimators m);
      let '(predicted_utility, total_weight) := acc in
      if decide (0 < total_weight)%R
      then float_div predicted_utility total_weight
      else Ok 0%R
  end.

(** *** [group21_adaptive_learner_agent.py] *)

Record Agent : Type := {
  self_domain : Domain;
  (** [self.profile.getUtility] *)
  profile : Bid → Q;
  last_received_bid : option Bid;
  opponent_model : option OpponentModel;
  initial_opponent_utility : option R;
  initial_alpha : R;
  final_alpha : R;
  eps : R;
  reservation_value : R }.

(** The agent after [__init__] and the [Settings] notification, which only
    stores the profile and its domain. *)
Definition init (domain : Domain) (getUtility : Bid → Q) : Agent :=
  {| self_domain := domain;
     profile := getUtility;
     last_received_bid := None;
     opponent_model := None;
     initial_opponent_utility := None;
     initial_alpha := 1.0;
     final_alpha := 0.5;
     eps := 0.1;
     reservation_value := 0.65 |}.

Definition opponent_action (self : Agent) (action : Action) : result Agent :=
  match action with
  | Offer bid =>
      model ← match opponent_model self with
              | None => OpponentModel_init (self_domain self)
              | Some model => Ok model
              end;
      let model := update model bid in
      initial ← match initial_opponent_utility self with
                | None => u ← get_predicted_utility model (Some bid); Ok (Some u)
                | Some u => Ok (Some u)
                end;
      Ok {| self_domain := self_domain self;
            profile := profile self;
            last_received_bid := Some bid;
            opponent_model := Some model;
            initial_opponent_utility := initial;
            initial_alpha := initial_alpha self;
            final_alpha := final_alpha self;
            eps := eps self;
            reservation_value := reservation_value self |}
  | _ => Ok self
  end.

(** The opponent's actions of a session, in the order [notifyChange] gets them.
    [my_turn] changes none of the fields, so it does not appear. *)
Fixpoint run (self : Agent) (actions : list Action) : result Agent :=
  match actions with
  | [] => Ok self
  | action :: actions => self ← opponent_action self action; run self actions
  end.

Definition compute_acceptance_threshold (self : Agent) (progress : R) : result R :=
  let initial_threshold := 0.95%R in
  let final_threshold := 0.70%R in
  let base_threshold :=
    (initial_threshold - (initial_threshold - final_threshold) * progress)%R in
  base_threshold ←
    match initial_opponent_utility self, last_received_bid self with
    | Some initial, Some bid =>
        model ← match opponent_model self with
                | Some model => Ok model
                | None => Raise AttributeError
                end;
        current_opp_util ← get_predicted_utility model (Some bid);
        concession ← float_div (initial - current_opp_util) initial;
        let concession := Rmax 0.0 (Rmin concession 1.0) in
        let behavior_adjustment := (concession * 0.10)%R in
        Ok (base_threshold - behavior_adjustment)%R
    | _, _ => Ok base_threshold
    end;
  Ok (Rmax base_threshold (reservation_value self)).

Definition accept_condition (self : Agent) (bid : option Bid) (progress : R)
  : result bool :=
  match bid with
  | None => Ok false
  | Some bid =>
      threshold ← compute_acceptance_threshold self progress;
      let current_util := profile self bid in
      Ok (bool_decide (threshold <= Q2R current_util)%R)
  end.

Definition score_bid (self : Agent) (bid : Bid) (progress : R) : result R :=
  let our_util := Q2R (profile self bid) in
  let alpha :=
    (initial_alpha self - (initial_alpha self - final_alpha self) * progress)%R in
  exponent ← float_div 1 (eps self + 1e-6);
  let time_pressure := (1.0 - float_pow progress exponent)%R in
  let score := (alpha * time_pressure * our_util)%R in
  match opponent_model self with
  | Some model =>
      opponent_util ← get_predicted_utility model (Some bid);
      behavior_weight ←
        match initial_opponent_utility self with
        | Some initial =>
            concession ← float_div (initial - opponent_util) initial;
            let concession := Rmax 0.0 (Rmin concession 1.0) in
            Ok (0.5 + concession * 0.5)%R
        | None => Ok 0.5%R
        end;
      Ok (score + (1.0 - alpha * time_pressure) * behavior_weight * opponent_util)%R
  | None => Ok score
  end.

(** The opponent's concession as the acceptance threshold sees it: the
    relative drop of the predicted utility of the last received offer against
    that of the first one, and no concession before any offer. *)
Definition observed_concession (self : Agent) : R :=
  match initial_opponent_utility self, last_received_bid self, opponent_model self with
  | Some initial, Some bid, Some model =>
      match get_predicted_utility model (Some bid) with
      | Ok current => ((initial - current) / initial)%R
      | Raise _ => 0%R
      end
  | _, _, _ => 0%R
  end.

(** [find_bid].  The random draws and the clock are inputs: a pass gets the
    bids [all_bids.get(randint(...))] returns, each with the progress the
    clock shows if [score_bid] is called for it.  [filtered] tells the first
    pass, which skips the bids below the reservation value. *)
Definition attempts : nat := 500.

Fixpoint search (self : Agent) (filtered : bool) (draws : list (Bid * R))
    (best_bid : option Bid) (best_bid_score : R) : result (option Bid * R) :=
  match draws with
  | [] => Ok (best_bid, best_bid_score)
  | (bid, progress) :: draws =>
      let our_util := profile self bid in
      if filtered && bool_decide (Q2R our_util < reservation_value self)%R
      then search self filtered draws best_bid best_bid_score
      else
        bid_score ← score_bid self bid progress;
        if decide (best_bid_score < bid_score)%R
        then search self filtered draws (Some bid) bid_score
        else search self filtered draws best_bid best_bid_score
  end.

Definition find_bid (self : Agent) (first_pass second_pass : list (Bid * R))
  : result (option Bid) :=
  '(best_bid, best_bid_score) ←
    search self true (take attempts first_pass) None (-1.0)%R;
  match best_bid with
  | None =>
      '(best_bid, _) ←
        search self false (take attempts second_pass) best_bid best_bid_score;
      Ok best_bid
  | Some _ => Ok best_bid
  end.

End AdaptiveLearner.

(** ** Deadline pusher agent *)

Module DeadlinePusher.

(** *** [utils/opponent_model.py] *)

Record IssueEstimator : Type := {
  bids_received : nat;
  weight : R }.

Definition IssueEstimator_init (value_set : ValueSet) : result IssueEstimator :=
  match value_set with
  | DiscreteValueSet _ => Ok {| bids_received := 0; weight := 0 |}
  | NumberValueSet _ _ _ => Raise TypeError
  end.

(** The table [self.avd_to_weight], subscripted. *)
Definition avd_to_weight (avd : nat) : result R :=
  match avd with
  | 0 => Ok 6%R
  | 1 => Ok 4%R
  | 2 => Ok 3%R
  | 3 => Ok 1%R
  | 4 => Ok 0.5%R
  | _ => Raise KeyError
  end.

Definition estimator_update (e : IssueEstimator) (avd : nat) : result IssueEstimator :=
  weight ← avd_to_weight avd;
  Ok {| bids_received := bids_received e + 1; weight := weight |}.

Record OpponentModel : Type := {
  offers : list Bid;
  domain : Domain;
  issue_estimators : gmap string IssueEstimator }.

Definition OpponentModel_init (domain : Domain) : result OpponentModel :=
  estimators ← dict_comprehension (λ i v, IssueEstimator_init v) domain;
  Ok {| offers := []; domain := domain; issue_estimators := estimators |}.

(** [values.index(value)]. *)
Definition index (values : list Value) (value : option Value) : option nat :=
  fst <$> list_find (λ v, Some v = value) values.

(** [abs(ind1 - ind2)] on indices. *)
Definition distance (ind1 ind2 : nat) : nat := (ind1 - ind2) + (ind2 - ind1).

(** A continuous value set has no [getValues()]; the constructor has refused
    such a domain before this can be reached. *)
Definition get_average_value_distances (m : OpponentModel)
  : result (gmap string nat) :=
  match reverse (offers m) with
  | bid2 :: bid1 :: _ =>
      dict_comprehension (λ issue values,
          match values with
          | DiscreteValueSet values =>
              match index values (bid1 !! issue), index values (bid2 !! issue) with
              | Some ind1, Some ind2 => Ok (distance ind1 ind2 `min` 4)
              | _, _ => Raise ValueError
              end
          | NumberValueSet _ _ _ => Raise AttributeError
          end) (domain m)
  | _ => Ok ∅
  end.

Definition update (m : OpponentModel) (bid : Bid) : result OpponentModel :=
  let m := {| offers := offers m ++ [bid];
              domain := domain m;
              issue_estimators := issue_estimators m |} in
  average_value_distances ← get_average_value_distances m;
  estimators ← dict_comprehension (λ issue_id issue_estimator,
      estimator_update issue_estimator
        (default 3 (average_value_distances !! issue_id))) (issue_estimators m);
  Ok {| offers := offers m; domain := domain m; issue_estimators := estimators |}.

Definition getWeight (m : OpponentModel) (issue : string) : result R :=
  match issue_estimators m !! issue with
  | Some issue_estimator =>
      let total_issue_weight :=
        map_fold (λ _ e acc, (acc + weight e)%R) 0%R (issue_estimators m) in
      if decide (total_issue_weight = 0%R)
      then float_div 1 (INR (size (issue_estimators m)))
      else float_div (weight issue_estimator) total_issue_weight
  | None => Ok 0%R
  end.

(** *** [group21_deadline_pusher_agent.py] *)

Record Agent : Type := {
  last_received_bid : option Bid;
  opponent_model : option OpponentModel;
  time_cutoff : R;
  kappa : R;
  beta : R;
  negotiation_speed : R;
  minimal_utility : R;
  tau_gen : R }.

(** The agent after [__init__]. *)
Definition init : Agent :=
  {| last_received_bid := None;
     opponent_model := None;
     time_cutoff := 0.95;
     kappa := 0.1;
     beta := 0.2;
     negotiation_speed := 0.05;
     minimal_utility := 0.8;
     tau_gen := 0.1 |}.

(** [t] is [self.get_time()], the progress of the session's clock. *)
Definition accept_condition (self : Agent) (bid : option Bid) (t : R) : bool :=
  match bid with
  | None => false
  | Some _ => bool_decide (time_cutoff self < t)%R
  end.

Definition compute_alpha (self : Agent) (t : R) : result R :=
  exponent ← float_div 1 (beta self);
  Ok (kappa self + (1 - kappa self) * float_pow t exponent)%R.

(** [values_with_utils.sort(key=lambda x: x[1], reverse=True)]: a stable sort
    by decreasing utility; items of equal utility keep their order. *)
Fixpoint insert_desc (x : Value * Q) (l : list (Value * Q)) : list (Value * Q) :=
  match l with
  | [] => [x]
  | y :: l' => if Qlt_le_dec (snd x) (snd y)
               then y :: insert_desc x l'
               else x :: l
  end.

Definition sort_desc (l : list (Value * Q)) : list (Value * Q) :=
  foldr insert_desc [] l.

(** [l[i]] for a Python [int] index: a negative index counts from the end. *)
Definition subscript {A} (l : list A) (i : Z) : result A :=
  let len := Z.of_nat (length l) in
  let j := (if decide (i < 0)%Z then i + len else i)%Z in
  if decide (0 <= j < len)%Z
  then match l !! Z.to_nat j with Some x => Ok x | None => Raise IndexError end
  else Raise IndexError.

(** The first loop of [find_bid], branch of a [DiscreteValueSetUtilities]
    whose [getUtilities().items()] is [utilities]: the value entered in
    [time_bid_dict] for the issue. *)
Definition time_bid_value (self : Agent) (t : R) (utilities : list (Value * Q))
  : result Value :=
  let values_with_utils := sort_desc utilities in
  alpha ← compute_alpha self t;
  let ind := py_int (alpha * IZR (Z.of_nat (length values_with_utils) - 1)) in
  item ← subscript values_with_utils ind;
  Ok (fst item).

(** The first loop of [find_bid] on a profile all of whose issues are
    discrete: [time_bid].  (The branch for [NumberValueSetUtilities] is not
    embedded; no property below is about it.) *)
Definition time_bid (self : Agent) (t : R) (utilities : gmap string (list (Value * Q)))
  : result Bid :=
  dict_comprehension (λ issue utility, time_bid_value self t utility) utilities.

(** [round(x)] of Python 3: to the nearest integer, a tie to the even one. *)
Definition py_round (x : R) : Z :=
  let f := Zfloor x in
  if decide (x - IZR f < 1 / 2)%R then f
  else if decide (1 / 2 < x - IZR f)%R then (f + 1)%Z
  else if Z.even f then f else (f + 1)%Z.

(** The index of the ranking as the specification words it. *)
Definition rounded_index (alpha : R) (count : nat) : Z :=
  py_round (alpha * IZR (Z.of_nat count - 1)).

(** The builtin [min(items, key=...)] with the key [abs(float(item[1]) -
    target_utility)]: the first item of the least key, continued from the
    least item so far. *)
Fixpoint closest (target_utility : R) (least : Value * Q) (items : list (Value * Q))
  : Value * Q :=
  match items with
  | [] => least
  | item :: items =>
      if decide (Rabs (Q2R item.2 - target_utility)
                 < Rabs (Q2R least.2 - target_utility))%R
      then closest target_utility item items
      else closest target_utility least items
  end.

(** [get_value_from_utility] for a [DiscreteValueSetUtilities] whose
    [getUtilities().items()] is [utilities]. *)
Definition get_value_from_utility (utilities : list (Value * Q)) (target_utility : R)
  : result Value :=
  match utilities with
  | [] => Raise ValueError
  | item :: items => Ok (closest target_utility item items).1
  end.

(** The calls [update(bid)] for the bids of a session, in order. *)
Fixpoint observe (m : OpponentModel) (bids : list Bid) : result OpponentModel :=
  match bids with
  | [] => Ok m
  | bid :: bids => m ← update m bid; observe m bids
  end.

(** What [find_bid] reads of [self.profile], a linear additive utility space
    of discrete issues. *)
Record Profile : Type := {
  (** [getUtilities()]: for every issue, the [getUtilities().items()] of its
      [DiscreteValueSetUtilities] *)
  getUtilities : gmap string (list (Value * Q));
  (** [getUtility(bid)] *)
  getUtility : Bid → Q;
  (** [getWeight(issue)] *)
  profile_getWeight : string → Q;
  (** [getUtilities()[issue].getUtility(value)] *)
  value_getUtility : string → option Value → Q }.

(** [opponent_action] in a session on [domain] ([self.domain]). *)
Definition opponent_action (domain : Domain) (self : Agent) (action : Action)
  : result Agent :=
  match action with
  | Offer bid =>
      model ← match opponent_model self with
              | None => OpponentModel_init domain
              | Some model => Ok model
              end;
      model ← update model bid;
      Ok {| last_received_bid := Some bid;
            opponent_model := Some model;
            time_cutoff := time_cutoff self;
            kappa := kappa self;
            beta := beta self;
            negotiation_speed := negotiation_speed self;
            minimal_utility := minimal_utility self;
            tau_gen := tau_gen self |}
  | _ => Ok self
  end.

(** The opponent's actions of a session, in the order [notifyChange] gets
    them; [my_turn] changes no field. *)
Fixpoint run (domain : Domain) (self : Agent) (actions : list Action)
  : result Agent :=
  match actions with
  | [] => Ok self
  | action :: actions =>
      self ← opponent_action domain self action; run domain self actions
  end.

(** [find_bid] at the time [t] on a profile of discrete issues. *)
Definition find_bid (self : Agent) (profile : Profile) (t : R) : result Bid :=
  let utilities := getUtilities profile in
  time_bid ← time_bid self t utilities;
  match last_received_bid self with
  | None => Ok time_bid
  | Some last_received_bid =>
      let utility_bs := Q2R (getUtility profile time_bid) in
      let utility_bo := Q2R (getUtility profile last_received_bid) in
      ratio ← float_div (minimal_utility self) (utility_bs + 1e-6);
      let concession_step :=
        (negotiation_speed self * (1.0 - ratio) * (utility_bo - utility_bs + 1e-6))%R in
      let target_utility := (utility_bs + concession_step)%R in
      let normalization_factor :=
        map_fold (λ issue utility normalization_factor,
            let weight_s := Q2R (profile_getWeight profile issue) in
            let evaluation_bs_j :=
              Q2R (value_getUtility profile issue (time_bid !! issue)) in
            let alpha_j := ((1.0 - weight_s) * (1.0 - evaluation_bs_j))%R in
            (normalization_factor + weight_s * alpha_j)%R) 1e-6%R utilities in
      dict_comprehension (λ issue utility,
          let weight_s := Q2R (profile_getWeight profile issue) in
          weight_o ← match opponent_model self with
                     | Some model => getWeight model issue
                     | None => Raise AttributeError
                     end;
          delta_j ← float_div (weight_o - weight_s) (weight_o + weight_s);
          let tau_j := (tau_gen self * (1.0 + delta_j))%R in
          let evaluation_bs_j :=
            Q2R (value_getUtility profile issue (time_bid !! issue)) in
          let evaluation_bo_j :=
            Q2R (value_getUtility profile issue (last_received_bid !! issue)) in
          let alpha_j := ((1.0 - weight_s) * (1.0 - evaluation_bs_j))%R in
          share ← float_div alpha_j normalization_factor;
          let basic_target_evaluation_j :=
            (evaluation_bs_j + share * (target_utility - utility_bs))%R in
          let target_evaluation_j :=
            ((1.0 - tau_j) * basic_target_evaluation_j + tau_j * evaluation_bo_j)%R in
          get_value_from_utility utility target_evaluation_j) utilities
  end.

(** [my_turn]: the action it sends.  [t1] and [t2] are the two readings of
    the clock, in [accept_condition] and in [find_bid]; the condition is
    false without a received bid. *)
Definition my_turn (self : Agent) (profile : Profile) (t1 t2 : R) : result Action :=
  match last_received_bid self, accept_condition self (last_received_bid self) t1 with
  | Some bid, true => Ok (Accept bid)
  | _, _ => bid ← find_bid self profile t2; Ok (Offer bid)
  end.

End DeadlinePusher.

(** ** Strategic conceder agent *)

Module StrategicConceder.

(** *** [utils/opponent_model.py] *)

Definition MIN_SAMPLES_FOR_KDE : nat := 5.

(** One entry of [self.issue_info] (the fitted [kde] object is left out). *)
Record IssueInfo : Type := {
  values : list Value;
  value_map : gmap Value nat;
  inverse_value_map : gmap nat Value;
  offered_values_numeric : list nat;
  weight : R;
  (** a [defaultdict(lambda: 0.0)] *)
  value_utilities : gmap Value R;
  num_possible_values : nat }.

Record OpponentModel : Type := {
  offers : list Bid;
  domain : Domain;
  issue_info : gmap string IssueInfo }.

(** A dict comprehension: a later item overwrites an earlier one. *)
Definition dict_of {K V} `{Countable K} (items : list (K * V)) : gmap K V :=
  foldl (λ m kv, <[kv.1 := kv.2]> m) ∅ items.

Definition OpponentModel_init (domain : Domain) : result OpponentModel :=
  issue_info ← map_fold (λ issue_name value_set acc,
      issue_info ← acc;
      match value_set with
      | NumberValueSet _ _ _ => Ok issue_info
      | DiscreteValueSet vals =>
          let values := vals in
          let value_map := dict_of (imap (λ i value, (value, i)) values) in
          let inverse_value_map :=
            dict_of ((λ kv : Value * nat, (kv.2, kv.1)) <$> map_to_list value_map) in
          weight ← float_div 1.0 (INR (size domain));
          Ok (<[issue_name :=
                 {| values := values;
                    value_map := value_map;
                    inverse_value_map := inverse_value_map;
                    offered_values_numeric := [];
                    weight := weight;
                    value_utilities := ∅;
                    num_possible_values := length values |}]> issue_info)
      end) (Ok ∅) domain;
  Ok {| offers := []; domain := domain; issue_info := issue_info |}.

(** [update], with [_recalculate_weights_and_utilities] (numpy and scipy's
    [gaussian_kde]) taken as a parameter. *)
Definition update (recalculate : gmap string IssueInfo → gmap string IssueInfo)
    (m : OpponentModel) (bid : Bid) : OpponentModel :=
  let offers := offers m ++ [bid] in
  let issue_info :=
    map_imap (λ issue_name info,
        Some match bid !! issue_name with
             | Some value =>
                 match value_map info !! value with
                 | Some numeric_value =>
                     {| values := values info;
                        value_map := value_map info;
                        inverse_value_map := inverse_value_map info;
                        offered_values_numeric :=
                          offered_values_numeric info ++ [numeric_value];
                        weight := weight info;
                        value_utilities := value_utilities info;
                        num_possible_values := num_possible_values info |}
                 | None => info
                 end
             | None => info
             end) (issue_info m) in
  {| offers := offers;
     domain := domain m;
     issue_info := if decide (MIN_SAMPLES_FOR_KDE ≤ length offers)
                   then recalculate issue_info else issue_info |}.

Definition get_predicted_utility (m : OpponentModel) (bid : option Bid) : result R :=
  match bid with
  | None => Ok 0.0%R
  | Some bid =>
      if decide (offers m = []) then Ok 0.0%R else
      let predicted_utility :=
        map_fold (λ issue_name info predicted_utility,
            match bid !! issue_name with
            | Some value =>
                let weight := weight info in
                let value_utility := default 0.0%R (value_utilities info !! value) in
                (predicted_utility + weight * value_utility)%R
            | None => predicted_utility
            end) 0.0%R (issue_info m) in
      Ok (Rmax 0.0 (Rmin 1.0 predicted_utility))
  end.

(** *** [group21_strategic_conceder_agent.py] *)

Record Agent : Type := {
  (** [self.profile.getUtility] *)
  profile : Bid → Q;
  last_received_bid : option Bid;
  opponent_model : option OpponentModel;
  reservation_value : R;
  max_utility : R;
  target_utility : R;
  last_utility : R;
  next_bid_difference_margin : R }.

(** The agent after [__init__] and the [Settings] notification on a discrete
    domain; [res_bid] is [self.profile.getReservationBid()]. *)
Definition init (getUtility : Bid → Q) (res_bid : option Bid)
    (model : OpponentModel) : Agent :=
  {| profile := getUtility;
     last_received_bid := None;
     opponent_model := Some model;
     reservation_value := match res_bid with
                          | Some res_bid => Q2R (getUtility res_bid)
                          | None => 0
                          end;
     max_utility := 1.0;
     target_utility := 1.0;
     last_utility := 1.0;
     next_bid_difference_margin := 0.05 |}.

Definition _update_target_utility (self : Agent) : Agent :=
  let target_utility := (target_utility self - 0.0005)%R in
  let target_utility := Rmax (reservation_value self) target_utility in
  {| profile := profile self;
     last_received_bid := last_received_bid self;
     opponent_model := opponent_model self;
     reservation_value := reservation_value self;
     max_utility := max_utility self;
     target_utility := target_utility;
     last_utility := last_utility self;
     next_bid_difference_margin := next_bid_difference_margin self |}.

Definition accept_condition (self : Agent) (received_bid : option Bid)
    (next_bid_to_offer : Bid) : bool :=
  match received_bid with
  | None => false
  | Some received_bid =>
      let received_utility := profile self received_bid in
      let next_offer_utility := profile self next_bid_to_offer in
      let above_reservation :=
        bool_decide (reservation_value self <= Q2R received_utility)%R in
      let meets_ac_next := Qle_bool next_offer_utility received_utility in
      above_reservation && meets_ac_next
  end.

(** The target utilities of [turns] successive [YourTurn] notifications. *)
Definition turns (self : Agent) (k : nat) : Agent :=
  Nat.iter k _update_target_utility self.

(** *** The rest of [utils/opponent_model.py] and of the agent *)

Definition EPSILON : R := 1e-6.

(** [np.var] of a non-empty list of indices: the mean of the squared
    deviations from the mean. *)
Definition np_var (xs : list nat) : R :=
  let xs := INR <$> xs in
  let mean := (py_sum xs / INR (length xs))%R in
  (py_sum ((λ x, (x - mean) * (x - mean))%R <$> xs) / INR (length xs))%R.

(** [len(offered_values_numeric) < 2]. *)
Definition insufficient (info : IssueInfo) : Prop :=
  length (offered_values_numeric info) < 2.

Global Instance insufficient_dec (info : IssueInfo) : Decision (insufficient info) :=
  decide (length (offered_values_numeric info) < 2).

Definition with_weight (info : IssueInfo) (w : R) : IssueInfo :=
  {| values := values info;
     value_map := value_map info;
     inverse_value_map := inverse_value_map info;
     offered_values_numeric := offered_values_numeric info;
     weight := w;
     value_utilities := value_utilities info;
     num_possible_values := num_possible_values info |}.

Definition with_value_utilities (info : IssueInfo) (utilities : gmap Value R)
  : IssueInfo :=
  {| values := values info;
     value_map := value_map info;
     inverse_value_map := inverse_value_map info;
     offered_values_numeric := offered_values_numeric info;
     weight := weight info;
     value_utilities := utilities;
     num_possible_values := num_possible_values info |}.

(** [_recalculate_weights_and_utilities].  The kernel density fit of the
    second block (scipy's [gaussian_kde], with numpy's random jitter) is the
    parameter [kde_utilities]: the [value_utilities] an issue with two or more
    observations has after the block.  The divisions cannot fail: a variance
    is not negative, the total is above [EPSILON] where it divides, and
    [num_issues] is tested. *)
Definition _recalculate_weights_and_utilities
    (kde_utilities : string → IssueInfo → gmap Value R)
    (issue_info : gmap string IssueInfo) : gmap string IssueInfo :=
  let inverse_variance info :=
    (1.0 / (np_var (offered_values_numeric info) + EPSILON))%R in
  let valid_inverse_variances : gmap string R :=
    omap (λ info, if decide (insufficient info) then None
                  else Some (inverse_variance info)) issue_info in
  let issues_with_insufficient_data : gmap string IssueInfo :=
    filter (λ kv, insufficient kv.2) issue_info in
  let total_inverse_variance :=
    map_fold (λ _ iv acc, acc + iv)%R 0%R valid_inverse_variances in
  let total_weight_without_unchanged :=
    (1 - map_fold (λ _ info acc, acc + weight info)%R 0%R
           issues_with_insufficient_data)%R in
  let issue_info :=
    if decide (EPSILON < total_inverse_variance)%R
    then (λ info,
            if decide (insufficient info) then info
            else with_weight info
                   (inverse_variance info / total_inverse_variance
                    * total_weight_without_unchanged)%R) <$> issue_info
    else
      let num_issues := size issue_info in
      let uniform_weight :=
        if decide (0 < num_issues) then (1.0 / INR num_issues)%R else 1.0%R in
      (λ info, with_weight info uniform_weight) <$> issue_info in
  map_imap (λ issue_name info,
     Some (if decide (insufficient info)
           then with_value_utilities info
                  (foldl (λ utilities value, <[value := 0.0%R]> utilities)
                         (value_utilities info) (values info))
           else with_value_utilities info (kde_utilities issue_name info)))
    issue_info.

(** [sum(info["weight"] for info in issue_info.values())]. *)
Definition total_weight (issue_info : gmap string IssueInfo) : R :=
  map_fold (λ _ info acc, acc + weight info)%R 0%R issue_info.

Definition bid_search_attempts : nat := 1000.

(** The lists and the best bid that the first loop of [find_bid] builds. *)
Record Search : Type := {
  candidate_bids : list Bid;
  secondary_candidate_bids : list Bid;
  highest_utility_found : R;
  best_bid_overall : option Bid }.

Section conversion.
(** The builtin [float] on a [Decimal] utility: the double nearest to it.
    The utilities of a profile are [Decimal]s; [find_bid] converts each one it
    reads, and compares the double with [self.last_utility], which holds the
    [Decimal] utility of the last offer, exactly. *)
Variable float : Q → R.

(** The first loop of [find_bid] over the bids it visits: the whole bid
    space in order, or the random draws when [use_sampling]. *)
Fixpoint scan (self : Agent) (use_sampling : bool) (bids : list Bid) (s : Search)
  : Search :=
  match bids with
  | [] => s
  | bid :: bids =>
      let my_utility := float (profile self bid) in
      let s :=
        if decide (highest_utility_found s < my_utility)%R
        then {| candidate_bids := candidate_bids s;
                secondary_candidate_bids := secondary_candidate_bids s;
                highest_utility_found := my_utility;
                best_bid_overall := Some bid |}
        else s in
      let s :=
        if decide (target_utility self <= my_utility ∧
                   Rabs (my_utility - target_utility self)
                   <= next_bid_difference_margin self)%R
        then {| candidate_bids :=
                  if decide (last_utility self <= my_utility)%R
                  then candidate_bids s ++ [bid] else candidate_bids s;
                secondary_candidate_bids := secondary_candidate_bids s ++ [bid];
                highest_utility_found := highest_utility_found s;
                best_bid_overall := best_bid_overall s |}
        else s in
      if use_sampling && bool_decide (100 < length (candidate_bids s))
      then s
      else scan self use_sampling bids s
  end.

(** The ranking loop of [find_bid] over a list of candidates. *)
Fixpoint rank (self : Agent) (bids : list Bid) (best_tradeoff_bid : option Bid)
    (max_opponent_utility : R) : result (option Bid) :=
  match bids with
  | [] => Ok best_tradeoff_bid
  | bid :: bids =>
      opponent_utility ← match opponent_model self with
                         | Some model => get_predicted_utility model (Some bid)
                         | None => Ok 0.0%R
                         end;
      if decide (max_opponent_utility < opponent_utility)%R
      then rank self bids (Some bid) opponent_utility
      else rank self bids best_tradeoff_bid max_opponent_utility
  end.

(** [find_bid].  The agent's fields [all_bids_list] (a bid space with the
    first bid [first_bid], then [more_bids]) and [best_bid_overall] (on entry
    [best_so_far]), the profile's reservation bid and the random draws are
    passed; the bid comes back with the new [best_bid_overall]. *)
Definition find_bid (self : Agent) (first_bid : Bid) (more_bids : list Bid)
    (res_bid : option Bid) (best_so_far : option Bid) (draws : list Bid)
  : result (Bid * option Bid) :=
  let all_bids_list := first_bid :: more_bids in
  let use_sampling := bool_decide (5000 < length all_bids_list) in
  let highest_utility_found :=
    match best_so_far with
    | Some bid => float (profile self bid)
    | None => 0.0%R
    end in
  let visited :=
    if use_sampling then take bid_search_attempts draws else all_bids_list in
  let s := scan self use_sampling visited
             {| candidate_bids := [];
                secondary_candidate_bids := [];
                highest_utility_found := highest_utility_found;
                best_bid_overall := best_so_far |} in
  match candidate_bids s with
  | first_candidate :: _ =>
      best_tradeoff_bid ← rank self (candidate_bids s) None (-1.0)%R;
      Ok (default first_candidate best_tradeoff_bid, best_bid_overall s)
  | [] =>
      match secondary_candidate_bids s with
      | first_candidate :: _ =>
          best_tradeoff_bid ← rank self (secondary_candidate_bids s) None (-1.0)%R;
          Ok (default first_candidate best_tradeoff_bid, best_bid_overall s)
      | [] =>
          match best_bid_overall s with
          | None => Ok (first_bid, best_bid_overall s)
          | Some best =>
              let my_utility_best_overall := float (profile self best) in
              if decide (my_utility_best_overall < reservation_value self)%R
              then match res_bid with
                   | Some res_bid => Ok (res_bid, best_bid_overall s)
                   | None => Ok (best, best_bid_overall s)
                   end
              else Ok (best, best_bid_overall s)
          end
      end
  end.

(** The loop of [_find_fallback_bid] from the second bid on. *)
Fixpoint least_utility (self : Agent) (bids : list Bid) (min_util_bid : Bid)
    (min_util : R) : Bid :=
  match bids with
  | [] => min_util_bid
  | bid :: bids =>
      let util := float (profile self bid) in
      if decide (util < min_util)%R
      then least_utility self bids bid util
      else least_utility self bids min_util_bid min_util
  end.

Definition _find_fallback_bid (self : Agent) (first_bid : Bid) (more_bids : list Bid)
  : Bid :=
  least_utility self more_bids first_bid (float (profile self first_bid)).

End conversion.

End StrategicConceder.

(** ** The opponent-model contract over the three variants *)

Inductive Variant : Set := FrequencyBayesian | RankDistance | DensityEstimation.

Definition model (v : Variant) : Type :=
  match v with
  | FrequencyBayesian => AdaptiveLearner.OpponentModel
  | RankDistance => DeadlinePusher.OpponentModel
  | DensityEstimation => StrategicConceder.OpponentModel
  end.

(** The bids a model has observed. *)
Definition observed (v : Variant) : model v → list Bid :=
  match v with
  | FrequencyBayesian => AdaptiveLearner.offers
  | RankDistance => DeadlinePusher.offers
  | DensityEstimation => StrategicConceder.offers
  end.

(** [model.get_predicted_utility(bid)].  The class of the deadline pusher
    defines no such method: the attribute look-up fails. *)
Definition predictedUtility (v : Variant) : model v → option Bid → result R :=
  match v with
  | FrequencyBayesian => AdaptiveLearner.get_predicted_utility
  | RankDistance => λ _ _, Raise AttributeError
  | DensityEstimation => StrategicConceder.get_predicted_utility
  end.

(** Construction of a model for a domain. *)
Definition construct (v : Variant) : Domain → result (model v) :=
  match v with
  | FrequencyBayesian => AdaptiveLearner.OpponentModel_init
  | RankDistance => DeadlinePusher.OpponentModel_init
  | DensityEstimation => StrategicConceder.OpponentModel_init
  end.

(** ** Vocabulary of the properties *)

(** What a dict comprehension has built, or the reason it stopped. *)
Definition comprehension_spec {A B} (f : string → A → result B)
    (acc : result (gmap string B)) (m : gmap string A) : Prop :=
  match acc with
  | Ok d => ∀ k, match m !! k with
                 | Some v => ∃ y, f k v = Ok y ∧ d !! k = Some y
                 | None => d !! k = None
                 end
  | Raise e => ∃ k v, m !! k = Some v ∧ f k v = Raise e
  end.

(** The sum of a list, from the right. *)
Definition Rsum (l : list R) : R := foldr Rplus 0%R l.

(** Shannon entropy of a list of probabilities. *)
Definition shannon_entropy (ps : list R) : R :=
  (- Rsum ((λ p, p * ln p) <$> ps))%R.

(** How often [v] occurs among the observations [obs]. *)
Definition occurrences (v : option Value) (obs : list (option Value)) : nat :=
  length (filter (λ o, o = v) obs).

(** The Dirichlet-smoothed frequency [(count(v) + 1) / (totalObservations +
    numPossibleValues)] of a value of an issue with the possible values
    [values], after the observations [obs]. *)
Definition smoothed_frequency (values : list Value) (obs : list (option Value))
    (v : option Value) : R :=
  ((INR (occurrences v obs) + 1) / (INR (length obs) + INR (length values)))%R.

(** Shannon entropy of the smoothed distribution divided by
    [ln(numPossibleValues)], and 0 for a single possible value. *)
Definition normalized_entropy (values : list Value) (obs : list (option Value)) : R :=
  if decide (length values = 1) then 0%R
  else (shannon_entropy ((λ v, smoothed_frequency values obs (Some v)) <$> values)
        / ln (INR (length values)))%R.

(** Observations that are values of the issue. *)
Definition observations_in (values : list Value) (obs : list (option Value)) : Prop :=
  Forall (λ o, ∃ v, o = Some v ∧ v ∈ values) obs.

(** The weight and the value utility an estimator gives for the value of
    issue [i] in [bid] are computed and in range. *)
Definition estimates_in_range (bid : Bid) (i : string)
    (e : AdaptiveLearner.BayesianIssueEstimator) : Prop :=
  ∃ w u, AdaptiveLearner.get_weight e = Ok w ∧
         AdaptiveLearner.get_value_utility e (bid !! i) = Ok u ∧
         (0 <= w)%R ∧ (0 < u <= 1)%R.

(** [model.issue_estimators[issue].get_weight()], the inferred weight of an
    issue. *)
Definition issue_weight (m : AdaptiveLearner.OpponentModel) (issue : string)
  : result R :=
  match AdaptiveLearner.issue_estimators m !! issue with
  | Some estimator => AdaptiveLearner.get_weight estimator
  | None => Raise KeyError
  end.

(** Both weights are computed, and the first is strictly above the second. *)
Definition weight_exceeds (a b : result R) : Prop :=
  ∃ wa wb, a = Ok wa ∧ b = Ok wb ∧ (wb < wa)%R.

(** A bid is well formed for a domain when it gives every discrete issue one
    of the values of the issue. *)
Definition well_formed_bid (domain : Domain) (bid : Bid) : Prop :=
  ∀ issue values, domain !! issue = Some (DiscreteValueSet values) →
    ∃ v, bid !! issue = Some v ∧ v ∈ values.

Definition well_formed_action (domain : Domain) (action : Action) : Prop :=
  match action with
  | Offer bid | Accept bid => well_formed_bid domain bid
  | EndNegotiation => True
  end.

(** The value set of a discrete issue lists at least one value, and none
    twice. *)
Definition proper_value_sets (domain : Domain) : Prop :=
  ∀ issue values, domain !! issue = Some (DiscreteValueSet values) →
    values ≠ [] ∧ NoDup values.

(** A domain of discrete issues only, each with a proper value set. *)
Definition discrete_domain (domain : Domain) : Prop :=
  ∀ issue vs, domain !! issue = Some vs →
    ∃ values, vs = DiscreteValueSet values ∧ values ≠ [] ∧ NoDup values.

(** What holds of the adaptive learner between the notifications of a session
    on [domain]: either no offer has arrived and nothing is set, or the model
    has observed the offers [first :: bids], and the initial opponent utility
    is the prediction made for [first] right after the first update. *)
Definition session_state (domain : Domain) (self : AdaptiveLearner.Agent) : Prop :=
  AdaptiveLearner.self_domain self = domain ∧
  AdaptiveLearner.reservation_value self = 0.65%R ∧
  AdaptiveLearner.eps self = 0.1%R ∧
  ((AdaptiveLearner.opponent_model self = None ∧
    AdaptiveLearner.initial_opponent_utility self = None ∧
    AdaptiveLearner.last_received_bid self = None)
   ∨ ∃ m0 first bids u last,
       AdaptiveLearner.OpponentModel_init domain = Ok m0 ∧
       Forall (well_formed_bid domain) (first :: bids) ∧
       AdaptiveLearner.opponent_model self
         = Some (foldl AdaptiveLearner.update m0 (first :: bids)) ∧
       AdaptiveLearner.get_predicted_utility
         (AdaptiveLearner.update m0 first) (Some first) = Ok u ∧
       AdaptiveLearner.initial_opponent_utility self = Some u ∧
       AdaptiveLearner.last_received_bid self = Some last).

(** The two-issue scenario: issue A with the values low and high, issue B with
    x, y and z; the opponent offers (low, x) three times, then (high, y)
    twice. *)
Module Scenario.
Definition low : Value := DiscreteValue "low".
Definition high : Value := DiscreteValue "high".
Definition x : Value := DiscreteValue "x".
Definition y : Value := DiscreteValue "y".
Definition z : Value := DiscreteValue "z".

Definition domain : Domain :=
  <["A" := DiscreteValueSet [low; high]]> {["B" := DiscreteValueSet [x; y; z]]}.

Definition low_x : Bid := <["A" := low]> {["B" := x]}.
Definition high_y : Bid := <["A" := high]> {["B" := y]}.

Definition offers : list Bid := [low_x; low_x; low_x; high_y; high_y].

(** What the estimators of the two issues observe. *)
Definition observed_A : list (option Value) :=
  [Some low; Some low; Some low; Some high; Some high].
Definition observed_B : list (option Value) :=
  [Some x; Some x; Some x; Some y; Some y].

(** The Frequency-Bayesian model after the five updates. *)
Definition model : result AdaptiveLearner.OpponentModel :=
  m ← AdaptiveLearner.OpponentModel_init domain;
  Ok (foldl AdaptiveLearner.update m offers).

Definition weight (issue : string) : result R :=
  m ← model; issue_weight m issue.
End Scenario.

(** The contract of [predictedUtility] for a model [m] of the variant [v]: 0.0
    when nothing has been observed or the bid is absent, and in every case a
    value of [0,1]. *)
Definition meets_contract (v : Variant) (m : model v) : Prop :=
  ∀ bid : option Bid,
    (observed v m = [] ∨ bid = None → predictedUtility v m bid = Ok 0%R) ∧
    ∃ u, predictedUtility v m bid = Ok u ∧ (0 <= u <= 1)%R.

(** The part of the contract that does not depend on the arithmetic: 0.0
    when nothing has been observed or the bid is absent, and in every case a
    number and no exception. *)
Definition answers (v : Variant) (m : model v) : Prop :=
  ∀ bid : option Bid,
    (observed v m = [] ∨ bid = None → predictedUtility v m bid = Ok 0%R) ∧
    ∃ u, predictedUtility v m bid = Ok u.

(** A domain with a continuous issue. *)
Definition has_continuous_issue (domain : Domain) : Prop :=
  ∃ issue low high step, domain !! issue = Some (NumberValueSet low high step).

(** A domain with one continuous issue. *)
Definition price_domain : Domain := {["price" := NumberValueSet 0 1 1]}.

(** The value of the ranking the specification words: the one at index
    [round(α(t)·(count−1))]. *)
Definition ranked_value_rounded (self : DeadlinePusher.Agent) (t : R)
    (utilities : list (Value * Q)) : result Value :=
  alpha ← DeadlinePusher.compute_alpha self t;
  item ← DeadlinePusher.subscript (DeadlinePusher.sort_desc utilities)
           (DeadlinePusher.rounded_index alpha (length utilities));
  Ok item.1.

(** The order of a ranking by decreasing utility. *)
Definition ranked (a b : Value * Q) : Prop := (b.2 <= a.2)%Q.

(** The utilities of an issue with seven values. *)
Definition seven_values : list (Value * Q) :=
  [(DiscreteValue "c", 0.5); (DiscreteValue "a", 1); (DiscreteValue "b", 0.8);
   (DiscreteValue "d", 0.4); (DiscreteValue "e", 0.3); (DiscreteValue "f", 0.2);
   (DiscreteValue "g", 0.1)]%Q.

(** Two strategic conceders: one with the reservation value 0.3; one that
    values the bid (low, x) at 0.7, the bid (high, y) at 0.4, its reservation
    bid (high, x) at 0.5 and every other bid at 0.65. *)
Module Conceder.
Definition model : StrategicConceder.OpponentModel :=
  {| StrategicConceder.offers := [];
     StrategicConceder.domain := Scenario.domain;
     StrategicConceder.issue_info := ∅ |}.

Definition reservation_bid : Bid := <["A" := Scenario.high]> {["B" := Scenario.x]}.
Definition other : Bid := <["A" := Scenario.low]> {["B" := Scenario.y]}.

Definition reserved_at_0_3 : StrategicConceder.Agent :=
  StrategicConceder.init (λ _, 0.3%Q) (Some reservation_bid) model.

Definition getUtility (bid : Bid) : Q :=
  if decide (bid = Scenario.low_x) then 0.7%Q
  else if decide (bid = Scenario.high_y) then 0.4%Q
  else if decide (bid = reservation_bid) then 0.5%Q
  else 0.65%Q.

Definition reserved_at_0_5 : StrategicConceder.Agent :=
  StrategicConceder.init getUtility (Some reservation_bid) model.
End Conceder.

(** A bid a pass of the adaptive learner's search scores. *)
Definition eligible (self : AdaptiveLearner.Agent) (filtered : bool) (bid : Bid) : Prop :=
  filtered = true →
  (AdaptiveLearner.reservation_value self <= Q2R (AdaptiveLearner.profile self bid))%R.

(** The weight the Rank-Distance model gives every issue's estimator from the
    two most recent bids: 0 before any bid, the weight of the default distance
    3 after one bid, and then the weight of the capped distance between the
    indices of the two values. *)
Definition rank_distance_weight (values : list Value) (issue : string)
    (bids : list Bid) : R :=
  match reverse bids with
  | [] => 0%R
  | [_] => 1%R
  | bid2 :: bid1 :: _ =>
      match DeadlinePusher.index values (bid1 !! issue),
            DeadlinePusher.index values (bid2 !! issue) with
      | Some ind1, Some ind2 =>
          match DeadlinePusher.distance ind1 ind2 `min` 4 with
          | 0 => 6 | 1 => 4 | 2 => 3 | 3 => 1 | _ => 0.5
          end%R
      | _, _ => 0%R
      end
  end.

(** The state in which the Rank-Distance model is between updates. *)
Definition model_invariant (domain : Domain) (m : DeadlinePusher.OpponentModel) : Prop :=
  DeadlinePusher.domain m = domain ∧
  Forall (well_formed_bid domain) (DeadlinePusher.offers m) ∧
  ∀ issue, match domain !! issue with
           | Some vs => (∃ values, vs = DiscreteValueSet values) ∧
                        is_Some (DeadlinePusher.issue_estimators m !! issue)
           | None => DeadlinePusher.issue_estimators m !! issue = None
           end.

(** The utilities of a profile are utilities: within [0,1]. *)
Definition unit_utilities (getUtility : Bid → Q) : Prop :=
  ∀ bid, (0 <= getUtility bid <= 1)%Q.

(** Clock readings are progress fractions: within [0,1]. *)
Definition unit_progress (draws : list (Bid * R)) : Prop :=
  Forall (λ draw, 0 <= draw.2 <= 1)%R draws.


(** The sum of [f] over the values of a dict. *)
Definition map_sum {A} (f : A → R) (m : gmap string A) : R :=
  map_fold (λ _ x acc, acc + f x)%R 0%R m.

(** The Density-Estimation model's prediction for a bid, as the strategic
    conceder's [find_bid] reads it. *)
Definition opponent_utility (self : StrategicConceder.Agent) (bid : Bid) : R :=
  match StrategicConceder.opponent_model self with
  | Some model =>
      match StrategicConceder.get_predicted_utility model (Some bid) with
      | Ok u => u
      | Raise _ => 0%R
      end
  | None => 0%R
  end.

(** A bid whose utility, as a double, is at or above the strategic conceder's
    target and within the margin. *)
Definition near_target (float : Q → R) (self : StrategicConceder.Agent) (bid : Bid)
  : Prop :=
  (StrategicConceder.target_utility self
     <= float (StrategicConceder.profile self bid)
     <= StrategicConceder.target_utility self
        + StrategicConceder.next_bid_difference_margin self)%R.

(** A bid whose utility, as a double, is not below [self.last_utility]. *)
Definition not_conceding (float : Q → R) (self : StrategicConceder.Agent) (bid : Bid)
  : Prop :=
  (StrategicConceder.last_utility self
     <= float (StrategicConceder.profile self bid))%R.

(** The bids the strategic conceder's search looks at. *)
Definition visited (first_bid : Bid) (more_bids : list Bid) (draws : list Bid)
  : list Bid :=
  if bool_decide (5000 < length (first_bid :: more_bids))
  then take StrategicConceder.bid_search_attempts draws
  else first_bid :: more_bids.

(** A Density-Estimation model that has seen four offers on the issue A. *)
Module Density.
Definition info : StrategicConceder.IssueInfo :=
  {| StrategicConceder.values := [Scenario.low; Scenario.high];
     StrategicConceder.value_map := <[Scenario.low := 0]> {[Scenario.high := 1]};
     StrategicConceder.inverse_value_map := <[0 := Scenario.low]> {[1 := Scenario.high]};
     StrategicConceder.offered_values_numeric := [0; 0; 1; 1];
     StrategicConceder.weight := 0.25;
     StrategicConceder.value_utilities := ∅;
     StrategicConceder.num_possible_values := 2 |}.

Definition four_offers : StrategicConceder.OpponentModel :=
  {| StrategicConceder.offers :=
       [Scenario.low_x; Scenario.low_x; Scenario.high_y; Scenario.high_y];
     StrategicConceder.domain := Scenario.domain;
     StrategicConceder.issue_info := {["A" := info]} |}.

Definition unobserved : StrategicConceder.IssueInfo :=
  {| StrategicConceder.values := [Scenario.x; Scenario.y; Scenario.z];
     StrategicConceder.value_map := ∅;
     StrategicConceder.inverse_value_map := ∅;
     StrategicConceder.offered_values_numeric := [1];
     StrategicConceder.weight := 0.5;
     StrategicConceder.value_utilities := {[Scenario.x := 1%R]};
     StrategicConceder.num_possible_values := 3 |}.

(** A model whose predictions differ: 1 for a bid with A = low, 0.5 for a bid
    with A = high. *)
Definition ranking : StrategicConceder.IssueInfo :=
  {| StrategicConceder.values := [Scenario.low; Scenario.high];
     StrategicConceder.value_map := <[Scenario.low := 0]> {[Scenario.high := 1]};
     StrategicConceder.inverse_value_map := <[0 := Scenario.low]> {[1 := Scenario.high]};
     StrategicConceder.offered_values_numeric := [0; 0; 0; 1; 1];
     StrategicConceder.weight := 1;
     StrategicConceder.value_utilities :=
       <[Scenario.low := 1%R]> {[Scenario.high := 0.5%R]};
     StrategicConceder.num_possible_values := 2 |}.

Definition five_offers : StrategicConceder.OpponentModel :=
  {| StrategicConceder.offers := Scenario.offers;
     StrategicConceder.domain := Scenario.domain;
     StrategicConceder.issue_info := {["A" := ranking]} |}.

(** Own utilities that are doubles, which [float] returns unchanged: 1 for
    every bid, and 0.25 for every bid. *)
Definition getUtility (bid : Bid) : Q := 1%Q.

Definition quarter (bid : Bid) : Q := 0.25%Q.
End Density.

(** A linear additive profile as the deadline pusher reads it: an issue has
    at least one value, and utilities, weights and evaluations lie within
    [0,1]. *)
Definition proper_profile (profile : DeadlinePusher.Profile) : Prop :=
  map_Forall (λ _ items, items ≠ []) (DeadlinePusher.getUtilities profile) ∧
  unit_utilities (DeadlinePusher.getUtility profile) ∧
  (∀ issue, (0 <= DeadlinePusher.profile_getWeight profile issue <= 1)%Q) ∧
  (∀ issue value, (0 <= DeadlinePusher.value_getUtility profile issue value <= 1)%Q).

(** A bid that gives every issue of the profile one of the values the profile
    lists for it, and mentions no other issue. *)
Definition bid_of_profile (profile : DeadlinePusher.Profile) (bid : Bid) : Prop :=
  ∀ issue, match DeadlinePusher.getUtilities profile !! issue with
           | Some items => ∃ item, item ∈ items ∧ bid !! issue = Some item.1
           | None => bid !! issue = None
           end.

(** A profile over the issue A of the scenario. *)
Module Pusher.
Definition profile : DeadlinePusher.Profile :=
  {| DeadlinePusher.getUtilities :=
       {["A" := [(Scenario.low, 0.2%Q); (Scenario.high, 0.9%Q)]]};
     DeadlinePusher.getUtility := λ _, 0.5%Q;
     DeadlinePusher.profile_getWeight := λ _, 1%Q;
     DeadlinePusher.value_getUtility := λ _ _, 0.5%Q |}.
End Pusher.

(** * Properties *)

(** ** The error monad *)

Lemma bind_Ok {A B} (f : A → result B) (a : A) : (Ok a ≫= f) = f a.
Proof. reflexivity. Qed.

Lemma bind_Ok_inv {A B} (f : A → result B) (m : result A) (b : B) :
  (m ≫= f) = Ok b → ∃ a, m = Ok a ∧ f a = Ok b.
Proof. destruct m as [a|e]; [eauto | discriminate]. Qed.

Lemma float_div_Ok (x y : R) : y ≠ 0%R → float_div x y = Ok (x / y)%R.
Proof. intros Hy. unfold float_div. by destruct (decide (y = 0%R)). Qed.

Lemma math_log_Ok (x : R) : (0 < x)%R → math_log x = Ok (ln x).
Proof. intros Hx. unfold math_log. by destruct (decide (0 < x)%R). Qed.

Lemma mapM_Ok {A B} (f : A → result B) (g : A → B) (l : list A) :
  (∀ x, x ∈ l → f x = Ok (g x)) → mapM f l = Ok (g <$> l).
Proof.
  induction l as [|x l IH]; intros Hf; [reflexivity|].
  cbn. rewrite (Hf x) by left. cbn.
  rewrite IH; [reflexivity|]. intros y Hy. apply Hf. by right.
Qed.

(** ** Dict comprehensions *)

Section comprehension.
Context {A B : Type} (f : string → A → result B).

Lemma dict_comprehension_spec (m : gmap string A) :
  comprehension_spec f (dict_comprehension f m) m.
Proof.
  unfold dict_comprehension.
  apply (map_fold_weak_ind (λ acc m, comprehension_spec f acc m)).
  - intros k. by rewrite !lookup_empty.
  - intros i x m' r Hi IH. destruct r as [d|e]; cbn in *.
    + destruct (f i x) as [y|e] eqn:Hfx; cbn.
      * intros k. destruct (decide (i = k)) as [<-|Hne].
        -- rewrite !lookup_insert_eq. eauto.
        -- rewrite !lookup_insert_ne by done. apply IH.
      * exists i, x. by rewrite lookup_insert_eq.
    + destruct IH as (k & v & Hk & Hf). exists k, v. split; [|done].
      rewrite lookup_insert_ne; [done|]. intros ->. congruence.
Qed.

Lemma dict_comprehension_Ok (m : gmap string A) :
  (∀ k v, m !! k = Some v → ∃ y, f k v = Ok y) →
  ∃ d, dict_comprehension f m = Ok d ∧
       ∀ k, match m !! k with
            | Some v => ∃ y, f k v = Ok y ∧ d !! k = Some y
            | None => d !! k = None
            end.
Proof.
  intros Hall. pose proof (dict_comprehension_spec m) as Hs.
  destruct (dict_comprehension f m) as [d|e]; cbn in Hs; [eauto|].
  destruct Hs as (k & v & Hk & Hf). destruct (Hall k v Hk) as [y Hy]. congruence.
Qed.

Lemma dict_comprehension_Raise (m : gmap string A) (e : exn) :
  (∀ k v e', m !! k = Some v → f k v = Raise e' → e' = e) →
  (∃ k v, m !! k = Some v ∧ f k v = Raise e) →
  dict_comprehension f m = Raise e.
Proof.
  intros Honly (k & v & Hk & Hf). pose proof (dict_comprehension_spec m) as Hs.
  destruct (dict_comprehension f m) as [d|e']; cbn in Hs.
  - specialize (Hs k). rewrite Hk in Hs. destruct Hs as (y & Hy & _). congruence.
  - destruct Hs as (k' & v' & Hk' & Hf'). f_equal. eauto.
Qed.
End comprehension.

(** ** Logarithm and entropy *)

Section entropy.
Local Open Scope R_scope.

Lemma ln_le_minus_1 (x : R) : 0 < x → ln x <= x - 1.
Proof.
  intros Hx. pose proof (exp_ineq1_le (x - 1)) as He.
  destruct (Rle_lt_dec (ln x) (x - 1)) as [|Hlt]; [done|].
  apply exp_increasing in Hlt. rewrite exp_ln in Hlt by done. lra.
Qed.

Lemma ln_lt_minus_1 (x : R) : 0 < x → x ≠ 1 → ln x < x - 1.
Proof.
  intros Hx Hne. assert (x - 1 ≠ 0) as Hne' by lra.
  pose proof (exp_ineq1 (x - 1) Hne') as He.
  destruct (Rlt_le_dec (ln x) (x - 1)) as [|Hle]; [done|].
  destruct Hle as [Hlt|Heq].
  - apply exp_increasing in Hlt. rewrite exp_ln in Hlt by done. lra.
  - rewrite Heq, exp_ln in He by done. lra.
Qed.

Lemma Rsum_cons (x : R) (l : list R) : Rsum (x :: l) = x + Rsum l.
Proof. reflexivity. Qed.

Lemma py_sum_total (l : list R) : py_sum l = Rsum l.
Proof.
  unfold py_sum. enough (∀ a, fold_left Rplus l a = a + Rsum l) as ->; [lra|].
  induction l as [|x l IH]; intros a; [cbn; lra|].
  cbn [fold_left]. rewrite IH, Rsum_cons. lra.
Qed.

Lemma shannon_entropy_cons (p : R) (ps : list R) :
  shannon_entropy (p :: ps) = - (p * ln p) + shannon_entropy ps.
Proof. unfold shannon_entropy. rewrite fmap_cons, Rsum_cons. lra. Qed.

Lemma gibbs_term (c p : R) : 0 < c → 0 < p → - (p * ln p) - p * ln c <= / c - p.
Proof.
  intros Hc Hp.
  assert (0 < / (c * p)) as Hq by (apply Rinv_0_lt_compat; nra).
  pose proof (ln_le_minus_1 _ Hq) as Hl.
  rewrite ln_Rinv, ln_mult in Hl by nra.
  assert (p * / (c * p) = / c) as Hpc by (field; lra).
  nra.
Qed.

Lemma gibbs_term_strict (c p : R) :
  0 < c → 0 < p → c * p ≠ 1 → - (p * ln p) - p * ln c < / c - p.
Proof.
  intros Hc Hp Hne.
  assert (0 < / (c * p)) as Hq by (apply Rinv_0_lt_compat; nra).
  assert (/ (c * p) ≠ 1) as Hq1.
  { intros Heq. apply Hne. rewrite <- (Rinv_inv (c * p)), Heq. lra. }
  pose proof (ln_lt_minus_1 _ Hq Hq1) as Hl.
  rewrite ln_Rinv, ln_mult in Hl by nra.
  assert (p * / (c * p) = / c) as Hpc by (field; lra).
  nra.
Qed.

Lemma gibbs_sum (c : R) (ps : list R) :
  0 < c → Forall (λ p, 0 < p) ps →
  shannon_entropy ps - Rsum ps * ln c <= INR (length ps) * / c - Rsum ps.
Proof.
  intros Hc Hps.
  induction Hps as [|p ps Hp _ IH].
  - unfold shannon_entropy. cbn. lra.
  - rewrite shannon_entropy_cons, Rsum_cons, length_cons, S_INR.
    pose proof (gibbs_term c p Hc Hp). lra.
Qed.

Lemma gibbs_sum_strict (c : R) (ps : list R) :
  0 < c → Forall (λ p, 0 < p) ps → Exists (λ p, c * p ≠ 1) ps →
  shannon_entropy ps - Rsum ps * ln c < INR (length ps) * / c - Rsum ps.
Proof.
  intros Hc Hps Hex.
  induction Hex as [p ps Hne|p ps Hex IH];
    apply Forall_cons in Hps as [Hp Hps];
    rewrite shannon_entropy_cons, Rsum_cons, length_cons, S_INR.
  - pose proof (gibbs_term_strict c p Hc Hp Hne).
    pose proof (gibbs_sum c ps Hc Hps). lra.
  - specialize (IH Hps). pose proof (gibbs_term c p Hc Hp). lra.
Qed.

(** The entropy of a distribution over [n] points is at most [ln n]. *)
Lemma entropy_le_ln (ps : list R) :
  ps ≠ [] → Forall (λ p, 0 < p) ps → Rsum ps = 1 →
  shannon_entropy ps <= ln (INR (length ps)).
Proof.
  intros Hne Hps Hsum.
  assert (0 < INR (length ps)) as Hn.
  { apply lt_0_INR. destruct ps; [done|cbn; lia]. }
  pose proof (gibbs_sum _ ps Hn Hps) as Hg. rewrite Hsum in Hg.
  rewrite Rinv_r in Hg by lra. lra.
Qed.

(** ... and below [ln n] unless the distribution is uniform. *)
Lemma entropy_lt_ln (ps : list R) :
  Forall (λ p, 0 < p) ps → Rsum ps = 1 →
  Exists (λ p, INR (length ps) * p ≠ 1) ps →
  shannon_entropy ps < ln (INR (length ps)).
Proof.
  intros Hps Hsum Hex.
  assert (0 < INR (length ps)) as Hn.
  { apply lt_0_INR. destruct Hex; cbn; lia. }
  pose proof (gibbs_sum_strict _ ps Hn Hps Hex) as Hg. rewrite Hsum in Hg.
  rewrite Rinv_r in Hg by lra. lra.
Qed.

End entropy.

(** ** The Frequency-Bayesian estimator *)

Section bayesian_estimator.
Import AdaptiveLearner.
Local Open Scope R_scope.

Lemma occurrences_cons (v o : option Value) (obs : list (option Value)) :
  occurrences v (o :: obs) = ((if decide (o = v) then 1 else 0) + occurrences v obs)%nat.
Proof. unfold occurrences. rewrite filter_cons. by destruct (decide (o = v)). Qed.

Lemma initial_counts (values : list Value) (k : option Value) :
  default 0%nat
    ((list_to_map ((λ value, (Some value, 0%nat)) <$> values)
        : gmap (option Value) nat) !! k) = 0%nat.
Proof.
  induction values as [|v values IH]; [done|].
  rewrite fmap_cons, list_to_map_cons. cbn [fst snd].
  destruct (decide (Some v = k)) as [->|Hne].
  - by rewrite lookup_insert_eq.
  - by rewrite lookup_insert_ne.
Qed.

(** The state of an estimator after a series of updates. *)
Lemma estimator_updates (e : BayesianIssueEstimator) (obs : list (option Value)) :
  let e' := foldl estimator_update e obs in
  value_set e' = value_set e ∧ n e' = n e ∧
  total_count e' = (total_count e + length obs)%nat ∧
  ∀ k, default 0%nat (value_counts e' !! k)
       = (default 0%nat (value_counts e !! k) + occurrences k obs)%nat.
Proof.
  revert e. induction obs as [|o obs IH]; intros e; cbn [foldl].
  - repeat split; cbn; try lia.
  - destruct (IH (estimator_update e o)) as (Hv & Hn & Ht & Hc).
    repeat split; [done | done | cbn in *; lia |].
    intros k. rewrite Hc, occurrences_cons. cbn [estimator_update value_counts].
    destruct (decide (o = k)) as [->|Hne].
    + rewrite lookup_insert_eq. cbn. lia.
    + rewrite lookup_insert_ne by done. lia.
Qed.

Lemma estimator_observed (values : list Value) (e0 : BayesianIssueEstimator)
    (obs : list (option Value)) :
  BayesianIssueEstimator_init (DiscreteValueSet values) = Ok e0 →
  let e := foldl estimator_update e0 obs in
  value_set e = values ∧ n e = length values ∧ total_count e = length obs ∧
  ∀ k, default 0%nat (value_counts e !! k) = occurrences k obs.
Proof.
  intros [= <-]. destruct (estimator_updates
    {| value_set := values; n := length values;
       value_counts := list_to_map ((λ value, (Some value, 0%nat)) <$> values);
       total_count := 0 |} obs) as (Hv & Hn & Ht & Hc).
  repeat split; [done | done | by rewrite Ht |].
  intros k. rewrite Hc. cbn [value_counts]. by rewrite initial_counts.
Qed.

Lemma get_value_utility_observed (values : list Value) (e0 : BayesianIssueEstimator)
    (obs : list (option Value)) (v : option Value) :
  values ≠ [] →
  BayesianIssueEstimator_init (DiscreteValueSet values) = Ok e0 →
  get_value_utility (foldl estimator_update e0 obs) v
  = Ok (smoothed_frequency values obs v).
Proof.
  intros Hne He0. destruct (estimator_observed values e0 obs He0) as (Hv & Hn & Ht & Hc).
  unfold get_value_utility, smoothed_frequency. rewrite Hc, Hn, Ht.
  rewrite float_div_Ok.
  - by rewrite !plus_INR.
  - apply not_0_INR. destruct values; [done | cbn; lia].
Qed.

Lemma smoothed_frequency_pos (values : list Value) (obs : list (option Value))
    (v : option Value) :
  values ≠ [] → 0 < smoothed_frequency values obs v.
Proof.
  intros Hne. unfold smoothed_frequency.
  assert (0 < INR (length values)).
  { apply lt_0_INR. destruct values; [done | cbn; lia]. }
  pose proof (pos_INR (occurrences v obs)). pose proof (pos_INR (length obs)).
  apply Rdiv_lt_0_compat; lra.
Qed.

Lemma get_weight_observed (values : list Value) (e0 : BayesianIssueEstimator)
    (obs : list (option Value)) :
  values ≠ [] →
  BayesianIssueEstimator_init (DiscreteValueSet values) = Ok e0 →
  get_weight (foldl estimator_update e0 obs) = Ok (1 - normalized_entropy values obs).
Proof.
  intros Hne He0. destruct (estimator_observed values e0 obs He0) as (Hv & Hn & Ht & Hc).
  assert (1 <= length values)%nat as Hlen by (destruct values; [done | cbn; lia]).
  unfold get_weight. rewrite Hv, Hn, Ht.
  rewrite (mapM_Ok _ (λ v, smoothed_frequency values obs (Some v))).
  2:{ intros v _. rewrite Hc, float_div_Ok.
      - unfold smoothed_frequency. by rewrite !plus_INR.
      - apply not_0_INR. lia. }
  rewrite bind_Ok.
  rewrite (mapM_Ok _ (λ p, p * ln p)).
  2:{ intros p Hp. apply list_elem_of_fmap in Hp as (v & -> & _).
      by rewrite math_log_Ok by by apply smoothed_frequency_pos. }
  rewrite bind_Ok. cbn zeta.
  rewrite math_log_Ok by (apply lt_0_INR; lia). rewrite bind_Ok.
  unfold normalized_entropy. destruct (decide (length values = 1%nat)) as [H1|H1].
  - rewrite H1. cbn [INR]. rewrite ln_1.
    destruct (decide (0 < 0)) as [?|_]; [lra|]. reflexivity.
  - assert (0 < ln (INR (length values))) as Hln.
    { rewrite <- ln_1. apply ln_increasing; [lra|].
      change 1 with (INR 1). apply lt_INR. lia. }
    destruct (decide (0 < ln (INR (length values)))) as [_|?]; [|done].
    rewrite float_div_Ok by lra. rewrite bind_Ok.
    rewrite py_sum_total. reflexivity.
Qed.
(** C5: for a discrete issue with the possible values [values] whose
    estimator has been updated with the observations [obs], the value
    utility of [v] is [(count(v) + 1) / (totalObservations +
    numPossibleValues)], and the weight of the issue is 1 minus the
    normalized entropy of that smoothed distribution: its Shannon entropy
    over [ln(numPossibleValues)], and 0 for a single possible value. *)
Theorem frequency_bayesian_estimates (values : list Value)
    (e0 : BayesianIssueEstimator) (obs : list (option Value)) (v : option Value) :
  values ≠ [] →
  BayesianIssueEstimator_init (DiscreteValueSet values) = Ok e0 →
  get_value_utility (foldl estimator_update e0 obs) v
    = Ok ((INR (occurrences v obs) + 1) / (INR (length obs) + INR (length values))) ∧
  get_weight (foldl estimator_update e0 obs)
    = Ok (1 - (if decide (length values = 1%nat) then 0
               else shannon_entropy
                      ((λ v, smoothed_frequency values obs (Some v)) <$> values)
                    / ln (INR (length values)))).
Proof.
  intros Hne He0. split.
  - by apply get_value_utility_observed.
  - by apply get_weight_observed.
Qed.

Lemma frequency_bayesian_estimates_witness :
  let values := [Scenario.low; Scenario.high] in
  let obs := [Some Scenario.low; Some Scenario.high; Some Scenario.low] in
  ∃ e0,
    get_value_utility (foldl estimator_update e0 obs) (Some Scenario.low)
      = Ok ((INR (occurrences (Some Scenario.low) obs) + 1)
            / (INR (length obs) + INR (length values))) ∧
    get_weight (foldl estimator_update e0 obs)
      = Ok (1 - (if decide (length values = 1%nat) then 0
                 else shannon_entropy
                        ((λ v, smoothed_frequency values obs (Some v)) <$> values)
                      / ln (INR (length values)))).
Proof.
  eexists. apply frequency_bayesian_estimates; [done | reflexivity].
Defined.
End bayesian_estimator.

(** ** The Frequency-Bayesian model *)

Section bayesian_model.
Import AdaptiveLearner.
Local Open Scope R_scope.

Lemma OpponentModel_init_spec (domain : Domain) (m0 : OpponentModel) :
  OpponentModel_init domain = Ok m0 →
  offers m0 = [] ∧
  ∀ k, match domain !! k with
       | Some vs => ∃ e0, BayesianIssueEstimator_init vs = Ok e0 ∧
                          issue_estimators m0 !! k = Some e0
       | None => issue_estimators m0 !! k = None
       end.
Proof.
  unfold OpponentModel_init. intros H.
  apply bind_Ok_inv in H as (d & Hd & [= <-]).
  pose proof (dict_comprehension_spec
    (λ _ value_set, BayesianIssueEstimator_init value_set) domain) as Hs.
  rewrite Hd in Hs. split; [done|]. exact Hs.
Qed.

Lemma OpponentModel_init_discrete (domain : Domain) :
  (∀ k vs, domain !! k = Some vs → ∃ values, vs = DiscreteValueSet values) →
  ∃ m0, OpponentModel_init domain = Ok m0.
Proof.
  intros Hd. unfold OpponentModel_init.
  destruct (dict_comprehension_Ok
    (λ _ value_set, BayesianIssueEstimator_init value_set) domain) as (d & -> & _).
  - intros k v Hk. destruct (Hd k v Hk) as [values ->]. cbn. eauto.
  - cbn. eauto.
Qed.

Lemma updates_spec (m : OpponentModel) (bids : list Bid) :
  offers (foldl update m bids) = offers m ++ bids ∧
  ∀ k, issue_estimators (foldl update m bids) !! k
       = (λ e, foldl estimator_update e ((λ b : Bid, b !! k) <$> bids))
           <$> issue_estimators m !! k.
Proof.
  revert m. induction bids as [|bid bids IH]; intros m; cbn [foldl].
  - split; [by rewrite app_nil_r|]. intros k. cbn. by destruct (_ !! k).
  - destruct (IH (update m bid)) as [Ho He]. split.
    + rewrite Ho. cbn. by rewrite <- app_assoc.
    + intros k. rewrite He. cbn [update issue_estimators].
      rewrite map_lookup_imap. by destruct (issue_estimators m !! k).
Qed.

(** The estimator of an issue in the model that has observed [bids]. *)
Lemma model_estimator (domain : Domain) (m0 : OpponentModel) (bids : list Bid)
    (issue : string) (values : list Value) :
  OpponentModel_init domain = Ok m0 →
  domain !! issue = Some (DiscreteValueSet values) →
  ∃ e0, BayesianIssueEstimator_init (DiscreteValueSet values) = Ok e0 ∧
        issue_estimators (foldl update m0 bids) !! issue
        = Some (foldl estimator_update e0 ((λ b : Bid, b !! issue) <$> bids)).
Proof.
  intros Hinit Hissue. apply OpponentModel_init_spec in Hinit as [_ Hk].
  specialize (Hk issue). rewrite Hissue in Hk. destruct Hk as (e0 & He0 & Hl).
  exists e0. split; [done|].
  destruct (updates_spec m0 bids) as [_ ->]. by rewrite Hl.
Qed.

Lemma model_issues (domain : Domain) (m0 : OpponentModel) (bids : list Bid)
    (issue : string) (e : BayesianIssueEstimator) :
  OpponentModel_init domain = Ok m0 →
  issue_estimators (foldl update m0 bids) !! issue = Some e →
  ∃ values, domain !! issue = Some (DiscreteValueSet values).
Proof.
  intros Hinit He. apply OpponentModel_init_spec in Hinit as [_ Hk].
  specialize (Hk issue). destruct (updates_spec m0 bids) as [_ Hu].
  rewrite Hu in He. destruct (domain !! issue) as [[values|]|].
  - eauto.
  - destruct Hk as (e0 & [=] & _).
  - by rewrite Hk in He.
Qed.
End bayesian_model.

(** ** Rational bounds on logarithms *)

Section ln_bounds.
Local Open Scope R_scope.

Lemma ln_monotone (x y : R) : 0 < x → x <= y → ln x <= ln y.
Proof.
  intros Hx [Hlt| ->]; [|lra]. left. by apply ln_increasing.
Qed.

Lemma ln_ge_1_minus_inv (r : R) : 0 < r → 1 - / r <= ln r.
Proof.
  intros Hr. assert (0 < / r) as Hi by by apply Rinv_0_lt_compat.
  pose proof (ln_le_minus_1 _ Hi) as Hl. rewrite ln_Rinv in Hl by done. lra.
Qed.

Lemma ln_le_pow (x r : R) (N : nat) :
  0 < x → 0 < r → x <= r ^ N → ln x <= INR N * (r - 1).
Proof.
  intros Hx Hr Hle. apply (ln_monotone _ _ Hx) in Hle.
  rewrite ln_pow in Hle by done.
  pose proof (ln_le_minus_1 r Hr). pose proof (pos_INR N). nra.
Qed.

Lemma ln_ge_pow (x r : R) (N : nat) :
  0 < r → r ^ N <= x → INR N * (1 - / r) <= ln x.
Proof.
  intros Hr Hle. assert (0 < r ^ N) as Hp by by apply pow_lt.
  apply (ln_monotone _ _ Hp) in Hle. rewrite ln_pow in Hle by done.
  pose proof (ln_ge_1_minus_inv r Hr). pose proof (pos_INR N). nra.
Qed.

(** [x <= (p/q)^N], checked on integers, bounds [ln x] from above. *)
Lemma ln_upper (x p q : Z) (N : nat) :
  (0 < x)%Z → (0 < p)%Z → (0 < q)%Z →
  (x * q ^ Z.of_nat N <=? p ^ Z.of_nat N)%Z = true →
  ln (IZR x) <= INR N * (IZR p / IZR q - 1).
Proof.
  intros Hx Hp Hq Hle. apply Z.leb_le, IZR_le in Hle.
  rewrite mult_IZR, <- !pow_IZR in Hle.
  apply IZR_lt in Hx, Hp, Hq.
  assert (0 < IZR q ^ N) as Hqn by by apply pow_lt.
  apply ln_le_pow; [done | by apply Rdiv_lt_0_compat |].
  unfold Rdiv. rewrite Rpow_mult_distr, pow_inv.
  apply (Rmult_le_reg_r (IZR q ^ N)); [done|].
  rewrite Rmult_assoc, Rinv_l by lra. lra.
Qed.

(** [(p/q)^N <= x], checked on integers, bounds [ln x] from below. *)
Lemma ln_lower (x p q : Z) (N : nat) :
  (0 < p)%Z → (0 < q)%Z →
  (p ^ Z.of_nat N <=? x * q ^ Z.of_nat N)%Z = true →
  INR N * (1 - IZR q / IZR p) <= ln (IZR x).
Proof.
  intros Hp Hq Hle. apply Z.leb_le, IZR_le in Hle.
  rewrite mult_IZR, <- !pow_IZR in Hle.
  apply IZR_lt in Hp, Hq.
  assert (0 < IZR q ^ N) as Hqn by by apply pow_lt.
  replace (IZR q / IZR p) with (/ (IZR p / IZR q)) by (field; lra).
  apply ln_ge_pow; [by apply Rdiv_lt_0_compat|].
  unfold Rdiv. rewrite Rpow_mult_distr, pow_inv.
  apply (Rmult_le_reg_r (IZR q ^ N)); [done|].
  rewrite Rmult_assoc, Rinv_l by lra. lra.
Qed.

Lemma ln_2_bounds : 0.69 <= ln 2 <= 0.70.
Proof.
  split.
  - pose proof (ln_lower 2 12800 12731 128) as H.
    rewrite INR_IZR_INZ in H. cbn [Z.of_nat Pos.of_succ_nat] in H.
    assert (IZR (Z.of_nat 128) = 128) as HN by (f_equal; reflexivity).
    rewrite HN in H. etrans; [|apply H; [lia | lia | by vm_compute]]. lra.
  - pose proof (ln_upper 2 647 640 64) as H.
    rewrite INR_IZR_INZ in H.
    assert (IZR (Z.of_nat 64) = 64) as HN by (f_equal; reflexivity).
    rewrite HN in H. etrans; [apply H; [lia | lia | lia | by vm_compute]|]. lra.
Qed.

Lemma ln_3_bounds : 1.09 <= ln 3 <= 1.10.
Proof.
  split.
  - pose proof (ln_lower 3 102400 102291 1024) as H.
    rewrite INR_IZR_INZ in H.
    assert (IZR (Z.of_nat 1024) = 1024) as HN by (f_equal; reflexivity).
    rewrite HN in H. etrans; [|apply H; [lia | lia | by vm_compute]]. lra.
  - pose proof (ln_upper 3 10251 10240 1024) as H.
    rewrite INR_IZR_INZ in H.
    assert (IZR (Z.of_nat 1024) = 1024) as HN by (f_equal; reflexivity).
    rewrite HN in H. etrans; [apply H; [lia | lia | lia | by vm_compute]|]. lra.
Qed.

Lemma ln_7_lower : 1.94 <= ln 7.
Proof.
  pose proof (ln_lower 7 51200 51103 1024) as H.
  rewrite INR_IZR_INZ in H.
  assert (IZR (Z.of_nat 1024) = 1024) as HN by (f_equal; reflexivity).
  rewrite HN in H. etrans; [|apply H; [lia | lia | by vm_compute]]. lra.
Qed.
End ln_bounds.


(** ** The two-issue scenario *)

Section scenario.
Import AdaptiveLearner Scenario.
Local Open Scope R_scope.

Lemma ln_quotient (a b : R) : 0 < a → 0 < b → ln (a / b) = ln a - ln b.
Proof.
  intros Ha Hb. unfold Rdiv. rewrite ln_mult, ln_Rinv; [lra | done.. |].
  by apply Rinv_0_lt_compat.
Qed.

Lemma ln_4 : ln 4 = 2 * ln 2.
Proof. replace 4 with (2 * 2) by lra. rewrite ln_mult by lra. lra. Qed.

Lemma ln_8 : ln 8 = 3 * ln 2.
Proof. replace 8 with (2 * 4) by lra. rewrite ln_mult, ln_4 by lra. lra. Qed.

Lemma entropy_A :
  normalized_entropy [low; high] observed_A
  = (ln 7 - 8 / 7 * ln 2 - 3 / 7 * ln 3) / ln 2.
Proof.
  unfold normalized_entropy. cbn [length]. destruct (decide (2 = 1)%nat); [lia|].
  replace (INR 2) with 2 by (cbn; lra).
  f_equal. rewrite !fmap_cons, !shannon_entropy_cons.
  assert (smoothed_frequency [low; high] observed_A (Some low) = 4 / 7) as ->.
  { unfold smoothed_frequency.
    replace (occurrences (Some low) observed_A) with 3%nat by reflexivity.
    cbn. lra. }
  assert (smoothed_frequency [low; high] observed_A (Some high) = 3 / 7) as ->.
  { unfold smoothed_frequency.
    replace (occurrences (Some high) observed_A) with 2%nat by reflexivity.
    cbn. lra. }
  unfold shannon_entropy. cbn.
  rewrite !ln_quotient, ln_4 by lra. lra.
Qed.

Lemma entropy_B :
  normalized_entropy [x; y; z] observed_B
  = (2 * ln 2 - 3 / 8 * ln 3) / ln 3.
Proof.
  unfold normalized_entropy. cbn [length]. destruct (decide (3 = 1)%nat); [lia|].
  replace (INR 3) with 3 by (cbn; lra).
  f_equal. rewrite !fmap_cons, !shannon_entropy_cons.
  assert (smoothed_frequency [x; y; z] observed_B (Some x) = 4 / 8) as ->.
  { unfold smoothed_frequency.
    replace (occurrences (Some x) observed_B) with 3%nat by reflexivity.
    cbn. lra. }
  assert (smoothed_frequency [x; y; z] observed_B (Some y) = 3 / 8) as ->.
  { unfold smoothed_frequency.
    replace (occurrences (Some y) observed_B) with 2%nat by reflexivity.
    cbn. lra. }
  assert (smoothed_frequency [x; y; z] observed_B (Some z) = 1 / 8) as ->.
  { unfold smoothed_frequency.
    replace (occurrences (Some z) observed_B) with 0%nat by reflexivity.
    cbn. lra. }
  unfold shannon_entropy. cbn.
  rewrite !ln_quotient, ln_4, ln_8, ln_1 by lra. lra.
Qed.

(** The normalized entropy of issue A lies above that of issue B. *)
Lemma entropy_B_lt_A :
  normalized_entropy [x; y; z] observed_B
  < normalized_entropy [low; high] observed_A.
Proof.
  rewrite entropy_A, entropy_B.
  destruct ln_2_bounds as [L2 U2]. destruct ln_3_bounds as [L3 U3].
  pose proof ln_7_lower as L7.
  set (l2 := ln 2) in *. set (l3 := ln 3) in *. set (l7 := ln 7) in *.
  assert (0 < / (l2 * l3)) as Hinv by (apply Rinv_0_lt_compat; nra).
  replace ((2 * l2 - 3 / 8 * l3) / l3)
    with ((2 * l2 - 3 / 8 * l3) * l2 * / (l2 * l3)) by (field; lra).
  replace ((l7 - 8 / 7 * l2 - 3 / 7 * l3) / l2)
    with ((l7 - 8 / 7 * l2 - 3 / 7 * l3) * l3 * / (l2 * l3)) by (field; lra).
  apply Rmult_lt_compat_r; [done|].
  assert (l2 * l2 <= 0.49) by nra.
  assert (0.69 * 1.09 <= l2 * l3) by nra.
  assert (l2 * l3 <= 0.70 * 1.10) by nra.
  assert (1.94 * 1.09 <= l7 * l3) by nra.
  assert (l3 * l3 <= 1.21) by nra.
  lra.
Qed.

Lemma scenario_model :
  ∃ m0, OpponentModel_init domain = Ok m0 ∧
        Scenario.model = Ok (foldl update m0 Scenario.offers).
Proof.
  destruct (OpponentModel_init_discrete domain) as [m0 Hm0].
  - intros k vs. unfold domain.
    rewrite lookup_insert_Some, lookup_singleton_Some.
    intros [[_ <-]|[_ [_ <-]]]; eauto.
  - exists m0. split; [done|]. unfold Scenario.model. by rewrite Hm0.
Qed.

Lemma scenario_weights :
  Scenario.weight "A" = Ok (1 - normalized_entropy [low; high] observed_A) ∧
  Scenario.weight "B" = Ok (1 - normalized_entropy [x; y; z] observed_B).
Proof.
  destruct scenario_model as (m0 & Hm0 & Hm). unfold Scenario.weight.
  rewrite Hm, !bind_Ok. unfold issue_weight. split.
  - destruct (model_estimator domain m0 Scenario.offers "A" [low; high] Hm0)
      as (e0 & He0 & ->); [reflexivity|].
    by rewrite (get_weight_observed [low; high] e0).
  - destruct (model_estimator domain m0 Scenario.offers "B" [x; y; z] Hm0)
      as (e0 & He0 & ->); [reflexivity|].
    by rewrite (get_weight_observed [x; y; z] e0).
Qed.
(** C2 (as amended): after the five updates (low,x), (low,x), (low,x),
    (high,y), (high,y) both entropy-derived weights are computed, and the
    weight of issue A is strictly below the weight of issue B. *)
Theorem scenario_weight_A_below_B :
  weight_exceeds (Scenario.weight "B") (Scenario.weight "A").
Proof.
  destruct scenario_weights as [HA HB]. pose proof entropy_B_lt_A.
  eexists _, _. repeat split; [exact HB | exact HA | lra].
Qed.

(** C2 as stated fails: the weight of issue A does not exceed the weight of
    issue B after the five updates. *)
Lemma scenario_weight_A_not_above_B :
  ¬ weight_exceeds (Scenario.weight "A") (Scenario.weight "B").
Proof.
  destruct scenario_weights as [HA HB]. pose proof entropy_B_lt_A.
  intros (wa & wb & Ha & Hb & Hlt). rewrite HA in Ha. rewrite HB in Hb.
  injection Ha as <-. injection Hb as <-. lra.
Qed.
End scenario.

(** ** Bounds on the estimates of the Frequency-Bayesian estimator *)

Section bayesian_bounds.
Import AdaptiveLearner.
Local Open Scope R_scope.

Lemma div_le_1 (a d : R) : 0 < d → a <= d → a / d <= 1.
Proof.
  intros Hd Ha. unfold Rdiv. apply (Rmult_le_reg_r d); [done|].
  rewrite Rmult_assoc, Rinv_l by lra. lra.
Qed.

Lemma div_lt_1 (a d : R) : 0 < d → a < d → a / d < 1.
Proof.
  intros Hd Ha. unfold Rdiv. apply (Rmult_lt_reg_r d); [done|].
  rewrite Rmult_assoc, Rinv_l by lra. lra.
Qed.

Lemma occurrences_le (v : option Value) (obs : list (option Value)) :
  (occurrences v obs <= length obs)%nat.
Proof. apply length_filter. Qed.

Lemma indicator_sum (w : Value) (values : list Value) :
  NoDup values → w ∈ values →
  sum_list ((λ v, if decide (Some w = Some v) then 1 else 0)%nat <$> values) = 1%nat.
Proof.
  induction 1 as [|v values Hv Hnd IH]; intros Hw; [by apply elem_of_nil in Hw|].
  rewrite fmap_cons. cbn [sum_list]. apply elem_of_cons in Hw as [<-|Hw].
  - destruct (decide (Some w = Some w)); [|done].
    enough (sum_list ((λ v, if decide (Some w = Some v) then 1 else 0)%nat
                        <$> values) = 0%nat) as -> by done.
    clear IH Hnd. induction values as [|u values IH]; [done|].
    rewrite fmap_cons. cbn [sum_list].
    destruct (decide (Some w = Some u)) as [[= ->]|_].
    + exfalso. apply Hv. by left.
    + rewrite IH; [done|]. intros Hin. apply Hv. by right.
  - destruct (decide (Some w = Some v)) as [[= ->]|_]; [done|]. by rewrite IH.
Qed.

Lemma sum_occurrences (values : list Value) (obs : list (option Value)) :
  NoDup values → observations_in values obs →
  sum_list ((λ v, occurrences (Some v) obs) <$> values) = length obs.
Proof.
  intros Hnd. induction 1 as [|o obs (w & -> & Hw) _ IH].
  - induction values as [|v values IHv]; [done|].
    rewrite fmap_cons. cbn [sum_list]. apply NoDup_cons in Hnd as [_ Hnd].
    by rewrite IHv.
  - cbn [length]. pose proof (indicator_sum w values Hnd Hw) as Hi.
    enough (sum_list ((λ v, occurrences (Some v) (Some w :: obs)) <$> values)
            = (sum_list ((λ v, if decide (Some w = Some v) then 1 else 0)%nat
                           <$> values)
               + sum_list ((λ v, occurrences (Some v) obs) <$> values))%nat) by lia.
    clear. induction values as [|v values IHv]; [done|].
    rewrite !fmap_cons. cbn [sum_list]. rewrite occurrences_cons, IHv. unfold Datatypes.id.
    destruct (decide (Some w = Some v)); lia.
Qed.

Lemma Rsum_smoothed (values' values : list Value) (obs : list (option Value)) :
  Rsum ((λ v, smoothed_frequency values obs (Some v)) <$> values')
  = (INR (sum_list ((λ v, occurrences (Some v) obs) <$> values'))
     + INR (length values')) / (INR (length obs) + INR (length values)).
Proof.
  induction values' as [|v values' IH].
  - cbn. lra.
  - rewrite !fmap_cons, Rsum_cons, IH. cbn [sum_list length].
    unfold Datatypes.id, smoothed_frequency, Rdiv. rewrite plus_INR, S_INR. ring.
Qed.

(** The smoothed frequencies of the values of an issue add up to 1. *)
Lemma smoothed_distribution (values : list Value) (obs : list (option Value)) :
  values ≠ [] → NoDup values → observations_in values obs →
  Rsum ((λ v, smoothed_frequency values obs (Some v)) <$> values) = 1.
Proof.
  intros Hne Hnd Hobs. rewrite Rsum_smoothed, sum_occurrences by done.
  apply Rinv_r. pose proof (pos_INR (length obs)).
  assert (0 < INR (length values)); [|lra].
  apply lt_0_INR. destruct values; [done | cbn; lia].
Qed.

Lemma smoothed_frequency_le_1 (values : list Value) (obs : list (option Value))
    (v : option Value) :
  values ≠ [] → smoothed_frequency values obs v <= 1.
Proof.
  intros Hne. unfold smoothed_frequency.
  assert (1 <= INR (length values)).
  { change 1 with (INR 1). apply le_INR. destruct values; [done | cbn; lia]. }
  pose proof (le_INR _ _ (occurrences_le v obs)). pose proof (pos_INR (length obs)).
  apply div_le_1; lra.
Qed.

Lemma ln_length_pos (values : list Value) :
  values ≠ [] → length values ≠ 1%nat → 0 < ln (INR (length values)).
Proof.
  intros Hne H1. rewrite <- ln_1. apply ln_increasing; [lra|].
  change 1 with (INR 1). apply lt_INR. destruct values; [done | cbn in *; lia].
Qed.

Lemma smoothed_all_pos (values : list Value) (obs : list (option Value)) :
  values ≠ [] →
  Forall (λ p, 0 < p) ((λ v, smoothed_frequency values obs (Some v)) <$> values).
Proof.
  intros Hne. apply Forall_fmap, Forall_forall. intros v _.
  by apply smoothed_frequency_pos.
Qed.

(** The normalized entropy is at most 1: the weight is not negative. *)
Lemma normalized_entropy_le_1 (values : list Value) (obs : list (option Value)) :
  values ≠ [] → NoDup values → observations_in values obs →
  normalized_entropy values obs <= 1.
Proof.
  intros Hne Hnd Hobs. unfold normalized_entropy.
  destruct (decide (length values = 1%nat)) as [|H1]; [lra|].
  pose proof (ln_length_pos values Hne H1) as Hln.
  apply div_le_1; [lra|].
  rewrite <- (length_fmap (λ v, smoothed_frequency values obs (Some v)) values).
  apply entropy_le_ln.
  - destruct values; [done|]. by rewrite fmap_cons.
  - by apply smoothed_all_pos.
  - by apply smoothed_distribution.
Qed.

(** After one observation the normalized entropy is below 1: the weight is
    positive. *)
Lemma normalized_entropy_first (values : list Value) (w : Value) :
  NoDup values → w ∈ values → normalized_entropy values [Some w] < 1.
Proof.
  intros Hnd Hw. assert (values ≠ []) as Hne by (intros ->; by apply elem_of_nil in Hw).
  unfold normalized_entropy.
  destruct (decide (length values = 1%nat)) as [|H1]; [lra|].
  pose proof (ln_length_pos values Hne H1) as Hln.
  apply div_lt_1; [lra|].
  rewrite <- (length_fmap (λ v, smoothed_frequency values [Some w] (Some v)) values).
  apply entropy_lt_ln.
  - by apply smoothed_all_pos.
  - apply smoothed_distribution; [done..|].
    constructor; [by exists w | constructor].
  - apply Exists_exists. exists (smoothed_frequency values [Some w] (Some w)).
    split; [apply list_elem_of_fmap; eauto|].
    rewrite length_fmap. unfold smoothed_frequency.
    rewrite occurrences_cons. destruct (decide (Some w = Some w)); [|done].
    cbn [length occurrences filter list_filter Nat.add].
    assert (2 <= length values)%nat as H2 by (destruct values; [done | cbn in *; lia]).
    apply le_INR in H2. change (INR 2) with 2 in H2. cbn [INR].
    intros Heq. apply (f_equal (λ r, r * (1 + INR (length values)))) in Heq.
    field_simplify in Heq; lra.
Qed.
End bayesian_bounds.

(** ** The predicted utility of the Frequency-Bayesian model *)

Section bayesian_prediction.
Import AdaptiveLearner.
Local Open Scope R_scope.

Lemma weighted_sum_fold (ests : gmap string BayesianIssueEstimator) (bid : Bid) :
  (∀ i e, ests !! i = Some e → estimates_in_range bid i e) →
  ∃ pu tw,
    map_fold (λ issue_id estimator acc,
        '(predicted_utility, total_weight) ← acc;
        weight ← get_weight estimator;
        value_util ← get_value_utility estimator (bid !! issue_id);
        Ok (predicted_utility + weight * value_util, total_weight + weight))
      (Ok (0, 0)) ests = Ok (pu, tw) ∧
    0 <= pu <= tw ∧
    ((∃ i e w, ests !! i = Some e ∧ get_weight e = Ok w ∧ 0 < w) → 0 < pu).
Proof.
  apply (map_fold_weak_ind (λ acc (m : gmap string BayesianIssueEstimator),
    (∀ i e, m !! i = Some e → estimates_in_range bid i e) →
    ∃ pu tw, acc = Ok (pu, tw) ∧ 0 <= pu <= tw ∧
      ((∃ i e w, m !! i = Some e ∧ get_weight e = Ok w ∧ 0 < w) → 0 < pu))).
  - intros _. exists 0, 0. repeat split; [lra | lra |].
    intros (i & e & w & Hi & _). by rewrite lookup_empty in Hi.
  - intros i e m r Hi IH Hall.
    destruct IH as (pu & tw & -> & Hr & Hpos).
    { intros j e' Hj. apply Hall. rewrite lookup_insert_ne; [done|].
      intros ->. congruence. }
    destruct (Hall i e) as (w & u & Hw & Hu & Hw0 & Hu0);
      [by rewrite lookup_insert_eq|].
    cbn. rewrite Hw. cbn. rewrite Hu. cbn.
    eexists _, _. split; [reflexivity|]. split; [nra|].
    intros (j & e' & w' & Hj & Hw' & Hw'0).
    destruct (decide (i = j)) as [<-|Hne].
    + rewrite lookup_insert_eq in Hj. injection Hj as <-.
      rewrite Hw in Hw'. injection Hw' as <-. nra.
    + rewrite lookup_insert_ne in Hj by done.
      assert (0 < pu) by (apply Hpos; by exists j, e', w'). nra.
Qed.

Lemma get_predicted_utility_range (m : OpponentModel) (bid : Bid) :
  (∀ i e, issue_estimators m !! i = Some e → estimates_in_range bid i e) →
  ∃ u, get_predicted_utility m (Some bid) = Ok u ∧ 0 <= u <= 1 ∧
       (offers m ≠ [] →
        (∃ i e w, issue_estimators m !! i = Some e ∧ get_weight e = Ok w ∧ 0 < w) →
        0 < u).
Proof.
  intros Hall. unfold get_predicted_utility.
  destruct (decide (length (offers m) = 0%nat)) as [Hlen|Hlen].
  - exists 0. repeat split; [lra | lra |]. intros Hne. by destruct (offers m).
  - destruct (weighted_sum_fold _ bid Hall) as (pu & tw & -> & Hr & Hpos).
    cbn. destruct (decide (0 < tw)) as [Htw|Htw].
    + rewrite float_div_Ok by lra. eexists. split; [reflexivity|].
      assert (0 < / tw) by by apply Rinv_0_lt_compat.
      split; [split|].
      * unfold Rdiv. nra.
      * apply div_le_1; lra.
      * intros _ Hex. specialize (Hpos Hex). unfold Rdiv. nra.
    + exists 0. repeat split; [lra | lra |]. intros _ Hex. specialize (Hpos Hex). lra.
Qed.

Lemma observed_values (domain : Domain) (bids : list Bid) (i : string)
    (values : list Value) :
  domain !! i = Some (DiscreteValueSet values) →
  Forall (well_formed_bid domain) bids →
  observations_in values ((λ b : Bid, b !! i) <$> bids).
Proof.
  intros Hi Hwf. apply Forall_fmap. eapply Forall_impl; [exact Hwf|].
  intros b Hb. cbn. destruct (Hb i values Hi) as (v & -> & Hv). eauto.
Qed.

(** The estimates of a model that has observed well-formed bids. *)
Lemma reachable_estimates (domain : Domain) (m0 : OpponentModel)
    (bids : list Bid) (bid : Bid) :
  OpponentModel_init domain = Ok m0 → proper_value_sets domain →
  Forall (well_formed_bid domain) bids →
  ∀ i e, issue_estimators (foldl update m0 bids) !! i = Some e →
         estimates_in_range bid i e.
Proof.
  intros Hinit Hproper Hwf i e He.
  destruct (model_issues domain m0 bids i e Hinit He) as [values Hi].
  destruct (model_estimator domain m0 bids i values Hinit Hi) as (e0 & He0 & He').
  rewrite He in He'. injection He' as ->.
  destruct (Hproper i values Hi) as [Hne Hnd].
  pose proof (observed_values domain bids i values Hi Hwf) as Hobs.
  eexists _, _. split; [by apply get_weight_observed|].
  split; [by apply get_value_utility_observed|].
  pose proof (normalized_entropy_le_1 values _ Hne Hnd Hobs).
  pose proof (smoothed_frequency_pos values ((λ b : Bid, b !! i) <$> bids) (bid !! i) Hne).
  pose proof (smoothed_frequency_le_1 values ((λ b : Bid, b !! i) <$> bids) (bid !! i) Hne).
  lra.
Qed.

(** After the first well-formed bid every issue has a positive weight. *)
Lemma first_bid_weights (domain : Domain) (m0 : OpponentModel) (bid : Bid) :
  OpponentModel_init domain = Ok m0 → proper_value_sets domain →
  well_formed_bid domain bid →
  ∀ i e, issue_estimators (update m0 bid) !! i = Some e →
         ∃ w, get_weight e = Ok w ∧ 0 < w.
Proof.
  intros Hinit Hproper Hwf i e He.
  change (update m0 bid) with (foldl update m0 [bid]) in He.
  destruct (model_issues domain m0 [bid] i e Hinit He) as [values Hi].
  destruct (model_estimator domain m0 [bid] i values Hinit Hi) as (e0 & He0 & He').
  rewrite He in He'. injection He' as ->.
  destruct (Hproper i values Hi) as [Hne Hnd].
  destruct (Hwf i values Hi) as (w & Hw & Hin).
  eexists. split; [by apply (get_weight_observed values e0 [bid !! i])|].
  rewrite Hw. pose proof (normalized_entropy_first values w Hnd Hin). lra.
Qed.

Lemma model_issue_of_domain (domain : Domain) (m0 : OpponentModel) (bids : list Bid) :
  OpponentModel_init domain = Ok m0 → domain ≠ ∅ →
  ∃ i e, issue_estimators (foldl update m0 bids) !! i = Some e.
Proof.
  intros Hinit Hne. apply map_choose in Hne as (i & vs & Hi).
  pose proof Hinit as Hspec. apply OpponentModel_init_spec in Hspec as [_ Hk].
  specialize (Hk i). rewrite Hi in Hk. destruct Hk as (e0 & _ & He0).
  destruct (updates_spec m0 bids) as [_ Hu]. exists i. eexists.
  rewrite Hu, He0. reflexivity.
Qed.

(** The predicted utility of the first bid, right after the model has been
    updated with it, is positive. *)
Lemma first_prediction_pos (domain : Domain) (m0 : OpponentModel) (bid : Bid) :
  OpponentModel_init domain = Ok m0 → domain ≠ ∅ → proper_value_sets domain →
  well_formed_bid domain bid →
  ∃ u, get_predicted_utility (update m0 bid) (Some bid) = Ok u ∧ 0 < u <= 1.
Proof.
  intros Hinit Hne Hproper Hwf.
  destruct (get_predicted_utility_range (update m0 bid) bid) as (u & Hu & Hr & Hpos).
  { apply (reachable_estimates domain m0 [bid] bid Hinit Hproper).
    by constructor. }
  exists u. split; [done|]. split; [|lra]. apply Hpos.
  - cbn. by destruct (offers m0).
  - destruct (model_issue_of_domain domain m0 [bid] Hinit Hne) as (i & e & He).
    destruct (first_bid_weights domain m0 bid Hinit Hproper Hwf i e He) as (w & Hw & Hw0).
    by exists i, e, w.
Qed.
End bayesian_prediction.

(** ** The adaptive learner over a session *)

Section adaptive_learner.
Import AdaptiveLearner.
Local Open Scope R_scope.

Lemma discrete_domain_proper (domain : Domain) :
  discrete_domain domain → proper_value_sets domain.
Proof.
  intros Hd i values Hi. destruct (Hd i _ Hi) as (values' & [= <-] & Hne & Hnd).
  done.
Qed.

Lemma discrete_domain_init (domain : Domain) :
  discrete_domain domain → ∃ m0, OpponentModel_init domain = Ok m0.
Proof.
  intros Hd. apply OpponentModel_init_discrete. intros k vs Hk.
  destruct (Hd k vs Hk) as (values & -> & _). eauto.
Qed.

Lemma foldl_snoc {A B} (f : A → B → A) (a : A) (l : list B) (b : B) :
  foldl f a (l ++ [b]) = f (foldl f a l) b.
Proof. by rewrite foldl_app. Qed.

Lemma init_session_state (domain : Domain) (getUtility : Bid → Q) :
  session_state domain (init domain getUtility).
Proof. repeat split. by left. Qed.

(** One action of the opponent, on a domain of discrete issues. *)
Lemma opponent_action_session (domain : Domain) (self : Agent) (action : Action) :
  discrete_domain domain → well_formed_action domain action →
  session_state domain self →
  ∃ self', opponent_action self action = Ok self' ∧ session_state domain self'.
Proof.
  intros Hd Hwf (Hdom & Hres & Heps & Hst).
  destruct action as [bid|bid|]; [|by exists self..].
  cbn in Hwf. unfold opponent_action.
  destruct Hst as [(Hm & Hi & Hl)|(m0 & first & bids & u & last & Hm0 & Hbids & Hm & Hu & Hi & Hl)].
  - rewrite Hm, Hi, Hdom. destruct (discrete_domain_init domain Hd) as [m0 Hm0].
    rewrite Hm0, bind_Ok.
    destruct (get_predicted_utility_range (update m0 bid) bid) as (u & Hu & _).
    { apply (reachable_estimates domain m0 [bid] bid Hm0);
        [by apply discrete_domain_proper | by constructor]. }
    rewrite Hu, !bind_Ok. eexists. split; [reflexivity|].
    repeat split; [done..|]. right. exists m0, bid, [], u, bid.
    repeat split; [done | by constructor | done..].
  - rewrite Hm, Hi, !bind_Ok. eexists. split; [reflexivity|].
    repeat split; [done..|]. right. exists m0, first, (bids ++ [bid]), u, bid.
    repeat split; [done | | | done..].
    + rewrite app_comm_cons. apply Forall_app. split; [done | by constructor].
    + cbn [opponent_model]. by rewrite app_comm_cons, foldl_snoc.
Qed.

(** A session of well-formed actions runs without an exception. *)
Lemma run_session (domain : Domain) (actions : list Action) (self : Agent) :
  discrete_domain domain → Forall (well_formed_action domain) actions →
  session_state domain self →
  ∃ self', run self actions = Ok self' ∧ session_state domain self'.
Proof.
  intros Hd Hwf. revert self. induction Hwf as [|action actions Ha _ IH];
    intros self Hst; [by exists self|].
  destruct (opponent_action_session domain self action Hd Ha Hst) as (self1 & H1 & Hst1).
  destruct (IH self1 Hst1) as (self' & H' & Hst').
  exists self'. split; [|done]. cbn [run]. by rewrite H1.
Qed.

(** In a session state the initial opponent utility is positive and the
    model predicts a utility for every bid. *)
Lemma session_predictions (domain : Domain) (self : Agent) :
  domain ≠ ∅ → discrete_domain domain → session_state domain self →
  (∀ u, initial_opponent_utility self = Some u → 0 < u <= 1) ∧
  (∀ m bid, opponent_model self = Some m →
     ∃ p, get_predicted_utility m (Some bid) = Ok p ∧ 0 <= p <= 1) ∧
  (is_Some (initial_opponent_utility self) → is_Some (opponent_model self)).
Proof.
  intros Hne Hd (_ & _ & _ & Hst). pose proof (discrete_domain_proper _ Hd) as Hp.
  destruct Hst as [(Hm & Hi & Hl)|(m0 & first & bids & u & last & Hm0 & Hbids & Hm & Hu & Hi & Hl)].
  - rewrite Hm, Hi. repeat split; try done.
  - rewrite Hm, Hi. split; [|split].
    + intros u' [= <-].
      destruct (first_prediction_pos domain m0 first Hm0 Hne Hp) as (u' & Hu' & Hr).
      { by apply Forall_cons in Hbids as [? _]. }
      rewrite Hu in Hu'. by injection Hu' as <-.
    + intros m bid [= <-].
      destruct (get_predicted_utility_range (foldl update m0 (first :: bids)) bid)
        as (p & Hpred & Hr & _); [|eauto].
      by apply (reachable_estimates domain m0 (first :: bids) bid).
    + eauto.
Qed.

Lemma compute_acceptance_threshold_session (domain : Domain) (self : Agent) (t : R) :
  domain ≠ ∅ → discrete_domain domain → session_state domain self →
  compute_acceptance_threshold self t
  = Ok (Rmax (reservation_value self)
             (0.95 - (0.95 - 0.70) * t
              - 0.10 * Rmax 0 (Rmin (observed_concession self) 1))).
Proof.
  intros Hne Hd Hst.
  destruct (session_predictions domain self Hne Hd Hst) as (Hu & Hpred & Hsome).
  unfold compute_acceptance_threshold, observed_concession.
  destruct (initial_opponent_utility self) as [u|].
  - destruct (Hu u eq_refl) as [Hu0 _].
    destruct (last_received_bid self) as [bid|].
    + destruct (Hsome (mk_is_Some _ _ eq_refl)) as [m Hm]. rewrite Hm in *.
      destruct (Hpred m bid eq_refl) as (p & Hp & _).
      rewrite bind_Ok, !Hp, bind_Ok, float_div_Ok by lra. rewrite !bind_Ok.
      f_equal. rewrite Rmax_comm. f_equal.
      replace 0.0 with 0 by lra. replace 1.0 with 1 by lra. lra.
    + rewrite bind_Ok. f_equal. rewrite Rmax_comm. f_equal.
      rewrite Rmin_left, Rmax_left by lra. lra.
  - rewrite bind_Ok. f_equal. rewrite Rmax_comm. f_equal.
    rewrite Rmin_left, Rmax_left by lra. lra.
Qed.

Lemma score_bid_session (domain : Domain) (self : Agent) (bid : Bid) (t : R) :
  domain ≠ ∅ → discrete_domain domain → session_state domain self →
  ∃ score, score_bid self bid t = Ok score.
Proof.
  intros Hne Hd Hst.
  destruct (session_predictions domain self Hne Hd Hst) as (Hu & Hpred & Hsome).
  destruct Hst as (_ & _ & Heps & _).
  unfold score_bid. rewrite Heps, float_div_Ok by lra. rewrite bind_Ok.
  destruct (opponent_model self) as [m|]; [|eauto].
  destruct (Hpred m bid eq_refl) as (p & -> & _). rewrite bind_Ok.
  destruct (initial_opponent_utility self) as [u|].
  - destruct (Hu u eq_refl) as [Hu0 _]. rewrite float_div_Ok by lra.
    rewrite !bind_Ok. eauto.
  - rewrite bind_Ok. eauto.
Qed.
End adaptive_learner.

(** ** The scenario as a session of the adaptive learner *)

Section scenario_session.
Import AdaptiveLearner.
Local Open Scope R_scope.

Lemma scenario_domain_nonempty : Scenario.domain ≠ ∅.
Proof. apply insert_non_empty. Qed.

Lemma scenario_domain_discrete : discrete_domain Scenario.domain.
Proof.
  intros i vs. unfold Scenario.domain.
  rewrite lookup_insert_Some, lookup_singleton_Some.
  intros [[_ <-]|[_ [_ <-]]]; eexists; (split; [reflexivity|]); split; try done.
  - apply NoDup_ListNoDup. repeat constructor; cbn; intuition discriminate.
  - apply NoDup_ListNoDup. repeat constructor; cbn; intuition discriminate.
Qed.

Lemma scenario_offers_well_formed :
  Forall (well_formed_bid Scenario.domain) Scenario.offers.
Proof.
  assert (well_formed_bid Scenario.domain Scenario.low_x) as Hlow.
  { intros i values. unfold Scenario.domain.
    rewrite lookup_insert_Some, lookup_singleton_Some.
    intros [[<- [= <-]]|[_ [<- [= <-]]]]; eexists; (split; [reflexivity|]).
    - by left.
    - by left. }
  assert (well_formed_bid Scenario.domain Scenario.high_y) as Hhigh.
  { intros i values. unfold Scenario.domain.
    rewrite lookup_insert_Some, lookup_singleton_Some.
    intros [[<- [= <-]]|[_ [<- [= <-]]]]; eexists; (split; [reflexivity|]).
    - right. by left.
    - right. by left. }
  repeat constructor; done.
Qed.

Lemma scenario_actions_well_formed :
  Forall (well_formed_action Scenario.domain) (Offer <$> Scenario.offers).
Proof.
  apply Forall_fmap. eapply Forall_impl; [apply scenario_offers_well_formed|]. done.
Qed.
End scenario_session.

(** ** The acceptance threshold of the adaptive learner *)

Section acceptance_threshold.
Import AdaptiveLearner.
Local Open Scope R_scope.

(** C3: in a session of the adaptive learner, [compute_acceptance_threshold
    t] returns [max(reservation, initial − (initial − final)·t −
    0.10·clamp(concession, 0, 1))] with initial = 0.95, final = 0.70 and
    reservation = 0.65, where the concession is the relative drop of the
    predicted utility of the last offer against the first (none before any
    offer); the threshold is never below the reservation value, whatever
    [t] and the concession. *)
Theorem dynamic_threshold (domain : Domain) (getUtility : Bid → Q)
    (actions : list Action) (t : R) :
  domain ≠ ∅ → discrete_domain domain →
  Forall (well_formed_action domain) actions →
  ∃ self threshold,
    run (init domain getUtility) actions = Ok self ∧
    reservation_value self = 0.65 ∧
    compute_acceptance_threshold self t = Ok threshold ∧
    threshold = Rmax (reservation_value self)
                  (0.95 - (0.95 - 0.70) * t
                   - 0.10 * Rmax 0 (Rmin (observed_concession self) 1)) ∧
    reservation_value self <= threshold.
Proof.
  intros Hne Hd Hwf.
  destruct (run_session domain actions (init domain getUtility) Hd Hwf
              (init_session_state domain getUtility)) as (self & Hrun & Hst).
  exists self. eexists. split; [done|].
  split; [by destruct Hst as (_ & ? & _)|].
  split; [by apply (compute_acceptance_threshold_session domain)|].
  split; [done|]. apply Rmax_l.
Qed.

Lemma dynamic_threshold_witness :
  ∃ self threshold,
    run (init Scenario.domain (λ _, 7 # 10)%Q) (Offer <$> Scenario.offers) = Ok self ∧
    reservation_value self = 0.65 ∧
    compute_acceptance_threshold self 0.5 = Ok threshold ∧
    threshold = Rmax (reservation_value self)
                  (0.95 - (0.95 - 0.70) * 0.5
                   - 0.10 * Rmax 0 (Rmin (observed_concession self) 1)) ∧
    reservation_value self <= threshold.
Proof.
  apply dynamic_threshold.
  - apply scenario_domain_nonempty.
  - apply scenario_domain_discrete.
  - apply scenario_actions_well_formed.
Defined.

(** C10: once the adaptive learner has set [initial_opponent_utility], it is
    strictly positive: it is the Frequency-Bayesian prediction for the first
    observed bid right after the update with that bid.  Hence neither
    [compute_acceptance_threshold] nor [score_bid] divides by zero: both
    return a value in every state of a session. *)
Theorem initial_opponent_utility_positive (domain : Domain) (getUtility : Bid → Q)
    (actions : list Action) :
  domain ≠ ∅ → discrete_domain domain →
  Forall (well_formed_action domain) actions →
  ∃ self,
    run (init domain getUtility) actions = Ok self ∧
    (∀ u, initial_opponent_utility self = Some u → 0 < u) ∧
    (∀ t, ∃ threshold, compute_acceptance_threshold self t = Ok threshold) ∧
    (∀ bid t, ∃ score, score_bid self bid t = Ok score).
Proof.
  intros Hne Hd Hwf.
  destruct (run_session domain actions (init domain getUtility) Hd Hwf
              (init_session_state domain getUtility)) as (self & Hrun & Hst).
  exists self. split; [done|].
  destruct (session_predictions domain self Hne Hd Hst) as (Hu & _).
  split; [|split].
  - intros u Hsome. by destruct (Hu u Hsome).
  - intros t. eexists. by apply (compute_acceptance_threshold_session domain).
  - intros bid t. by apply (score_bid_session domain).
Qed.

Lemma initial_opponent_utility_positive_witness :
  ∃ self,
    run (init Scenario.domain (λ _, 7 # 10)%Q) (Offer <$> Scenario.offers) = Ok self ∧
    (∀ u, initial_opponent_utility self = Some u → 0 < u) ∧
    (∀ t, ∃ threshold, compute_acceptance_threshold self t = Ok threshold) ∧
    (∀ bid t, ∃ score, score_bid self bid t = Ok score).
Proof.
  apply initial_opponent_utility_positive.
  - apply scenario_domain_nonempty.
  - apply scenario_domain_discrete.
  - apply scenario_actions_well_formed.
Defined.
End acceptance_threshold.

(** ** The opponent-model contract *)

Section contract.
Local Open Scope R_scope.

Lemma frequency_bayesian_contract (domain : Domain) (m0 : AdaptiveLearner.OpponentModel)
    (bids : list Bid) :
  discrete_domain domain → Forall (well_formed_bid domain) bids →
  AdaptiveLearner.OpponentModel_init domain = Ok m0 →
  meets_contract FrequencyBayesian (foldl AdaptiveLearner.update m0 bids).
Proof.
  intros Hd Hwf Hinit bid. cbn [predictedUtility observed]. split.
  - intros [Hobs| ->]; [|done]. destruct bid as [bid|]; [|done].
    unfold AdaptiveLearner.get_predicted_utility. by rewrite Hobs.
  - destruct bid as [bid|]; [|exists 0; split; [done | lra]].
    destruct (get_predicted_utility_range (foldl AdaptiveLearner.update m0 bids) bid)
      as (u & Hu & Hr & _); [|eauto].
    apply (reachable_estimates domain m0 bids bid Hinit); [|done].
    by apply discrete_domain_proper.
Qed.

Lemma density_estimation_contract (m : StrategicConceder.OpponentModel) :
  meets_contract DensityEstimation m.
Proof.
  intros bid. cbn [predictedUtility observed].
  unfold StrategicConceder.get_predicted_utility.
  replace 0.0 with 0 by lra. replace 1.0 with 1 by lra. split.
  - intros [Hobs| ->]; [|done]. destruct bid as [bid|]; [|done].
    by destruct (decide (StrategicConceder.offers m = [])).
  - destruct bid as [bid|]; [|exists 0; split; [done | lra]].
    destruct (decide (StrategicConceder.offers m = [])); [exists 0; split; [done | lra]|].
    eexists. split; [reflexivity|]. split; [apply Rmax_l|].
    apply Rmax_lub; [lra | apply Rmin_l].
Qed.

(** C1 (as amended): the Density-Estimation model meets the contract of
    [predictedUtility]: 0.0 when no bid has been observed or the candidate
    bid is absent, and otherwise a value it clamps into [0,1].  The
    Frequency-Bayesian model, after well-formed bids of a domain of discrete
    issues, returns 0.0 in the same two cases and otherwise a number, without
    raising; it applies no clamp to the quotient it returns, and no range is
    stated for it.  The Rank-Distance model has no [predictedUtility]: it
    only exposes issue weights, and asking it for a prediction fails. *)
Theorem predicted_utility_contract (domain : Domain) (bids : list Bid) :
  discrete_domain domain → Forall (well_formed_bid domain) bids →
  (∃ m0, construct FrequencyBayesian domain = Ok m0 ∧
         observed FrequencyBayesian (foldl AdaptiveLearner.update m0 bids) = bids ∧
         answers FrequencyBayesian (foldl AdaptiveLearner.update m0 bids)) ∧
  (∀ m, meets_contract DensityEstimation m) ∧
  (∀ m bid, predictedUtility RankDistance m bid = Raise AttributeError).
Proof.
  intros Hd Hwf. split; [|split].
  - destruct (discrete_domain_init domain Hd) as [m0 Hm0]. exists m0.
    split; [done|]. split.
    + cbn [observed]. destruct (updates_spec m0 bids) as [-> _].
      by apply OpponentModel_init_spec in Hm0 as [-> _].
    + intros bid.
      destruct (frequency_bayesian_contract domain m0 bids Hd Hwf Hm0 bid)
        as (Hzero & u & Hu & _).
      split; [done|]. by exists u.
  - apply density_estimation_contract.
  - done.
Qed.

Lemma predicted_utility_contract_witness :
  (∃ m0, construct FrequencyBayesian Scenario.domain = Ok m0 ∧
         observed FrequencyBayesian (foldl AdaptiveLearner.update m0 Scenario.offers)
           = Scenario.offers ∧
         answers FrequencyBayesian
           (foldl AdaptiveLearner.update m0 Scenario.offers)) ∧
  (∀ m, meets_contract DensityEstimation m) ∧
  (∀ m bid, predictedUtility RankDistance m bid = Raise AttributeError).
Proof.
  apply predicted_utility_contract.
  - apply scenario_domain_discrete.
  - apply scenario_offers_well_formed.
Defined.

Lemma rank_distance_init_discrete (domain : Domain) :
  discrete_domain domain → ∃ m0, DeadlinePusher.OpponentModel_init domain = Ok m0.
Proof.
  intros Hd. unfold DeadlinePusher.OpponentModel_init.
  destruct (dict_comprehension_Ok
    (λ _ v, DeadlinePusher.IssueEstimator_init v) domain) as (d & -> & _).
  - intros k v Hk. destruct (Hd k v Hk) as (values & -> & _). cbn. eauto.
  - cbn. eauto.
Qed.

(** C1 as stated fails for the Rank-Distance variant: a freshly constructed
    model of the scenario's domain does not return 0.0 for an absent bid. *)
Lemma rank_distance_breaks_contract :
  ¬ (∀ (v : Variant) (m : model v),
       construct v Scenario.domain = Ok m → meets_contract v m).
Proof.
  intros Hall.
  destruct (rank_distance_init_discrete _ scenario_domain_discrete) as [m0 Hm0].
  destruct (Hall RankDistance m0 Hm0 None) as [H0 _].
  specialize (H0 (or_intror eq_refl)). discriminate H0.
Qed.
End contract.

(** ** Continuous issues *)

Section continuous_issues.
Local Open Scope R_scope.

Lemma density_estimation_init (domain : Domain) :
  ∃ m, StrategicConceder.OpponentModel_init domain = Ok m ∧
       StrategicConceder.offers m = [] ∧
       ∀ issue, is_Some (StrategicConceder.issue_info m !! issue)
                ↔ ∃ values, domain !! issue = Some (DiscreteValueSet values).
Proof.
  unfold StrategicConceder.OpponentModel_init.
  set (P := λ (acc : result (gmap string StrategicConceder.IssueInfo)) (m : Domain),
    size domain ≠ 0%nat ∨ m = ∅ →
    ∃ info : gmap string StrategicConceder.IssueInfo, acc = Ok info ∧
      ∀ issue, is_Some (info !! issue)
               ↔ ∃ values, m !! issue = Some (DiscreteValueSet values)).
  match goal with
  | |- context [map_fold ?f ?b domain] =>
      assert (P (map_fold f b domain) domain) as H
  end.
  { apply map_fold_weak_ind; unfold P.
    - intros _. exists ∅. split; [done|]. intros issue.
      rewrite !lookup_empty. split; [by intros [? ?] | by intros [? ?]].
    - intros i vs m r Hi IH Hsize.
      assert (size domain ≠ 0%nat) as HD.
      { destruct Hsize as [?|He]; [done|]. by apply insert_non_empty in He. }
      destruct (IH (or_introl HD)) as (info & -> & Hinfo). cbn.
      destruct vs as [values|low high step].
      + rewrite float_div_Ok by by apply not_0_INR. cbn.
        eexists. split; [reflexivity|]. intros issue.
        destruct (decide (i = issue)) as [<-|Hne].
        * rewrite !lookup_insert_eq. split; eauto.
        * rewrite !lookup_insert_ne by done. apply Hinfo.
      + exists info. split; [done|]. intros issue.
        destruct (decide (i = issue)) as [<-|Hne].
        * rewrite lookup_insert_eq.
          split; [intros Hs | by intros [? [=]]].
          apply Hinfo in Hs as [values Hv]. congruence.
        * rewrite lookup_insert_ne by done. apply Hinfo. }
  destruct H as (info & -> & Hinfo).
  - destruct (decide (domain = ∅)) as [->|Hne]; [by right|left].
    by rewrite map_size_empty_iff.
  - eexists. split; [reflexivity|]. done.
Qed.

Lemma estimator_init_only_TypeError (vs : ValueSet) (e : exn) :
  AdaptiveLearner.BayesianIssueEstimator_init vs = Raise e → e = TypeError.
Proof. destruct vs; [discriminate | by intros [= <-]]. Qed.

Lemma issue_estimator_init_only_TypeError (vs : ValueSet) (e : exn) :
  DeadlinePusher.IssueEstimator_init vs = Raise e → e = TypeError.
Proof. destruct vs; [discriminate | by intros [= <-]]. Qed.

(** C9 (as amended): the estimators of the Frequency-Bayesian and the
    Rank-Distance variants reject a continuous value set with a [TypeError]
    (the unsupported-issue-type error), and so does the construction of
    these models for a domain with a continuous issue.  The
    Density-Estimation model is constructed all the same: it skips the
    continuous issues and keeps no entry for them. *)
Theorem continuous_issue_rejected (domain : Domain) :
  has_continuous_issue domain →
  (∀ low high step,
     AdaptiveLearner.BayesianIssueEstimator_init (NumberValueSet low high step)
       = Raise TypeError ∧
     DeadlinePusher.IssueEstimator_init (NumberValueSet low high step)
       = Raise TypeError) ∧
  construct FrequencyBayesian domain = Raise TypeError ∧
  construct RankDistance domain = Raise TypeError ∧
  ∃ m, construct DensityEstimation domain = Ok m ∧
       ∀ issue low high step,
         domain !! issue = Some (NumberValueSet low high step) →
         StrategicConceder.issue_info m !! issue = None.
Proof.
  intros (issue & low & high & step & Hissue). split; [done|]. split; [|split].
  - cbn [construct]. unfold AdaptiveLearner.OpponentModel_init.
    rewrite (dict_comprehension_Raise _ domain TypeError); [done | |].
    + intros k v e _. apply estimator_init_only_TypeError.
    + by exists issue, (NumberValueSet low high step).
  - cbn [construct]. unfold DeadlinePusher.OpponentModel_init.
    rewrite (dict_comprehension_Raise _ domain TypeError); [done | |].
    + intros k v e _. apply issue_estimator_init_only_TypeError.
    + by exists issue, (NumberValueSet low high step).
  - destruct (density_estimation_init domain) as (m & Hm & _ & Hinfo).
    exists m. split; [done|]. intros i l h s Hi.
    apply eq_None_not_Some. intros Hs. apply Hinfo in Hs as [values Hv]. congruence.
Qed.

Lemma price_domain_continuous : has_continuous_issue price_domain.
Proof. exists "price", 0%Qc, 1%Qc, 1%Qc. apply lookup_singleton_eq. Qed.

Lemma continuous_issue_rejected_witness :
  (∀ low high step,
     AdaptiveLearner.BayesianIssueEstimator_init (NumberValueSet low high step)
       = Raise TypeError ∧
     DeadlinePusher.IssueEstimator_init (NumberValueSet low high step)
       = Raise TypeError) ∧
  construct FrequencyBayesian price_domain = Raise TypeError ∧
  construct RankDistance price_domain = Raise TypeError ∧
  ∃ m, construct DensityEstimation price_domain = Ok m ∧
       ∀ issue low high step,
         price_domain !! issue = Some (NumberValueSet low high step) →
         StrategicConceder.issue_info m !! issue = None.
Proof. apply continuous_issue_rejected, price_domain_continuous. Defined.

(** C9 as stated fails for the Density-Estimation variant: constructing it
    for a domain with a continuous issue raises nothing. *)
Lemma density_estimation_accepts_continuous :
  ¬ (has_continuous_issue price_domain →
     ∀ v : Variant, construct v price_domain = Raise TypeError).
Proof.
  intros Hall. specialize (Hall price_domain_continuous DensityEstimation).
  destruct (density_estimation_init price_domain) as (m & Hm & _).
  cbn [construct] in Hall. congruence.
Qed.
End continuous_issues.

(** ** The concession curve of the deadline pusher *)

Section alpha_curve.
Import DeadlinePusher.
Local Open Scope R_scope.

Lemma float_pow_0 (y : R) : float_pow 0 y = 0.
Proof. unfold float_pow. destruct (decide (0 < 0)); [lra | done]. Qed.

Lemma float_pow_1 (y : R) : float_pow 1 y = 1.
Proof.
  unfold float_pow. destruct (decide (0 < 1)); [|lra].
  unfold Rpower. by rewrite ln_1, Rmult_0_r, exp_0.
Qed.

Lemma float_pow_nonneg (x y : R) : 0 <= float_pow x y.
Proof.
  unfold float_pow. destruct (decide (0 < x)); [|lra].
  left. apply exp_pos.
Qed.

Lemma float_pow_monotone (x1 x2 y : R) :
  0 <= y → 0 <= x1 <= x2 → float_pow x1 y <= float_pow x2 y.
Proof.
  intros Hy [H1 H2]. unfold float_pow at 1.
  destruct (decide (0 < x1)) as [Hpos|_]; [|apply float_pow_nonneg].
  unfold float_pow. destruct (decide (0 < x2)); [|lra].
  by apply Rle_Rpower_l.
Qed.

Lemma compute_alpha_Ok (self : Agent) (t : R) :
  0 < beta self →
  compute_alpha self t
  = Ok (kappa self + (1 - kappa self) * float_pow t (1 / beta self)).
Proof. intros Hb. unfold compute_alpha. by rewrite float_div_Ok by lra. Qed.

Lemma exponent_pos (self : Agent) : 0 < beta self → 0 < 1 / beta self.
Proof. intros Hb. apply Rdiv_lt_0_compat; lra. Qed.

Lemma compute_alpha_range (self : Agent) (t : R) :
  0 <= kappa self <= 1 → 0 < beta self → 0 <= t <= 1 →
  ∃ alpha, compute_alpha self t = Ok alpha ∧ 0 <= alpha <= 1.
Proof.
  intros Hk Hb Ht. rewrite compute_alpha_Ok by done. eexists. split; [done|].
  pose proof (exponent_pos self Hb) as Hy.
  pose proof (float_pow_nonneg t (1 / beta self)).
  pose proof (float_pow_monotone t 1 (1 / beta self)) as Hm.
  rewrite float_pow_1 in Hm. specialize (Hm ltac:(lra) ltac:(lra)). nra.
Qed.

(** C6: the concession curve [α(t) = κ + (1−κ)·t^(1/β)] of the deadline
    pusher satisfies [α(0) = κ] and [α(1) = 1], and it is non-decreasing in
    [t] (on [0,1], and beyond), for the agent's κ = 0.1 and β = 0.2 and for
    every κ ≤ 1 and β > 0. *)
Theorem concession_curve (self : Agent) (t1 t2 : R) :
  kappa self <= 1 → 0 < beta self → 0 <= t1 <= t2 →
  compute_alpha self 0 = Ok (kappa self) ∧
  compute_alpha self 1 = Ok 1 ∧
  ∃ alpha1 alpha2,
    compute_alpha self t1 = Ok alpha1 ∧ compute_alpha self t2 = Ok alpha2 ∧
    alpha1 <= alpha2.
Proof.
  intros Hk Hb Ht. rewrite !compute_alpha_Ok by done.
  rewrite float_pow_0, float_pow_1. split; [f_equal; lra|]. split; [f_equal; lra|].
  eexists _, _. split; [reflexivity|]. split; [reflexivity|].
  pose proof (exponent_pos self Hb) as Hy.
  pose proof (float_pow_monotone t1 t2 (1 / beta self) ltac:(lra) Ht). nra.
Qed.

Lemma concession_curve_witness :
  compute_alpha init 0 = Ok 0.1 ∧
  compute_alpha init 1 = Ok 1 ∧
  ∃ alpha1 alpha2,
    compute_alpha init 0.25 = Ok alpha1 ∧ compute_alpha init 0.5 = Ok alpha2 ∧
    alpha1 <= alpha2.
Proof. apply (concession_curve init 0.25 0.5); cbn; lra. Defined.
End alpha_curve.

(** ** The ranking of the values of a discrete issue *)

Section ranking.
Import DeadlinePusher.
Local Open Scope R_scope.

Lemma insert_desc_perm (x : Value * Q) (l : list (Value * Q)) :
  insert_desc x l ≡ₚ x :: l.
Proof.
  induction l as [|y l IH]; [done|]. cbn [insert_desc].
  destruct (Qlt_le_dec x.2 y.2); [|done].
  rewrite IH. apply Permutation_swap.
Qed.

Lemma sort_desc_perm (l : list (Value * Q)) : sort_desc l ≡ₚ l.
Proof.
  induction l as [|x l IH]; [done|]. unfold sort_desc in *. cbn [foldr].
  by rewrite insert_desc_perm, IH.
Qed.

Lemma sort_desc_length (l : list (Value * Q)) : length (sort_desc l) = length l.
Proof. apply Permutation_length, sort_desc_perm. Qed.

Lemma insert_desc_sorted (x : Value * Q) (l : list (Value * Q)) :
  Sorted ranked l → Sorted ranked (insert_desc x l).
Proof.
  induction 1 as [|y l Hs IH Hhd]; [by repeat constructor|].
  cbn [insert_desc]. destruct (Qlt_le_dec x.2 y.2) as [Hlt|Hle].
  - constructor; [done|]. destruct Hhd as [|z l Hz]; cbn [insert_desc].
    + constructor. unfold ranked. by apply Qlt_le_weak.
    + destruct (Qlt_le_dec x.2 z.2); constructor; [done|].
      unfold ranked. by apply Qlt_le_weak.
  - constructor; [by constructor|]. by constructor.
Qed.

Lemma sort_desc_sorted (l : list (Value * Q)) : Sorted ranked (sort_desc l).
Proof.
  induction l as [|x l IH]; [constructor|]. unfold sort_desc in *. cbn [foldr].
  by apply insert_desc_sorted.
Qed.

Lemma py_int_nonneg (x : R) : 0 <= x → py_int x = Zfloor x.
Proof. intros Hx. unfold py_int. by destruct (decide (0 <= x)). Qed.

Lemma subscript_Ok {A} (l : list A) (i : Z) :
  (0 <= i < Z.of_nat (length l))%Z →
  ∃ x, l !! Z.to_nat i = Some x ∧ subscript l i = Ok x.
Proof.
  intros Hi. unfold subscript. destruct (decide (i < 0)%Z); [lia|].
  destruct (decide (0 <= i < Z.of_nat (length l))%Z); [|lia].
  destruct (lookup_lt_is_Some_2 l (Z.to_nat i)) as [x Hx]; [lia|].
  exists x. by rewrite Hx.
Qed.

(** C7 (as amended): for a discrete issue with the utilities [utilities],
    the value entered in the time-dependent bid is the one at index
    [int(α(t)·(count−1))], the product truncated, not rounded, in the list
    of the issue's values ranked by own utility descending, where [count] is
    the number of values; the index lies within the ranking. *)
Theorem time_bid_value_ranked (self : Agent) (t : R) (utilities : list (Value * Q)) :
  0 <= kappa self <= 1 → 0 < beta self → 0 <= t <= 1 → utilities ≠ [] →
  ∃ alpha item,
    compute_alpha self t = Ok alpha ∧
    sort_desc utilities ≡ₚ utilities ∧
    Sorted ranked (sort_desc utilities) ∧
    (0 <= Zfloor (alpha * IZR (Z.of_nat (length utilities) - 1))
       <= Z.of_nat (length utilities) - 1)%Z ∧
    sort_desc utilities
      !! Z.to_nat (Zfloor (alpha * IZR (Z.of_nat (length utilities) - 1)))
      = Some item ∧
    time_bid_value self t utilities = Ok item.1.
Proof.
  intros Hk Hb Ht Hne.
  destruct (compute_alpha_range self t Hk Hb Ht) as (alpha & Halpha & Ha).
  assert (1 <= length utilities)%nat as Hlen by (destruct utilities; [done | cbn; lia]).
  set (c := (Z.of_nat (length utilities) - 1)%Z).
  assert (0 <= IZR c) as Hc by (apply IZR_le; lia).
  assert (0 <= alpha * IZR c <= IZR c) as Hprod by nra.
  assert (0 <= Zfloor (alpha * IZR c) <= c)%Z as Hind.
  { split.
    - apply Zfloor_lub. lra.
    - pose proof (Zfloor_le _ _ (proj2 Hprod)) as Hle. by rewrite ZfloorZ in Hle. }
  destruct (subscript_Ok (sort_desc utilities) (Zfloor (alpha * IZR c)))
    as (item & Hitem & Hsub); [rewrite sort_desc_length; lia|].
  exists alpha, item. split; [done|]. split; [apply sort_desc_perm|].
  split; [apply sort_desc_sorted|]. split; [done|]. split; [done|].
  unfold time_bid_value. rewrite Halpha, bind_Ok, sort_desc_length.
  fold c. rewrite py_int_nonneg by lra. by rewrite Hsub.
Qed.

Lemma time_bid_value_ranked_witness :
  ∃ alpha item,
    compute_alpha init 0.5 = Ok alpha ∧
    sort_desc seven_values ≡ₚ seven_values ∧
    Sorted ranked (sort_desc seven_values) ∧
    (0 <= Zfloor (alpha * IZR (Z.of_nat (length seven_values) - 1))
       <= Z.of_nat (length seven_values) - 1)%Z ∧
    sort_desc seven_values
      !! Z.to_nat (Zfloor (alpha * IZR (Z.of_nat (length seven_values) - 1)))
      = Some item ∧
    time_bid_value init 0.5 seven_values = Ok item.1.
Proof. apply time_bid_value_ranked; cbn; (lra || done). Defined.

Lemma seven_values_ranked :
  sort_desc seven_values
  = [(DiscreteValue "a", 1); (DiscreteValue "b", 0.8); (DiscreteValue "c", 0.5);
     (DiscreteValue "d", 0.4); (DiscreteValue "e", 0.3); (DiscreteValue "f", 0.2);
     (DiscreteValue "g", 0.1)]%Q.
Proof. reflexivity. Qed.

(** C7 as stated fails: at [t = 0] and for seven values, [α(t)·(count−1)] is
    0.6; the code takes the value at index 0 of the ranking, and rounding
    gives index 1. *)
Lemma truncated_not_rounded :
  time_bid_value init 0 seven_values = Ok (DiscreteValue "a") ∧
  ranked_value_rounded init 0 seven_values = Ok (DiscreteValue "b") ∧
  time_bid_value init 0 seven_values ≠ ranked_value_rounded init 0 seven_values.
Proof.
  assert (compute_alpha init 0 = Ok 0.1) as Halpha.
  { rewrite compute_alpha_Ok by (cbn; lra). rewrite float_pow_0. cbn. f_equal. lra. }
  assert (time_bid_value init 0 seven_values = Ok (DiscreteValue "a")) as Hcode.
  { unfold time_bid_value. rewrite Halpha, bind_Ok, seven_values_ranked.
    cbn [length]. change (Z.of_nat 7 - 1)%Z with 6%Z.
    rewrite py_int_nonneg by lra. rewrite (Zfloor_eq 0) by lra. reflexivity. }
  assert (ranked_value_rounded init 0 seven_values = Ok (DiscreteValue "b")) as Hspec.
  { unfold ranked_value_rounded, rounded_index, py_round.
    rewrite Halpha, bind_Ok, seven_values_ranked.
    change (Z.of_nat (length seven_values) - 1)%Z with 6%Z.
    rewrite (Zfloor_eq 0) by lra.
    destruct (decide (0.1 * 6 - 0 < 1 / 2)) as [Hlt|_]; [lra|].
    destruct (decide (1 / 2 < 0.1 * 6 - 0)) as [_|Hge]; [|lra].
    reflexivity. }
  split; [done|]. split; [done|]. rewrite Hcode, Hspec. discriminate.
Qed.
End ranking.

(** ** The target utility of the strategic conceder *)

Section target_tracker.
Import StrategicConceder.
Local Open Scope R_scope.

Lemma turns_S (self : Agent) (k : nat) :
  turns self (S k) = _update_target_utility (turns self k).
Proof. reflexivity. Qed.

Lemma turns_reservation (self : Agent) (k : nat) :
  reservation_value (turns self k) = reservation_value self.
Proof. induction k as [|k IH]; [done|]. by rewrite turns_S. Qed.

Lemma turns_target_S (self : Agent) (k : nat) :
  target_utility (turns self (S k))
  = Rmax (reservation_value self) (target_utility (turns self k) - 0.0005).
Proof. rewrite turns_S. cbn. by rewrite turns_reservation. Qed.

Lemma turns_floor (self : Agent) (k : nat) :
  reservation_value self <= target_utility self →
  reservation_value self <= target_utility (turns self k).
Proof.
  intros H0. destruct k as [|k]; [done|]. rewrite turns_target_S. apply Rmax_l.
Qed.

(** As long as the floor is not reached, [k] turns take [k] decrements. *)
Lemma turns_above_floor (self : Agent) (k : nat) :
  reservation_value self <= target_utility self - INR k * 0.0005 →
  target_utility (turns self k) = target_utility self - INR k * 0.0005.
Proof.
  induction k as [|k IH]; intros Hk.
  - cbn. lra.
  - rewrite S_INR in Hk. rewrite turns_target_S, IH by lra.
    rewrite S_INR, Rmax_right by lra. lra.
Qed.

(** C4: each turn [_update_target_utility] lowers the target utility by
    0.0005 and floors it at the reservation value.  So the target
    utilities of successive turns never increase, never fall below the
    reservation value, and strictly decrease while they are above it; with
    the reservation value 0.3 and the initial target 1.0 they strictly
    decrease over 100 turns and stay at or above 0.3. *)
Theorem target_utility_sequence (self : Agent) (k : nat) :
  reservation_value self <= target_utility self →
  target_utility (_update_target_utility self)
    = Rmax (reservation_value self) (target_utility self - 0.0005) ∧
  target_utility (turns self (S k)) <= target_utility (turns self k) ∧
  reservation_value self <= target_utility (turns self k) ∧
  (reservation_value self < target_utility (turns self k) →
   target_utility (turns self (S k)) < target_utility (turns self k)) ∧
  (reservation_value self = 0.3 → target_utility self = 1.0 → (k < 100)%nat →
   target_utility (turns self (S k)) < target_utility (turns self k) ∧
   0.3 <= target_utility (turns self (S k))).
Proof.
  intros H0. pose proof (turns_floor self k H0) as Hk.
  split; [done|]. rewrite turns_target_S.
  split; [apply Rmax_lub; lra|]. split; [done|].
  split; [intros Hlt; apply Rmax_lub_lt; lra|].
  intros Hres Htarget Hlt. apply lt_INR in Hlt.
  assert (INR 100 = 100) as H100 by by rewrite INR_IZR_INZ.
  rewrite H100 in Hlt.
  pose proof (pos_INR k).
  rewrite turns_above_floor by lra. split; [|rewrite <- Hres; apply Rmax_l].
  apply Rmax_lub_lt; lra.
Qed.

Lemma target_utility_sequence_witness :
  target_utility (turns Conceder.reserved_at_0_3 100)
    < target_utility (turns Conceder.reserved_at_0_3 99) ∧
  0.3 <= target_utility (turns Conceder.reserved_at_0_3 100).
Proof.
  assert (reservation_value Conceder.reserved_at_0_3 = 0.3) as Hres
    by (cbn; unfold Q2R; cbn; lra).
  assert (target_utility Conceder.reserved_at_0_3 = 1.0) as Htarget by reflexivity.
  apply (target_utility_sequence Conceder.reserved_at_0_3 99); [| done | done | lia].
  rewrite Hres, Htarget. lra.
Defined.
End target_tracker.

(** ** The acceptance condition of the strategic conceder *)

Section next_offer_comparison.
Import StrategicConceder.
Local Open Scope R_scope.

Lemma accept_condition_Some (self : Agent) (bid next : Bid) :
  accept_condition self (Some bid) next = true
  ↔ reservation_value self <= Q2R (profile self bid) ∧
    (profile self next <= profile self bid)%Q.
Proof.
  unfold accept_condition.
  rewrite andb_true_iff, bool_decide_eq_true, Qle_bool_iff. done.
Qed.

(** C8: [accept_condition] returns [True] exactly when an offer has been
    received, its own utility is at least the reservation value, and it is
    at least the own utility of the bid the agent would propose next; it
    returns [False] when the received bid is [None].  A received utility
    0.7 with the next-offer utility 0.65 and the reservation value 0.5 is
    accepted; a received utility 0.4 with the reservation value 0.5 is
    rejected, whatever the next offer. *)
Theorem next_offer_acceptance (self : Agent) (received_bid : option Bid) (next_bid_to_offer : Bid) :
  (accept_condition self received_bid next_bid_to_offer = true
   ↔ ∃ bid, received_bid = Some bid ∧
            reservation_value self <= Q2R (profile self bid) ∧
            (profile self next_bid_to_offer <= profile self bid)%Q) ∧
  accept_condition self None next_bid_to_offer = false ∧
  (∀ bid, reservation_value self = 0.5 → (profile self bid == 0.7)%Q →
          (profile self next_bid_to_offer == 0.65)%Q →
          accept_condition self (Some bid) next_bid_to_offer = true) ∧
  (∀ bid, reservation_value self = 0.5 → (profile self bid == 0.4)%Q →
          accept_condition self (Some bid) next_bid_to_offer = false).
Proof.
  split; [|split; [done|split]].
  - destruct received_bid as [bid|].
    + rewrite accept_condition_Some. split; [eauto|].
      by intros (bid' & [= <-] & ?).
    + split; [done | by intros (? & [=] & _)].
  - intros bid Hres Hbid Hnext. apply accept_condition_Some.
    rewrite Hres, (Qeq_eqR _ _ Hbid), Hbid, Hnext. split; [|done].
    unfold Q2R. cbn. lra.
  - intros bid Hres Hbid. apply not_true_is_false.
    rewrite accept_condition_Some, Hres, (Qeq_eqR _ _ Hbid).
    intros [Hle _]. unfold Q2R in Hle. cbn in Hle. lra.
Qed.

Lemma next_offer_acceptance_witness :
  accept_condition Conceder.reserved_at_0_5 (Some Scenario.low_x) Conceder.other = true ∧
  accept_condition Conceder.reserved_at_0_5 (Some Scenario.high_y) Conceder.other = false.
Proof.
  assert (reservation_value Conceder.reserved_at_0_5 = 0.5) as Hres.
  { cbn [reservation_value Conceder.reserved_at_0_5 init].
    replace (Conceder.getUtility Conceder.reservation_bid) with 0.5%Q by reflexivity.
    unfold Q2R. cbn. lra. }
  destruct (next_offer_acceptance Conceder.reserved_at_0_5 None Conceder.other) as (_ & _ & Hyes & Hno).
  split.
  - apply Hyes; [done | reflexivity | reflexivity].
  - apply Hno; [done | reflexivity].
Defined.
End next_offer_comparison.

(** ** More on the Frequency-Bayesian estimator *)

Section bayesian_estimator_more.
Import AdaptiveLearner.
Local Open Scope R_scope.

Lemma occurrences_snoc (v o : option Value) (obs : list (option Value)) :
  occurrences v (obs ++ [o])
  = (occurrences v obs + (if decide (o = v) then 1 else 0))%nat.
Proof.
  unfold occurrences. rewrite filter_app, length_app, filter_cons.
  destruct (decide (o = v)); cbn; lia.
Qed.

Lemma smoothed_frequency_range (values : list Value) (obs : list (option Value))
    (v : option Value) :
  values ≠ [] → 0 < smoothed_frequency values obs v <= 1.
Proof.
  intros Hne. split; [by apply smoothed_frequency_pos | by apply smoothed_frequency_le_1].
Qed.

(** X1: the value utilities of the values of an issue add up to 1 after
    any updates each of which carried a value of the issue (an absent value or
    a value of another issue is excluded: it is counted in the total and in no
    value of the issue). *)
Theorem value_utilities_sum_to_one (values : list Value)
    (e0 : BayesianIssueEstimator) (obs : list (option Value)) :
  values ≠ [] → NoDup values → observations_in values obs →
  BayesianIssueEstimator_init (DiscreteValueSet values) = Ok e0 →
  ∃ utilities,
    mapM (λ v, get_value_utility (foldl estimator_update e0 obs) (Some v)) values
      = Ok utilities ∧
    Rsum utilities = 1.
Proof.
  intros Hne Hnd Hobs He0.
  exists ((λ v, smoothed_frequency values obs (Some v)) <$> values). split.
  - apply mapM_Ok. intros v _. by apply get_value_utility_observed.
  - by apply smoothed_distribution.
Qed.

Lemma value_utilities_sum_to_one_witness :
  ∃ e0 utilities,
    mapM (λ v, get_value_utility (foldl estimator_update e0 Scenario.observed_B) (Some v))
         [Scenario.x; Scenario.y; Scenario.z] = Ok utilities ∧
    Rsum utilities = 1.
Proof.
  eexists. apply value_utilities_sum_to_one; [done | | | reflexivity].
  - apply NoDup_ListNoDup. repeat constructor; cbn; intuition discriminate.
  - repeat constructor; eexists; (split; [reflexivity|]); set_solver.
Defined.

(** X2: updating an estimator of an issue with at least two values with the value
    [v] strictly raises the utility of [v] and strictly lowers the utility of
    every other value. *)
Theorem update_shifts_utility (values : list Value) (e0 : BayesianIssueEstimator)
    (obs : list (option Value)) (v w : option Value) :
  (2 <= length values)%nat → v ≠ w →
  BayesianIssueEstimator_init (DiscreteValueSet values) = Ok e0 →
  let e := foldl estimator_update e0 obs in
  ∃ v_before v_after w_before w_after,
    get_value_utility e v = Ok v_before ∧
    get_value_utility (estimator_update e v) v = Ok v_after ∧
    get_value_utility e w = Ok w_before ∧
    get_value_utility (estimator_update e v) w = Ok w_after ∧
    v_before < v_after ∧ w_after < w_before.
Proof.
  intros Hlen Hvw He0 e.
  assert (values ≠ []) as Hne by (intros ->; cbn in Hlen; lia).
  assert (estimator_update e v = foldl estimator_update e0 (obs ++ [v])) as ->
    by by rewrite foldl_snoc.
  unfold e. eexists _, _, _, _.
  split; [by apply get_value_utility_observed|].
  split; [by apply get_value_utility_observed|].
  split; [by apply get_value_utility_observed|].
  split; [by apply get_value_utility_observed|].
  unfold smoothed_frequency. rewrite !occurrences_snoc, length_app.
  destruct (decide (v = v)) as [_|]; [|done].
  destruct (decide (v = w)) as [|_]; [done|].
  cbn [length]. rewrite !plus_INR. cbn [INR].
  pose proof (pos_INR (length obs)) as Ho.
  pose proof (le_INR _ _ (occurrences_le v obs)) as Hv.
  pose proof (pos_INR (occurrences v obs)).
  pose proof (pos_INR (occurrences w obs)).
  apply le_INR in Hlen. change (INR 2) with 2 in Hlen.
  set (c := INR (occurrences v obs)) in *. set (d := INR (occurrences w obs)) in *.
  set (T := INR (length obs)) in *. set (N := INR (length values)) in *.
  assert (0 < / (T + N)) by (apply Rinv_0_lt_compat; lra).
  assert (0 < / (T + 1 + N)) by (apply Rinv_0_lt_compat; lra).
  split.
  - apply (Rmult_lt_reg_r ((T + N) * (T + 1 + N))); [nra|].
    unfold Rdiv. field_simplify; [|lra..]. nra.
  - apply (Rmult_lt_reg_r ((T + N) * (T + 1 + N))); [nra|].
    unfold Rdiv. field_simplify; [|lra..]. nra.
Qed.

Lemma update_shifts_utility_witness :
  ∃ e0 v_before v_after w_before w_after,
    let e := foldl estimator_update e0 Scenario.observed_A in
    get_value_utility e (Some Scenario.low) = Ok v_before ∧
    get_value_utility (estimator_update e (Some Scenario.low)) (Some Scenario.low)
      = Ok v_after ∧
    get_value_utility e (Some Scenario.high) = Ok w_before ∧
    get_value_utility (estimator_update e (Some Scenario.low)) (Some Scenario.high)
      = Ok w_after ∧
    v_before < v_after ∧ w_after < w_before.
Proof.
  eexists.
  apply (update_shifts_utility [Scenario.low; Scenario.high]); [cbn; lia | done | reflexivity].
Defined.

Lemma shannon_entropy_nonneg (ps : list R) :
  Forall (λ p, 0 < p <= 1) ps → 0 <= shannon_entropy ps.
Proof.
  induction 1 as [|p ps [Hp Hp1] _ IH].
  - unfold shannon_entropy. cbn. lra.
  - rewrite shannon_entropy_cons. pose proof (ln_le_minus_1 p Hp). nra.
Qed.

(** X3: [get_weight] raises nothing and returns at most 1, whatever the
    estimator of an issue with at least one value has been updated with,
    absent values and values of other issues included: no probability exceeds
    1, so no term of the entropy is negative. *)
Theorem weight_at_most_one (values : list Value) (e0 : BayesianIssueEstimator)
    (obs : list (option Value)) :
  values ≠ [] →
  BayesianIssueEstimator_init (DiscreteValueSet values) = Ok e0 →
  ∃ weight, get_weight (foldl estimator_update e0 obs) = Ok weight ∧ weight <= 1.
Proof.
  intros Hne He0. eexists. split; [by apply get_weight_observed|].
  enough (0 <= normalized_entropy values obs) by lra.
  unfold normalized_entropy. destruct (decide (length values = 1%nat)); [lra|].
  pose proof (ln_length_pos values Hne ltac:(done)).
  apply Rmult_le_pos; [|left; by apply Rinv_0_lt_compat].
  apply shannon_entropy_nonneg, Forall_fmap, Forall_forall. intros v _.
  by apply smoothed_frequency_range.
Qed.

Lemma weight_at_most_one_witness :
  ∃ e0 weight,
    get_weight (foldl estimator_update e0 (None :: Scenario.observed_B)) = Ok weight ∧
    weight <= 1.
Proof.
  eexists. apply (weight_at_most_one [Scenario.x; Scenario.y; Scenario.z]);
    [done | reflexivity].
Defined.

Lemma Rsum_constant {A} (c : R) (l : list A) :
  Rsum ((λ _, c) <$> l) = INR (length l) * c.
Proof.
  induction l as [|x l IH]; [cbn; lra|].
  rewrite fmap_cons, Rsum_cons, IH, length_cons, S_INR. lra.
Qed.

(** X4: an issue with a single value always has the weight 1, whatever its
    estimator has been updated with: the largest entropy [log(1)] is 0, so
    the entropy is not divided and counts as 0. *)
Theorem single_value_weight (value : Value) (e0 : BayesianIssueEstimator)
    (obs : list (option Value)) :
  BayesianIssueEstimator_init (DiscreteValueSet [value]) = Ok e0 →
  get_weight (foldl estimator_update e0 obs) = Ok 1.
Proof.
  intros He0. rewrite (get_weight_observed [value] e0 obs); [|done..].
  unfold normalized_entropy. cbn [length]. rewrite decide_True by done.
  f_equal. lra.
Qed.

Lemma single_value_weight_witness :
  ∃ e0, get_weight (foldl estimator_update e0 [Some Scenario.x; None; Some Scenario.y])
        = Ok 1.
Proof. eexists. by apply (single_value_weight Scenario.x). Defined.

End bayesian_estimator_more.


(** ** More on the Frequency-Bayesian model and the adaptive learner *)

Section adaptive_learner_more.
Import AdaptiveLearner.
Local Open Scope R_scope.

(** X5: the model keeps the observed bids in order, one estimator per issue of
    the domain, and every estimator has counted as many observations as there
    are observed bids. *)
Theorem model_bookkeeping (domain : Domain) (m0 : OpponentModel) (bids : list Bid) :
  OpponentModel_init domain = Ok m0 →
  offers (foldl update m0 bids) = bids ∧
  dom (issue_estimators (foldl update m0 bids)) = dom domain ∧
  ∀ issue e, issue_estimators (foldl update m0 bids) !! issue = Some e →
             total_count e = length bids ∧
             ∀ v, default 0%nat (value_counts e !! v)
                  = occurrences v ((λ b : Bid, b !! issue) <$> bids).
Proof.
  intros Hinit. destruct (updates_spec m0 bids) as [Ho Hu].
  pose proof (OpponentModel_init_spec domain m0 Hinit) as [Hoff Hk].
  split; [by rewrite Ho, Hoff|]. split.
  - apply set_eq. intros i. rewrite !elem_of_dom, Hu. specialize (Hk i).
    destruct (domain !! i) as [vs|].
    + destruct Hk as (e0 & _ & ->). cbn. split; eauto.
    + rewrite Hk. cbn. done.
  - intros i e He.
    destruct (model_issues domain m0 bids i e Hinit He) as [values Hi].
    destruct (model_estimator domain m0 bids i values Hinit Hi) as (e0 & He0 & He').
    rewrite He in He'. injection He' as ->.
    destruct (estimator_observed values e0 ((λ b : Bid, b !! i) <$> bids) He0)
      as (_ & _ & Ht & Hc).
    split; [by rewrite Ht, length_fmap | done].
Qed.

Lemma model_bookkeeping_witness :
  ∃ m0,
    offers (foldl update m0 Scenario.offers) = Scenario.offers ∧
    dom (issue_estimators (foldl update m0 Scenario.offers)) = dom Scenario.domain ∧
    ∀ issue e, issue_estimators (foldl update m0 Scenario.offers) !! issue = Some e →
               total_count e = length Scenario.offers ∧
               ∀ v, default 0%nat (value_counts e !! v)
                    = occurrences v ((λ b : Bid, b !! issue) <$> Scenario.offers).
Proof.
  destruct scenario_model as (m0 & Hm0 & _). exists m0.
  by apply (model_bookkeeping Scenario.domain).
Defined.

Lemma opponent_action_parameters (self self' : Agent) (action : Action) :
  opponent_action self action = Ok self' →
  initial_alpha self' = initial_alpha self ∧ final_alpha self' = final_alpha self ∧
  profile self' = profile self.
Proof.
  destruct action as [bid|bid|]; cbn; [|by intros [= <-]..].
  intros H. apply bind_Ok_inv in H as (m & _ & H).
  apply bind_Ok_inv in H as (u & _ & [= <-]). done.
Qed.

Lemma run_parameters (self self' : Agent) (actions : list Action) :
  run self actions = Ok self' →
  initial_alpha self' = initial_alpha self ∧ final_alpha self' = final_alpha self ∧
  profile self' = profile self.
Proof.
  revert self. induction actions as [|a actions IH]; intros self; cbn [run].
  - by intros [= <-].
  - intros H. apply bind_Ok_inv in H as (self1 & H1 & H).
    destruct (IH _ H) as (-> & -> & ->). by apply (opponent_action_parameters _ _ a).
Qed.

(** The states of a session, with the parameters [__init__] has set. *)
Lemma session_of_run (domain : Domain) (getUtility : Bid → Q) (actions : list Action) :
  discrete_domain domain → Forall (well_formed_action domain) actions →
  ∃ self, run (init domain getUtility) actions = Ok self ∧
          session_state domain self ∧
          initial_alpha self = 1 ∧ final_alpha self = 0.5 ∧ profile self = getUtility.
Proof.
  intros Hd Hwf.
  destruct (run_session domain actions (init domain getUtility) Hd Hwf
              (init_session_state domain getUtility)) as (self & Hrun & Hst).
  exists self. split; [done|]. split; [done|].
  destruct (run_parameters _ _ _ Hrun) as (-> & -> & ->). cbn. repeat split; lra.
Qed.

Lemma clamp_range (x : R) : 0 <= Rmax 0 (Rmin x 1) <= 1.
Proof. split; [apply Rmax_l|]. apply Rmax_lub; [lra | apply Rmin_r]. Qed.

Lemma threshold_range (reservation t c : R) :
  0 <= t → 0 <= c → reservation <= 0.95 →
  reservation <= Rmax reservation (0.95 - (0.95 - 0.70) * t - 0.10 * c) <= 0.95.
Proof. intros Ht Hc Hr. split; [apply Rmax_l|]. apply Rmax_lub; nra. Qed.

(** X6: in a session the adaptive learner accepts no absent bid, accepts no bid
    whose own utility is below the reservation value 0.65, and accepts every
    bid whose own utility is at least 0.95, whatever the progress [t >= 0]. *)
Theorem accept_condition_bounds (domain : Domain) (getUtility : Bid → Q)
    (actions : list Action) (bid : Bid) (t : R) :
  domain ≠ ∅ → discrete_domain domain →
  Forall (well_formed_action domain) actions → 0 <= t →
  ∃ self accepted,
    run (init domain getUtility) actions = Ok self ∧
    accept_condition self None t = Ok false ∧
    accept_condition self (Some bid) t = Ok accepted ∧
    (Q2R (getUtility bid) < 0.65 → accepted = false) ∧
    (0.95 <= Q2R (getUtility bid) → accepted = true).
Proof.
  intros Hne Hd Hwf Ht.
  destruct (session_of_run domain getUtility actions Hd Hwf)
    as (self & Hrun & Hst & _ & _ & Hprofile).
  exists self. eexists. split; [done|]. split; [done|].
  unfold accept_condition.
  rewrite (compute_acceptance_threshold_session domain self t Hne Hd Hst), bind_Ok.
  split; [reflexivity|]. rewrite Hprofile.
  destruct Hst as (_ & Hres & _). rewrite Hres.
  pose proof (clamp_range (observed_concession self)) as [Hc _].
  pose proof (threshold_range 0.65 t _ Ht Hc ltac:(lra)) as [Hlo Hhi].
  split; intros Hu.
  - apply bool_decide_eq_false. lra.
  - apply bool_decide_eq_true. lra.
Qed.

Lemma accept_condition_bounds_witness :
  ∃ self accepted,
    run (init Scenario.domain (λ _, 7 # 10)%Q) (Offer <$> Scenario.offers) = Ok self ∧
    accept_condition self None 0.5 = Ok false ∧
    accept_condition self (Some Scenario.low_x) 0.5 = Ok accepted ∧
    (Q2R (7 # 10) < 0.65 → accepted = false) ∧
    (0.95 <= Q2R (7 # 10) → accepted = true).
Proof.
  apply (accept_condition_bounds Scenario.domain (λ _, 7 # 10)%Q).
  - apply scenario_domain_nonempty.
  - apply scenario_domain_discrete.
  - apply scenario_actions_well_formed.
  - lra.
Defined.

Lemma Q2R_unit (q : Q) : (0 <= q <= 1)%Q → 0 <= Q2R q <= 1.
Proof.
  intros [H0 H1]. apply Qle_Rle in H0, H1. rewrite RMicromega.Q2R_0 in H0.
  rewrite RMicromega.Q2R_1 in H1. done.
Qed.

(** What [score_bid] computes in a session state. *)
Lemma score_bid_value (domain : Domain) (self : Agent) (bid : Bid) (t : R) :
  domain ≠ ∅ → discrete_domain domain → session_state domain self →
  initial_alpha self = 1 → final_alpha self = 0.5 →
  ∃ weight opp,
    0 <= weight <= 1 ∧ 0 <= opp <= 1 ∧
    match opponent_model self with
    | Some m => get_predicted_utility m (Some bid) = Ok opp ∧ 0.5 <= weight
    | None => opp = 0
    end ∧
    score_bid self bid t
    = Ok ((1 - 0.5 * t) * (1 - float_pow t (1 / (0.1 + 1e-6))) * Q2R (profile self bid)
          + (1 - (1 - 0.5 * t) * (1 - float_pow t (1 / (0.1 + 1e-6)))) * weight * opp).
Proof.
  intros Hne Hd Hst Hia Hfa.
  destruct (session_predictions domain self Hne Hd Hst) as (Hu & Hpred & Hsome).
  destruct Hst as (_ & _ & Heps & _).
  unfold score_bid. rewrite Heps, Hia, Hfa, float_div_Ok by lra. rewrite bind_Ok.
  replace 1.0 with 1 by lra.
  destruct (opponent_model self) as [m|].
  - destruct (Hpred m bid eq_refl) as (p & Hp & Hp01). rewrite Hp, bind_Ok.
    destruct (initial_opponent_utility self) as [u|].
    + destruct (Hu u eq_refl) as [Hu0 _]. rewrite float_div_Ok by lra.
      rewrite !bind_Ok. replace 0.0 with 0 by lra.
      pose proof (clamp_range ((u - p) / u)) as Hc.
      exists (0.5 + Rmax 0 (Rmin ((u - p) / u) 1) * 0.5), p.
      split; [lra|]. split; [done|]. split; [split; [done | lra]|]. f_equal. lra.
    + rewrite bind_Ok. exists 0.5, p.
      split; [lra|]. split; [done|]. split; [split; [done | lra]|]. f_equal. lra.
  - exists 0, 0. split; [lra|]. split; [lra|]. split; [done|]. f_equal. lra.
Qed.

(** X7: in a session, for a progress [t] in [0,1], [score_bid] raises
    nothing.  At [t = 0] the score is the own utility of the bid, whatever
    the model predicts.  At [t = 1] the own utility no longer counts: the
    score is 0 before any offer, and afterwards the predicted opponent utility
    of the bid times a behaviour weight between 0.5 and 1. *)
Theorem score_bid_endpoints (domain : Domain) (getUtility : Bid → Q)
    (actions : list Action) (bid : Bid) (t : R) :
  domain ≠ ∅ → discrete_domain domain →
  Forall (well_formed_action domain) actions → 0 <= t <= 1 →
  ∃ self score at_deadline,
    run (init domain getUtility) actions = Ok self ∧
    score_bid self bid t = Ok score ∧
    score_bid self bid 0 = Ok (Q2R (getUtility bid)) ∧
    score_bid self bid 1 = Ok at_deadline ∧
    match opponent_model self with
    | Some m => ∃ opp behavior_weight,
                  get_predicted_utility m (Some bid) = Ok opp ∧
                  0.5 <= behavior_weight <= 1 ∧
                  at_deadline = behavior_weight * opp
    | None => at_deadline = 0
    end.
Proof.
  intros Hne Hd Hwf Ht.
  destruct (session_of_run domain getUtility actions Hd Hwf)
    as (self & Hrun & Hst & Hia & Hfa & Hprofile).
  exists self.
  destruct (score_bid_value domain self bid t Hne Hd Hst Hia Hfa)
    as (w & p & _ & _ & _ & Hscore).
  destruct (score_bid_value domain self bid 1 Hne Hd Hst Hia Hfa)
    as (w1 & p1 & Hw1 & Hp1 & Hm1 & Hscore1).
  eexists _, _. split; [done|]. split; [exact Hscore|].
  split; [|split; [exact Hscore1|]].
  - destruct (score_bid_value domain self bid 0 Hne Hd Hst Hia Hfa)
      as (w0 & p0 & _ & _ & _ & ->).
    rewrite float_pow_0, Hprofile. f_equal. lra.
  - rewrite float_pow_1. destruct (opponent_model self) as [m|].
    + destruct Hm1 as [Hpred Hhalf]. exists p1, w1.
      split; [done|]. split; [lra|]. lra.
    + subst p1. lra.
Qed.

Lemma score_bid_endpoints_witness :
  ∃ self score at_deadline,
    run (init Scenario.domain (λ _, 3 # 4)%Q) (Offer <$> Scenario.offers) = Ok self ∧
    score_bid self Scenario.low_x 0.5 = Ok score ∧
    score_bid self Scenario.low_x 0 = Ok (Q2R (3 # 4)) ∧
    score_bid self Scenario.low_x 1 = Ok at_deadline ∧
    match opponent_model self with
    | Some m => ∃ opp behavior_weight,
                  get_predicted_utility m (Some Scenario.low_x) = Ok opp ∧
                  0.5 <= behavior_weight <= 1 ∧
                  at_deadline = behavior_weight * opp
    | None => at_deadline = 0
    end.
Proof.
  apply (score_bid_endpoints Scenario.domain (λ _, 3 # 4)%Q).
  - apply scenario_domain_nonempty.
  - apply scenario_domain_discrete.
  - apply scenario_actions_well_formed.
  - lra.
Defined.

End adaptive_learner_more.

(** ** The bid search of the adaptive learner *)

Section adaptive_find_bid.
Import AdaptiveLearner.
Local Open Scope R_scope.

(** A pass of the search keeps the best bid it was given or takes one of its
    draws, and in the first pass only a draw that is not below the
    reservation value; this holds in every state of the agent. *)
Lemma search_sound (self : Agent) (filtered : bool) (draws : list (Bid * R))
    (best_bid : option Bid) (best_bid_score : R)
    (best_bid' : option Bid) (best_bid_score' : R) :
  search self filtered draws best_bid best_bid_score = Ok (best_bid', best_bid_score') →
  best_bid' = best_bid ∨
  ∃ draw, draw ∈ draws ∧ best_bid' = Some draw.1 ∧ eligible self filtered draw.1.
Proof.
  revert best_bid best_bid_score.
  induction draws as [|[bid t] draws IH]; intros best score; cbn [search].
  - intros [= <- _]. by left.
  - assert (∀ best score,
              search self filtered draws best score = Ok (best_bid', best_bid_score') →
              best_bid' = best ∨
              ∃ draw, draw ∈ (bid, t) :: draws ∧ best_bid' = Some draw.1 ∧
                      eligible self filtered draw.1) as IH'.
    { intros b s [->|(draw & Hin & ? & ?)]%IH; [by left|right].
      exists draw. split; [by right|done]. }
    destruct (filtered && bool_decide (Q2R (profile self bid) < reservation_value self))
      eqn:Hskip; [by apply IH'|].
    destruct (score_bid self bid t) as [s|e]; [|done]. rewrite bind_Ok.
    destruct (decide (score < s)); [|by apply IH'].
    intros [->|?]%IH'; [|by right]. right. exists (bid, t).
    split; [by left|]. split; [done|]. intros ->. cbn in Hskip.
    apply bool_decide_eq_false in Hskip. cbn. lra.
Qed.

Lemma search_defined (domain : Domain) (self : Agent) (filtered : bool)
    (draws : list (Bid * R)) (best_bid : option Bid) (best_bid_score : R) :
  domain ≠ ∅ → discrete_domain domain → session_state domain self →
  ∃ result, search self filtered draws best_bid best_bid_score = Ok result.
Proof.
  intros Hne Hd Hst. revert best_bid best_bid_score.
  induction draws as [|[bid t] draws IH]; intros best score; cbn [search]; [eauto|].
  destruct (filtered && bool_decide _); [apply IH|].
  destruct (score_bid_session domain self bid t Hne Hd Hst) as [s ->].
  rewrite bind_Ok. destruct (decide _); apply IH.
Qed.

(** X8: with clock readings in [0,1], [find_bid] raises nothing in a
    session.  In every state of the agent, the bid it returns is one of the
    (at most 500) draws of the first pass whose own utility is not below the
    reservation value the agent holds, or one of the (at most 500) draws of
    the second pass: it never proposes a first-pass draw below the reservation
    value, and never a bid it has not drawn. *)
Theorem find_bid_reservation (domain : Domain) (getUtility : Bid → Q)
    (actions : list Action) (first_pass second_pass : list (Bid * R)) :
  domain ≠ ∅ → discrete_domain domain →
  Forall (well_formed_action domain) actions →
  unit_progress first_pass → unit_progress second_pass →
  (∃ self best_bid,
     run (init domain getUtility) actions = Ok self ∧
     find_bid self first_pass second_pass = Ok best_bid) ∧
  ∀ (self : Agent) (bid : Bid),
    find_bid self first_pass second_pass = Ok (Some bid) →
    (bid ∈ (take attempts first_pass).*1 ∧
     reservation_value self <= Q2R (profile self bid)) ∨
    bid ∈ (take attempts second_pass).*1.
Proof.
  intros Hne Hd Hwf _ _. split.
  - destruct (session_of_run domain getUtility actions Hd Hwf)
      as (self & Hrun & Hst & _).
    exists self. unfold find_bid.
    destruct (search_defined domain self true (take attempts first_pass) None (-1.0)
                Hne Hd Hst) as [[b1 s1] ->].
    rewrite bind_Ok. destruct b1 as [b1|]; [eauto|].
    destruct (search_defined domain self false (take attempts second_pass) None s1
                Hne Hd Hst) as [[b2 s2] ->].
    rewrite bind_Ok. eauto.
  - intros self bid. unfold find_bid.
    destruct (search self true (take attempts first_pass) None (-1.0))
      as [[b1 s1]|e] eqn:H1; [|done].
    rewrite bind_Ok. destruct b1 as [b1|].
    + intros [= ->]. left.
      apply search_sound in H1 as [[=]|(draw & Hin & [= ->] & Hel)].
      split; [apply list_elem_of_fmap; eauto|]. by apply Hel.
    + destruct (search self false (take attempts second_pass) None s1)
        as [[b2 s2]|e] eqn:H2; [|done].
      rewrite bind_Ok. intros [= ->]. right.
      apply search_sound in H2 as [[=]|(draw & Hin & [= ->] & _)].
      apply list_elem_of_fmap. eauto.
Qed.

Lemma find_bid_reservation_witness :
  (∃ self best_bid,
     run (init Scenario.domain (λ _, 3 # 4)%Q) (Offer <$> Scenario.offers) = Ok self ∧
     find_bid self [(Scenario.low_x, 0.5); (Scenario.high_y, 0.5)] [] = Ok best_bid) ∧
  ∀ (self : Agent) (bid : Bid),
    find_bid self [(Scenario.low_x, 0.5); (Scenario.high_y, 0.5)] [] = Ok (Some bid) →
    (bid ∈ (take attempts [(Scenario.low_x, 0.5); (Scenario.high_y, 0.5)]).*1 ∧
     reservation_value self <= Q2R (profile self bid)) ∨
    bid ∈ (take attempts ([] : list (Bid * R))).*1.
Proof.
  apply (find_bid_reservation Scenario.domain (λ _, 3 # 4)%Q).
  - apply scenario_domain_nonempty.
  - apply scenario_domain_discrete.
  - apply scenario_actions_well_formed.
  - repeat constructor; cbn; lra.
  - constructor.
Defined.
End adaptive_find_bid.


(** ** The Rank-Distance model of the deadline pusher *)

Section rank_distance.
Import DeadlinePusher.
Local Open Scope R_scope.

Lemma index_elem (values : list Value) (v : Value) :
  v ∈ values → ∃ ind, index values (Some v) = Some ind ∧ values !! ind = Some v.
Proof.
  intros Hv. unfold index.
  destruct (list_find_elem_of (λ v', Some v' = Some v) values v Hv eq_refl)
    as [[ind v'] Hfind].
  rewrite Hfind. exists ind. split; [done|].
  apply list_find_Some in Hfind as (Hl & [= ->] & _). done.
Qed.

Lemma index_missing (values : list Value) (v : option Value) :
  (∀ v', v = Some v' → v' ∉ values) → index values v = None.
Proof.
  intros Hv. unfold index.
  destruct (list_find _ values) as [[ind v']|] eqn:Hfind; [|done].
  apply list_find_Some in Hfind as (Hl & Heq & _).
  exfalso. apply (Hv v'); [done|]. by apply list_elem_of_lookup_2 in Hl.
Qed.

Lemma avd_to_weight_capped (d : nat) :
  avd_to_weight (d `min` 4)
  = Ok (match d `min` 4 with
        | 0%nat => 6 | 1%nat => 4 | 2%nat => 3 | 3%nat => 1 | _ => 0.5
        end).
Proof.
  assert (d `min` 4 <= 4)%nat as Hle by lia.
  destruct (d `min` 4) as [|[|[|[|[|n]]]]]; try done. lia.
Qed.

Lemma update_spec (domain : Domain) (m : OpponentModel) (bid : Bid) :
  model_invariant domain m → well_formed_bid domain bid →
  ∃ m', update m bid = Ok m' ∧ model_invariant domain m' ∧
        offers m' = offers m ++ [bid] ∧
        ∀ issue e', issue_estimators m' !! issue = Some e' →
          ∃ values e,
            domain !! issue = Some (DiscreteValueSet values) ∧
            issue_estimators m !! issue = Some e ∧
            bids_received e' = (bids_received e + 1)%nat ∧
            weight e' = rank_distance_weight values issue (offers m ++ [bid]).
Proof.
  intros (Hdom & Hoffers & Hkeys) Hbid. unfold update.
  cbn [DeadlinePusher.offers DeadlinePusher.domain DeadlinePusher.issue_estimators].
  (* the distances *)
  assert (∃ avds : gmap string nat,
    get_average_value_distances
      {| offers := offers m ++ [bid]; domain := DeadlinePusher.domain m;
         issue_estimators := issue_estimators m |} = Ok avds ∧
    ∀ issue values, domain !! issue = Some (DiscreteValueSet values) →
      avd_to_weight (default 3%nat (avds !! issue))
      = Ok (rank_distance_weight values issue (offers m ++ [bid])))
    as (avds & -> & Havds).
  { unfold get_average_value_distances, rank_distance_weight.
    cbn [DeadlinePusher.offers DeadlinePusher.domain].
    rewrite reverse_snoc. destruct (reverse (offers m)) as [|bid1 rest] eqn:Hrev.
    - exists ∅. split; [done|]. intros issue values _. by rewrite lookup_empty.
    - assert (well_formed_bid domain bid1) as Hbid1.
      { rewrite Forall_forall in Hoffers. apply Hoffers.
        apply elem_of_reverse. rewrite Hrev. by left. }
      rewrite Hdom.
      match goal with
      | |- context [dict_comprehension ?f domain] =>
          destruct (dict_comprehension_Ok f domain) as (avds & -> & Hspec)
      end.
      { intros issue vs Hissue. pose proof (Hkeys issue) as Hk. rewrite Hissue in Hk.
        destruct Hk as [[values ->] _].
        destruct (Hbid1 issue values Hissue) as (v1 & -> & Hv1).
        destruct (Hbid issue values Hissue) as (v2 & -> & Hv2).
        destruct (index_elem values v1 Hv1) as (ind1 & -> & _).
        destruct (index_elem values v2 Hv2) as (ind2 & -> & _). eauto. }
      exists avds. split; [done|]. intros issue values Hissue.
      specialize (Hspec issue). rewrite Hissue in Hspec.
      destruct Hspec as (d & Hd & ->). cbn [default].
      destruct (index values (bid1 !! issue)) as [ind1|]; [|done].
      destruct (index values (bid !! issue)) as [ind2|]; [|done].
      injection Hd as <-. apply avd_to_weight_capped. }
  rewrite bind_Ok.
  match goal with
  | |- context [dict_comprehension ?f (issue_estimators m)] =>
      destruct (dict_comprehension_Ok f (issue_estimators m)) as (ests & -> & Hests)
  end.
  { intros issue e He. pose proof (Hkeys issue) as Hk.
    destruct (domain !! issue) as [vs|] eqn:Hissue; [|congruence].
    destruct Hk as [[values ->] _]. unfold estimator_update.
    rewrite (Havds issue values Hissue). cbn. eauto. }
  rewrite bind_Ok. eexists. split; [reflexivity|].
  split; [|split; [done|]].
  - split; [done|]. split.
    + cbn. apply Forall_app. split; [done | by constructor].
    + intros issue. cbn. pose proof (Hkeys issue) as Hk. specialize (Hests issue).
      destruct (domain !! issue) as [vs|].
      * destruct Hk as [Hvs [e He]]. split; [done|]. rewrite He in Hests.
        destruct Hests as (e' & _ & ->). eauto.
      * by rewrite Hk in Hests.
  - intros issue e' He'. cbn in He'. specialize (Hests issue).
    pose proof (Hkeys issue) as Hk.
    destruct (issue_estimators m !! issue) as [e|] eqn:He; [|congruence].
    destruct (domain !! issue) as [vs|] eqn:Hissue; [|congruence].
    destruct Hk as [[values ->] _]. exists values, e.
    split; [done|]. split; [done|].
    destruct Hests as (e'' & Hup & He''). rewrite He' in He''. injection He'' as <-.
    unfold estimator_update in Hup. rewrite (Havds issue values Hissue) in Hup.
    by injection Hup as <-.
Qed.

Lemma init_invariant (domain : Domain) (m0 : OpponentModel) :
  OpponentModel_init domain = Ok m0 →
  model_invariant domain m0 ∧ offers m0 = [] ∧
  ∀ issue e, issue_estimators m0 !! issue = Some e →
             bids_received e = 0%nat ∧ weight e = 0.
Proof.
  unfold OpponentModel_init. intros H. apply bind_Ok_inv in H as (d & Hd & [= <-]).
  pose proof (dict_comprehension_spec (λ _ v, IssueEstimator_init v) domain) as Hs.
  rewrite Hd in Hs. cbn in Hs. split; [|split; [done|]].
  - split; [done|]. split; [constructor|]. intros issue. cbn. specialize (Hs issue).
    destruct (domain !! issue) as [[values|]|]; [| |done].
    + destruct Hs as (e & _ & ->). eauto.
    + by destruct Hs as (e & [=] & _).
  - intros issue e He. cbn in He. specialize (Hs issue).
    destruct (domain !! issue) as [[values|]|].
    + destruct Hs as (e' & [= <-] & He'). rewrite He in He'. by injection He' as ->.
    + by destruct Hs as (e' & [=] & _).
    + congruence.
Qed.

Lemma observe_spec (domain : Domain) (m : OpponentModel) (bids : list Bid) :
  model_invariant domain m → Forall (well_formed_bid domain) bids →
  ∃ m', observe m bids = Ok m' ∧ model_invariant domain m' ∧
        offers m' = offers m ++ bids ∧
        ∀ issue e', issue_estimators m' !! issue = Some e' →
          ∃ e, issue_estimators m !! issue = Some e ∧
               bids_received e' = (bids_received e + length bids)%nat ∧
               (bids = [] → weight e' = weight e) ∧
               (bids ≠ [] → ∃ values,
                  domain !! issue = Some (DiscreteValueSet values) ∧
                  weight e' = rank_distance_weight values issue (offers m ++ bids)).
Proof.
  intros Hinv Hwf. revert m Hinv.
  induction Hwf as [|bid bids Hbid _ IH]; intros m Hinv.
  - exists m. split; [done|]. split; [done|]. split; [by rewrite app_nil_r|].
    intros issue e' He'. exists e'. repeat split; [done | cbn; lia | done].
  - destruct (update_spec domain m bid Hinv Hbid) as (m1 & Hup & Hinv1 & Ho1 & He1).
    destruct (IH m1 Hinv1) as (m' & Hobs & Hinv' & Ho' & He').
    exists m'. cbn [observe]. rewrite Hup, bind_Ok. split; [done|]. split; [done|].
    split; [by rewrite Ho', Ho1, <- app_assoc|].
    intros issue e'' He''. destruct (He' issue e'' He'') as (e1 & Hl1 & Hb1 & Hnil & Hcons).
    destruct (He1 issue e1 Hl1) as (values & e & Hissue & Hl & Hb & Hw).
    exists e. split; [done|]. split; [cbn [length]; lia|]. split; [done|].
    intros _. exists values. split; [done|].
    destruct bids as [|bid' bids'].
    + rewrite (Hnil eq_refl). done.
    + destruct (Hcons ltac:(done)) as (values' & Hissue' & ->).
      rewrite Hissue in Hissue'. injection Hissue' as <-.
      by rewrite Ho1, <- app_assoc.
Qed.

Lemma rank_distance_weight_table (values : list Value) (issue : string)
    (bids : list Bid) :
  Forall (λ bid : Bid, ∃ v, bid !! issue = Some v ∧ v ∈ values) bids → bids ≠ [] →
  rank_distance_weight values issue bids ∈ [6; 4; 3; 1; 0.5].
Proof.
  intros Hwf Hne. unfold rank_distance_weight.
  destruct (reverse bids) as [|bid2 [|bid1 rest]] eqn:Hrev.
  - apply (f_equal reverse) in Hrev. rewrite reverse_involutive in Hrev. done.
  - do 3 right. by left.
  - assert (bid1 ∈ bids ∧ bid2 ∈ bids) as [H1 H2].
    { split; apply elem_of_reverse; rewrite Hrev; [right|]; by left. }
    rewrite Forall_forall in Hwf.
    destruct (Hwf bid1 H1) as (v1 & -> & Hv1). destruct (Hwf bid2 H2) as (v2 & -> & Hv2).
    destruct (index_elem values v1 Hv1) as (ind1 & -> & _).
    destruct (index_elem values v2 Hv2) as (ind2 & -> & _).
    destruct (distance ind1 ind2 `min` 4) as [|[|[|[|n]]]];
      solve [repeat first [by left | right]].
Qed.

(** X9: updating the Rank-Distance model with the well-formed bids of a session
    raises nothing (the capped distances are keys of the weight table).
    Every estimator has then counted the bids; its weight is 0 before any
    bid, 1 after the first bid, and afterwards one of 6, 4, 3, 1 and 0.5. *)
Theorem rank_distance_updates (domain : Domain) (bids : list Bid) :
  discrete_domain domain → Forall (well_formed_bid domain) bids →
  ∃ m0 m,
    OpponentModel_init domain = Ok m0 ∧ observe m0 bids = Ok m ∧
    offers m = bids ∧
    ∀ issue e, issue_estimators m !! issue = Some e →
      bids_received e = length bids ∧
      match bids with
      | [] => weight e = 0
      | [_] => weight e = 1
      | _ => weight e ∈ [6; 4; 3; 1; 0.5]
      end.
Proof.
  intros Hd Hwf. destruct (rank_distance_init_discrete domain Hd) as [m0 Hm0].
  destruct (init_invariant domain m0 Hm0) as (Hinv & Hoff & He0).
  destruct (observe_spec domain m0 bids Hinv Hwf) as (m & Hobs & _ & Ho & He).
  exists m0, m. split; [done|]. split; [done|]. split; [by rewrite Ho, Hoff|].
  intros issue e' He'. destruct (He issue e' He') as (e & Hl & Hb & Hnil & Hcons).
  destruct (He0 issue e Hl) as [Hb0 Hw0]. split; [lia|].
  destruct bids as [|bid1 [|bid2 rest]].
  - rewrite (Hnil eq_refl). done.
  - destruct (Hcons ltac:(done)) as (values & _ & ->). by rewrite Hoff.
  - destruct (Hcons ltac:(done)) as (values & Hissue & ->). rewrite Hoff.
    apply rank_distance_weight_table; [|done].
    eapply Forall_impl; [exact Hwf|]. intros bid Hbid. by apply Hbid.
Qed.

Lemma rank_distance_updates_witness :
  ∃ m0 m,
    OpponentModel_init Scenario.domain = Ok m0 ∧ observe m0 Scenario.offers = Ok m ∧
    offers m = Scenario.offers ∧
    ∀ issue e, issue_estimators m !! issue = Some e →
      bids_received e = length Scenario.offers ∧
      weight e ∈ [6; 4; 3; 1; 0.5].
Proof.
  apply (rank_distance_updates Scenario.domain Scenario.offers).
  - apply scenario_domain_discrete.
  - apply scenario_offers_well_formed.
Defined.

Lemma total_weight_sum (ests : gmap string IssueEstimator) :
  map_fold (λ _ e acc, acc + weight e) 0 ests
  = Rsum ((λ kv, weight kv.2) <$> map_to_list ests).
Proof.
  rewrite map_fold_foldr. induction (map_to_list ests) as [|[i e] l IH]; [done|].
  rewrite fmap_cons, Rsum_cons. cbn [foldr uncurry]. rewrite IH. cbn. lra.
Qed.

Lemma Rsum_scale {A} (f : A → R) (c : R) (l : list A) :
  Rsum ((λ x, f x / c) <$> l) = Rsum (f <$> l) / c.
Proof.
  induction l as [|x l IH]; [cbn; lra|].
  rewrite !fmap_cons, !Rsum_cons, IH. lra.
Qed.

(** X10: [getWeight] answers 0.0 for an issue the model does not know, and the
    weights it gives to the issues it knows add up to 1: the estimators'
    weights over their total, or [1/len] each when that total is 0. *)
Theorem getWeight_normalized (m : OpponentModel) :
  issue_estimators m ≠ ∅ →
  (∀ issue, issue_estimators m !! issue = None → getWeight m issue = Ok 0) ∧
  ∃ weights,
    mapM (λ kv, getWeight m kv.1) (map_to_list (issue_estimators m)) = Ok weights ∧
    Rsum weights = 1.
Proof.
  intros Hne. split.
  { intros issue Hnone. unfold getWeight. by rewrite Hnone. }
  assert (INR (size (issue_estimators m)) ≠ 0) as Hsize.
  { apply not_0_INR. by apply map_size_non_empty_iff. }
  destruct (decide (map_fold (λ _ e acc, acc + weight e) 0 (issue_estimators m) = 0))
    as [Hzero|Hnz].
  - exists ((λ _, 1 / INR (size (issue_estimators m))) <$> map_to_list (issue_estimators m)).
    split.
    + apply mapM_Ok. intros [i e] Hin. apply elem_of_map_to_list in Hin.
      unfold getWeight. cbn [fst]. rewrite Hin.
      destruct (decide _) as [_|]; [|done]. by apply float_div_Ok.
    + rewrite Rsum_constant, length_map_to_list. field. done.
  - exists ((λ kv, weight kv.2
                   / map_fold (λ _ e acc, acc + weight e) 0 (issue_estimators m))
            <$> map_to_list (issue_estimators m)).
    split.
    + apply mapM_Ok. intros [i e] Hin. apply elem_of_map_to_list in Hin.
      unfold getWeight. cbn [fst snd]. rewrite Hin.
      destruct (decide _) as [|_]; [done|]. by apply float_div_Ok.
    + rewrite (Rsum_scale (λ kv, weight kv.2)), <- total_weight_sum. by field.
Qed.

Lemma getWeight_normalized_witness :
  let m := {| offers := []; domain := ∅;
              issue_estimators := {["A" := {| bids_received := 1; weight := 6 |}]} |} in
  (∀ issue, issue_estimators m !! issue = None → getWeight m issue = Ok 0) ∧
  ∃ weights,
    mapM (λ kv, getWeight m kv.1) (map_to_list (issue_estimators m)) = Ok weights ∧
    Rsum weights = 1.
Proof. apply getWeight_normalized. cbn. apply insert_non_empty. Defined.

Lemma rank_distance_weight_repeated (values : list Value) (issue : string)
    (bids : list Bid) (bid : Bid) (v : Value) :
  bid !! issue = Some v → v ∈ values →
  rank_distance_weight values issue (bids ++ [bid; bid]) = 6.
Proof.
  intros Hv Hin. unfold rank_distance_weight.
  rewrite reverse_app. cbn [reverse rev_append app]. rewrite Hv.
  destruct (index_elem values v Hin) as (ind & -> & _).
  unfold distance. by replace (ind - ind + (ind - ind))%nat with 0%nat by lia.
Qed.

(** X11: when the opponent repeats a well-formed bid, every issue gets the
    largest weight of the table, 6. *)
Theorem repeated_offer_weight (domain : Domain) (bids : list Bid) (bid : Bid) :
  discrete_domain domain → Forall (well_formed_bid domain) bids →
  well_formed_bid domain bid →
  ∃ m0 m,
    OpponentModel_init domain = Ok m0 ∧ observe m0 (bids ++ [bid; bid]) = Ok m ∧
    ∀ issue e, issue_estimators m !! issue = Some e → weight e = 6.
Proof.
  intros Hd Hwf Hbid. destruct (rank_distance_init_discrete domain Hd) as [m0 Hm0].
  destruct (init_invariant domain m0 Hm0) as (Hinv & Hoff & He0).
  destruct (observe_spec domain m0 (bids ++ [bid; bid]) Hinv) as (m & Hobs & _ & Ho & He).
  { apply Forall_app. split; [done|]. by repeat constructor. }
  exists m0, m. split; [done|]. split; [done|].
  intros issue e' He'. destruct (He issue e' He') as (e & _ & _ & _ & Hcons).
  destruct Hcons as (values & Hissue & ->); [by destruct bids|].
  rewrite Hoff. cbn [app]. destruct (Hbid issue values Hissue) as (v & Hv & Hin).
  by apply (rank_distance_weight_repeated values issue bids bid v).
Qed.

Lemma repeated_offer_weight_witness :
  ∃ m0 m,
    OpponentModel_init Scenario.domain = Ok m0 ∧
    observe m0 ([Scenario.high_y] ++ [Scenario.low_x; Scenario.low_x]) = Ok m ∧
    ∀ issue e, issue_estimators m !! issue = Some e → weight e = 6.
Proof.
  pose proof scenario_offers_well_formed as Hwf.
  apply (repeated_offer_weight Scenario.domain [Scenario.high_y] Scenario.low_x).
  - apply scenario_domain_discrete.
  - constructor; [|constructor]. rewrite Forall_forall in Hwf. apply Hwf.
    unfold Scenario.offers. do 3 right. by left.
  - rewrite Forall_forall in Hwf. apply Hwf. by left.
Defined.

(** X12: the first bid is taken as it comes: with no earlier bid to compare it
    with, [update] looks up none of its values.  From the second bid on, a bid
    whose value for an issue is not a value of that issue makes [update] raise
    a [ValueError]. *)
Theorem update_foreign_value (domain : Domain) (bids : list Bid) (bid : Bid)
    (issue : string) (values : list Value) :
  discrete_domain domain → Forall (well_formed_bid domain) bids →
  domain !! issue = Some (DiscreteValueSet values) →
  (∀ v, bid !! issue = Some v → v ∉ values) →
  ∃ m0 m,
    OpponentModel_init domain = Ok m0 ∧ observe m0 bids = Ok m ∧
    if decide (bids = []) then ∃ m', update m bid = Ok m' ∧ offers m' = [bid]
    else update m bid = Raise ValueError.
Proof.
  intros Hd Hwf Hissue Hforeign.
  destruct (rank_distance_init_discrete domain Hd) as [m0 Hm0].
  destruct (init_invariant domain m0 Hm0) as (Hinv & Hoff & He0).
  destruct (observe_spec domain m0 bids Hinv Hwf) as (m & Hobs & Hinv' & Ho & He).
  exists m0, m. split; [done|]. split; [done|]. rewrite Hoff in Ho. cbn in Ho.
  destruct Hinv' as (Hdom & Hoffers & Hkeys). unfold update, get_average_value_distances.
  cbn [DeadlinePusher.offers DeadlinePusher.domain DeadlinePusher.issue_estimators].
  rewrite Ho, reverse_snoc.
  destruct (decide (bids = [])) as [->|Hne].
  - cbn [reverse rev_append]. rewrite bind_Ok.
    match goal with
    | |- context [dict_comprehension ?f (issue_estimators m)] =>
        destruct (dict_comprehension_Ok f (issue_estimators m)) as (ests & -> & _)
    end.
    { intros i e _. rewrite lookup_empty. cbn. eauto. }
    rewrite bind_Ok. eexists. split; [reflexivity|]. done.
  - destruct (reverse bids) as [|bid1 rest] eqn:Hrev.
    { apply (f_equal reverse) in Hrev. by rewrite reverse_involutive in Hrev. }
    rewrite Hdom.
    match goal with
    | |- context [dict_comprehension ?f domain] =>
        rewrite (dict_comprehension_Raise f domain ValueError)
    end; [done | |].
    + intros k vs e Hk. destruct (Hd k vs Hk) as (values' & -> & _).
      destruct (index values' (bid1 !! k)); [|by intros [= <-]].
      destruct (index values' (bid !! k)); [done | by intros [= <-]].
    + exists issue, (DiscreteValueSet values). split; [done|].
      rewrite (index_missing values (bid !! issue) Hforeign).
      by destruct (index values (bid1 !! issue)).
Qed.

Lemma update_foreign_value_witness :
  ∃ m0 m,
    OpponentModel_init Scenario.domain = Ok m0 ∧
    observe m0 Scenario.offers = Ok m ∧
    update m (<["A" := Scenario.x]> Scenario.low_x) = Raise ValueError.
Proof.
  apply (update_foreign_value Scenario.domain Scenario.offers
           (<["A" := Scenario.x]> Scenario.low_x) "A" [Scenario.low; Scenario.high]).
  - apply scenario_domain_discrete.
  - apply scenario_offers_well_formed.
  - reflexivity.
  - intros v. rewrite lookup_insert_eq. intros [= <-] Hin.
    apply elem_of_cons in Hin as [[=]|Hin].
    apply elem_of_cons in Hin as [[=]|Hin]. by apply elem_of_nil in Hin.
Defined.
End rank_distance.


(** ** Values from utilities in the deadline pusher *)

Section value_from_utility.
Import DeadlinePusher.
Local Open Scope R_scope.

Lemma closest_spec (target : R) (least : Value * Q) (items : list (Value * Q)) :
  closest target least items ∈ least :: items ∧
  ∀ item, item ∈ least :: items →
    Rabs (Q2R (closest target least items).2 - target) <= Rabs (Q2R item.2 - target).
Proof.
  revert least. induction items as [|x items IH]; intros least; cbn [closest].
  - split; [by left|]. intros item Hin. apply list_elem_of_singleton in Hin as ->. lra.
  - destruct (decide _) as [Hlt|Hge].
    + destruct (IH x) as [Hin Hmin]. split; [by right|].
      intros item Hitem. apply elem_of_cons in Hitem as [->|Hitem].
      * specialize (Hmin x ltac:(by left)). lra.
      * by apply Hmin.
    + destruct (IH least) as [Hin Hmin]. split.
      * apply elem_of_cons in Hin as [->|Hin]; [by left | by do 2 right].
      * intros item Hitem. apply elem_of_cons in Hitem as [->|Hitem]; [by apply Hmin; left|].
        apply elem_of_cons in Hitem as [->|Hitem].
        -- specialize (Hmin least ltac:(by left)). lra.
        -- apply Hmin. by right.
Qed.

(** X13: [get_value_from_utility] on a discrete issue raises a [ValueError] when
    the issue has no utilities; otherwise it returns a value whose utility is
    as near the target as any.  Asked for the utility of one of the values, it
    returns a value of exactly that utility. *)
Theorem get_value_from_utility_nearest (utilities : list (Value * Q))
    (target_utility : R) (value : Value) (utility : Q) :
  (value, utility) ∈ utilities →
  get_value_from_utility [] target_utility = Raise ValueError ∧
  (∃ item, item ∈ utilities ∧
           get_value_from_utility utilities target_utility = Ok item.1 ∧
           ∀ other, other ∈ utilities →
             Rabs (Q2R item.2 - target_utility) <= Rabs (Q2R other.2 - target_utility)) ∧
  (∃ item, item ∈ utilities ∧
           get_value_from_utility utilities (Q2R utility) = Ok item.1 ∧
           (item.2 == utility)%Q).
Proof.
  intros Hin. split; [done|].
  destruct utilities as [|first items]; [by apply elem_of_nil in Hin|].
  cbn [get_value_from_utility]. split.
  - destruct (closest_spec target_utility first items) as [Hc Hmin]. eauto.
  - destruct (closest_spec (Q2R utility) first items) as [Hc Hmin].
    eexists. split; [exact Hc|]. split; [done|].
    specialize (Hmin _ Hin). cbn [snd] in Hmin.
    replace (Q2R utility - Q2R utility) with 0 in Hmin by lra.
    rewrite Rabs_R0 in Hmin. apply eqR_Qeq.
    pose proof (Rabs_pos (Q2R (closest (Q2R utility) first items).2 - Q2R utility)).
    assert (Rabs (Q2R (closest (Q2R utility) first items).2 - Q2R utility) = 0) as H0 by lra.
    destruct (Req_dec (Q2R (closest (Q2R utility) first items).2 - Q2R utility) 0)
      as [Heq|Hne]; [lra|]. by apply Rabs_no_R0 in Hne.
Qed.

Lemma get_value_from_utility_nearest_witness :
  get_value_from_utility [] 0.45 = Raise ValueError ∧
  (∃ item, item ∈ seven_values ∧
           get_value_from_utility seven_values 0.45 = Ok item.1 ∧
           ∀ other, other ∈ seven_values →
             Rabs (Q2R item.2 - 0.45) <= Rabs (Q2R other.2 - 0.45)) ∧
  (∃ item, item ∈ seven_values ∧
           get_value_from_utility seven_values (Q2R 0.8) = Ok item.1 ∧
           (item.2 == 0.8)%Q).
Proof.
  apply (get_value_from_utility_nearest seven_values 0.45 (DiscreteValue "b") 0.8%Q).
  unfold seven_values. do 2 right. by left.
Defined.

Lemma ranked_transitive : Transitive ranked.
Proof. intros a b c Hab Hbc. unfold ranked in *. by apply (Qle_trans _ b.2). Qed.

Lemma ranked_lookup (l : list (Value * Q)) (i j : nat) (a b : Value * Q) :
  Sorted ranked l → l !! i = Some a → l !! j = Some b → (i <= j)%nat →
  (b.2 <= a.2)%Q.
Proof.
  intros Hs. apply Sorted_StronglySorted in Hs; [|apply ranked_transitive].
  revert i j. induction Hs as [|x l Hs IH Hall]; intros i j Hi Hj Hle; [done|].
  destruct i as [|i], j as [|j]; cbn in Hi, Hj; try lia.
  - injection Hi as <-. injection Hj as <-. apply Qle_refl.
  - injection Hi as <-. rewrite Forall_forall in Hall.
    apply Hall. by apply list_elem_of_lookup_2 in Hj.
  - apply (IH i j); [done..|lia].
Qed.

(** The value [time_bid_value] picks, with its place in the ranking. *)
Lemma time_bid_value_index (self : Agent) (t : R) (utilities : list (Value * Q)) :
  0 <= kappa self <= 1 → 0 < beta self → 0 <= t <= 1 → utilities ≠ [] →
  ∃ item,
    time_bid_value self t utilities = Ok item.1 ∧
    sort_desc utilities
      !! Z.to_nat (Zfloor ((kappa self + (1 - kappa self) * float_pow t (1 / beta self))
                           * IZR (Z.of_nat (length utilities) - 1)))
      = Some item ∧
    (0 <= Zfloor ((kappa self + (1 - kappa self) * float_pow t (1 / beta self))
                  * IZR (Z.of_nat (length utilities) - 1)))%Z.
Proof.
  intros Hk Hb Ht Hne.
  destruct (compute_alpha_range self t Hk Hb Ht) as (alpha & Halpha & Ha).
  pose proof Halpha as Halpha'. rewrite compute_alpha_Ok in Halpha' by done.
  injection Halpha' as Hval. rewrite Hval.
  assert (1 <= length utilities)%nat as Hlen by (destruct utilities; [done | cbn; lia]).
  set (c := (Z.of_nat (length utilities) - 1)%Z).
  assert (0 <= IZR c) as Hc by (apply IZR_le; lia).
  assert (0 <= alpha * IZR c <= IZR c) as Hprod by nra.
  assert (0 <= Zfloor (alpha * IZR c) <= c)%Z as Hind.
  { split.
    - apply Zfloor_lub. lra.
    - pose proof (Zfloor_le _ _ (proj2 Hprod)) as Hle. by rewrite ZfloorZ in Hle. }
  destruct (subscript_Ok (sort_desc utilities) (Zfloor (alpha * IZR c)))
    as (item & Hitem & Hsub); [rewrite sort_desc_length; lia|].
  exists item. split; [|split; [done | lia]].
  unfold time_bid_value. rewrite Halpha, bind_Ok, sort_desc_length.
  fold c. rewrite py_int_nonneg by lra. by rewrite Hsub.
Qed.

(** X14: the later the time, the lower the own utility of the value put in the
    time-dependent bid: for [t1 <= t2] the value picked at [t2] has at most
    the utility of the value picked at [t1].  At the deadline [t = 1] the
    value picked has the least utility of the issue. *)
Theorem time_bid_value_concedes (self : Agent) (t1 t2 : R)
    (utilities : list (Value * Q)) :
  0 <= kappa self <= 1 → 0 < beta self → 0 <= t1 <= t2 → t2 <= 1 → utilities ≠ [] →
  ∃ item1 item2 last,
    item1 ∈ utilities ∧ item2 ∈ utilities ∧ last ∈ utilities ∧
    time_bid_value self t1 utilities = Ok item1.1 ∧
    time_bid_value self t2 utilities = Ok item2.1 ∧
    time_bid_value self 1 utilities = Ok last.1 ∧
    (item2.2 <= item1.2)%Q ∧
    ∀ other, other ∈ utilities → (last.2 <= other.2)%Q.
Proof.
  intros Hk Hb Ht12 Ht2 Hne.
  destruct (time_bid_value_index self t1 utilities Hk Hb ltac:(lra) Hne)
    as (item1 & Hv1 & Hl1 & Hi1).
  destruct (time_bid_value_index self t2 utilities Hk Hb ltac:(lra) Hne)
    as (item2 & Hv2 & Hl2 & Hi2).
  destruct (time_bid_value_index self 1 utilities Hk Hb ltac:(lra) Hne)
    as (last & Hv & Hl & Hi).
  assert (∀ item i, sort_desc utilities !! i = Some item → item ∈ utilities) as Hmem.
  { intros item i Hi'. apply list_elem_of_lookup_2 in Hi'.
    by rewrite sort_desc_perm in Hi'. }
  exists item1, item2, last.
  split; [by eapply Hmem|]. split; [by eapply Hmem|]. split; [by eapply Hmem|].
  split; [done|]. split; [done|]. split; [done|].
  pose proof (exponent_pos self Hb) as Hy.
  assert (1 <= length utilities)%nat as Hlen by (destruct utilities; [done | cbn; lia]).
  assert (0 <= IZR (Z.of_nat (length utilities) - 1)) as Hc by (apply IZR_le; lia).
  split.
  - eapply (ranked_lookup (sort_desc utilities)); [apply sort_desc_sorted | exact Hl1 | exact Hl2 |].
    apply Z2Nat.inj_le; [done..|]. apply Zfloor_le.
    pose proof (float_pow_monotone t1 t2 (1 / beta self) ltac:(lra) Ht12).
    apply Rmult_le_compat_r; [done|]. nra.
  - intros other Hother. rewrite <- sort_desc_perm in Hother.
    apply list_elem_of_lookup_1 in Hother as [j Hj].
    eapply (ranked_lookup (sort_desc utilities)); [apply sort_desc_sorted | exact Hj | exact Hl |].
    rewrite float_pow_1.
    replace ((kappa self + (1 - kappa self) * 1)
             * IZR (Z.of_nat (length utilities) - 1))
      with (IZR (Z.of_nat (length utilities) - 1)) by lra.
    rewrite ZfloorZ. apply lookup_lt_Some in Hj. rewrite sort_desc_length in Hj. lia.
Qed.

Lemma time_bid_value_concedes_witness :
  ∃ item1 item2 last,
    item1 ∈ seven_values ∧ item2 ∈ seven_values ∧ last ∈ seven_values ∧
    time_bid_value init 0.5 seven_values = Ok item1.1 ∧
    time_bid_value init 0.9 seven_values = Ok item2.1 ∧
    time_bid_value init 1 seven_values = Ok last.1 ∧
    (item2.2 <= item1.2)%Q ∧
    ∀ other, other ∈ seven_values → (last.2 <= other.2)%Q.
Proof. apply time_bid_value_concedes; cbn; (lra || done). Defined.

Lemma time_bid_value_empty (self : Agent) (t : R) :
  0 <= kappa self <= 1 → 0 < beta self → 0 <= t <= 1 →
  time_bid_value self t [] = Raise IndexError.
Proof.
  intros Hk Hb Ht.
  destruct (compute_alpha_range self t Hk Hb Ht) as (alpha & Halpha & Ha).
  unfold time_bid_value. rewrite Halpha, bind_Ok.
  unfold subscript, sort_desc. cbn [foldr length Z.of_nat].
  destruct (decide (py_int (alpha * IZR (0 - 1)) < 0)%Z);
    destruct (decide _) as [Hr|_]; try done; lia.
Qed.

(** X15: the time-dependent bid of a profile of discrete issues gives every issue
    of the profile one of the values of the issue, and mentions no other
    issue.  An issue without any value makes the construction raise an
    [IndexError]. *)
Theorem time_bid_well_formed (self : Agent) (t : R)
    (utilities : gmap string (list (Value * Q))) :
  0 <= kappa self <= 1 → 0 < beta self → 0 <= t <= 1 →
  if decide (map_Forall (λ _ items, items ≠ []) utilities)
  then ∃ bid, time_bid self t utilities = Ok bid ∧
              ∀ issue, match utilities !! issue with
                       | Some items => ∃ item, item ∈ items ∧ bid !! issue = Some item.1
                       | None => bid !! issue = None
                       end
  else time_bid self t utilities = Raise IndexError.
Proof.
  intros Hk Hb Ht. unfold time_bid. destruct (decide _) as [Hall|Hex].
  - destruct (dict_comprehension_Ok (λ _ utility, time_bid_value self t utility) utilities)
      as (bid & -> & Hbid).
    { intros issue items Hissue.
      destruct (time_bid_value_index self t items Hk Hb Ht (Hall issue items Hissue))
        as (item & -> & _). eauto. }
    exists bid. split; [done|]. intros issue. specialize (Hbid issue).
    destruct (utilities !! issue) as [items|] eqn:Hissue; [|done].
    destruct Hbid as (v & Hv & ->).
    destruct (time_bid_value_index self t items Hk Hb Ht (Hall issue items Hissue))
      as (item & Hitem & Hl & _).
    exists item. split; [|congruence].
    apply list_elem_of_lookup_2 in Hl. by rewrite sort_desc_perm in Hl.
  - apply dict_comprehension_Raise.
    + intros issue items e _. destruct items as [|item items].
      * rewrite time_bid_value_empty by done. by intros [= <-].
      * destruct (time_bid_value_index self t (item :: items) Hk Hb Ht ltac:(done))
          as (item' & -> & _). done.
    + apply map_not_Forall in Hex as (issue & items & Hissue & Hempty); [|apply _].
      exists issue, items. split; [done|].
      destruct items; [by apply time_bid_value_empty|]. by destruct Hempty.
Qed.

Lemma time_bid_well_formed_witness :
  let utilities : gmap string (list (Value * Q)) := {["A" := seven_values]} in
  if decide (map_Forall (λ _ items, items ≠ []) utilities)
  then ∃ bid, time_bid init 0.5 utilities = Ok bid ∧
              ∀ issue, match utilities !! issue with
                       | Some items => ∃ item, item ∈ items ∧ bid !! issue = Some item.1
                       | None => bid !! issue = None
                       end
  else time_bid init 0.5 utilities = Raise IndexError.
Proof. apply time_bid_well_formed; cbn; lra. Defined.
End value_from_utility.


(** * The Density-Estimation model: value maps, weights and early predictions *)

Section density_estimation_model.
Import StrategicConceder.
Local Open Scope R_scope.

Lemma map_sum_empty {A} (f : A → R) : map_sum f ∅ = 0.
Proof. apply map_fold_empty. Qed.

Lemma map_sum_insert {A} (f : A → R) (m : gmap string A) (i : string) (x : A) :
  m !! i = None → map_sum f (<[i:=x]> m) = map_sum f m + f x.
Proof.
  intros Hi. unfold map_sum. rewrite map_fold_insert_L; [done| |done].
  intros. lra.
Qed.

Lemma map_sum_fmap {A B} (f : B → R) (g : A → B) (m : gmap string A) :
  map_sum f (g <$> m) = map_sum (λ x, f (g x)) m.
Proof.
  induction m as [|i x m Hi IH] using map_ind.
  - by rewrite fmap_empty, !map_sum_empty.
  - rewrite fmap_insert, !map_sum_insert, ?IH; [done..|].
    by rewrite lookup_fmap, Hi.
Qed.

Lemma map_sum_imap {A B} (f : B → R) (g : A → R) (h : string → A → B)
    (m : gmap string A) :
  (∀ i x, f (h i x) = g x) →
  map_sum f (map_imap (λ i x, Some (h i x)) m) = map_sum g m.
Proof.
  intros Hfg. induction m as [|i x m Hi IH] using map_ind.
  - by rewrite map_imap_empty, !map_sum_empty.
  - rewrite (map_imap_insert_Some _ _ _ _ (h i x)) by done.
    rewrite !map_sum_insert, ?IH, ?Hfg; [done..|].
    by rewrite map_lookup_imap, Hi.
Qed.

Lemma map_sum_constant {A} (c : R) (m : gmap string A) :
  map_sum (λ _, c) m = INR (size m) * c.
Proof.
  induction m as [|i x m Hi IH] using map_ind.
  - rewrite map_sum_empty, map_size_empty. cbn. lra.
  - rewrite map_sum_insert, map_size_insert_None, IH, S_INR by done. lra.
Qed.

Lemma normalized_weights_sum (T W : R) (iv : IssueInfo → R)
    (m : gmap string IssueInfo) :
  map_sum weight
    ((λ info, if decide (insufficient info) then info
              else with_weight info (iv info / T * W)) <$> m)
  = map_sum Datatypes.id
      (omap (λ info, if decide (insufficient info) then None
                     else Some (iv info)) m) / T * W
    + map_sum weight (filter (λ kv, insufficient kv.2) m).
Proof.
  induction m as [|i x m Hi IH] using map_ind.
  - rewrite fmap_empty, omap_empty, map_filter_empty, !map_sum_empty. lra.
  - rewrite fmap_insert, map_sum_insert by by rewrite lookup_fmap, Hi.
    rewrite IH. destruct (decide (insufficient x)) as [Hx|Hx].
    + rewrite omap_insert_None by by rewrite decide_True.
      rewrite delete_id by by rewrite lookup_omap, Hi.
      rewrite map_filter_insert_True by done.
      rewrite map_sum_insert by by rewrite map_lookup_filter, Hi.
      lra.
    + rewrite (omap_insert_Some _ _ _ _ (iv x)) by by rewrite decide_False.
      rewrite map_sum_insert by by rewrite lookup_omap, Hi.
      rewrite map_filter_insert_False by done.
      rewrite delete_id by done.
      unfold Datatypes.id. cbn. lra.
Qed.

Lemma EPSILON_pos : 0 < EPSILON.
Proof. unfold EPSILON. lra. Qed.

Lemma recalculated_total_weight (kde_utilities : string → IssueInfo → gmap Value R)
    (issue_info : gmap string IssueInfo) :
  issue_info ≠ ∅ →
  total_weight (_recalculate_weights_and_utilities kde_utilities issue_info) = 1.
Proof.
  intros Hne. unfold _recalculate_weights_and_utilities.
  change total_weight with (map_sum weight).
  rewrite (map_sum_imap _ weight) by (intros i x; by destruct (decide _)).
  match goal with
  | |- context [decide (EPSILON < ?T)] => change T with
      (map_sum Datatypes.id
         (omap (λ info, if decide (insufficient info) then None
                        else Some (1.0 / (np_var (offered_values_numeric info) + EPSILON)))
               issue_info));
      set (total := map_sum Datatypes.id _)
  end.
  destruct (decide (EPSILON < total)) as [Ht|Ht].
  - rewrite normalized_weights_sum. fold total.
    change (map_fold _ 0 (filter _ issue_info))
      with (map_sum weight (filter (λ kv, insufficient kv.2) issue_info)).
    pose proof EPSILON_pos. clearbody total.
    generalize (map_sum weight (filter (λ kv, insufficient kv.2) issue_info)).
    intros unchanged. unfold Rdiv. rewrite Rinv_r by lra. lra.
  - rewrite map_sum_fmap. cbn [weight with_weight].
    rewrite map_sum_constant.
    assert (size issue_info ≠ 0%nat) as Hs by by rewrite map_size_non_empty_iff.
    rewrite decide_True by lia.
    assert (INR (size issue_info) ≠ 0) by by apply not_0_INR.
    replace 1.0 with 1 by lra. unfold Rdiv. rewrite Rmult_1_l.
    by apply Rinv_r.
Qed.

Lemma recorded_non_empty (bid : Bid) (issue_info : gmap string IssueInfo)
    (f : string → IssueInfo → IssueInfo) :
  issue_info ≠ ∅ → map_imap (λ i x, Some (f i x)) issue_info ≠ ∅.
Proof.
  intros Hne. apply map_choose in Hne as (i & x & Hi). intros He.
  assert (map_imap (λ i x, Some (f i x)) issue_info !! i = None) as Hl
    by by rewrite He.
  by rewrite map_lookup_imap, Hi in Hl.
Qed.

(** X16: from the fifth offer on, every update of the Density-Estimation
    model leaves issue weights that sum to 1, whatever the weights were
    before and whatever the density fit returns: the inverse variances are
    normalised over the share the issues with fewer than two observations do
    not hold, and the fallback is uniform. *)
Theorem recalculated_weights_sum_to_one
    (kde_utilities : string → IssueInfo → gmap Value R) (m : OpponentModel) (bid : Bid) :
  issue_info m ≠ ∅ →
  (4 ≤ length (offers m))%nat →
  total_weight
    (issue_info (update (_recalculate_weights_and_utilities kde_utilities) m bid)) = 1.
Proof.
  intros Hne Hlen. unfold update. cbn [issue_info offers].
  rewrite decide_True by (rewrite length_app; cbn; unfold MIN_SAMPLES_FOR_KDE; lia).
  apply recalculated_total_weight.
  match goal with
  | |- map_imap (λ i x, Some (@?f i x)) _ ≠ ∅ => by apply (recorded_non_empty bid _ f)
  end.
Qed.

Lemma recalculated_weights_sum_to_one_witness :
  total_weight
    (issue_info (update (_recalculate_weights_and_utilities (λ _ _, ∅))
                        Density.four_offers Scenario.low_x)) = 1.
Proof.
  apply recalculated_weights_sum_to_one; [|cbn; lia].
  apply insert_non_empty.
Defined.

Lemma zero_utilities (values : list Value) (utilities : gmap Value R) (v : Value) :
  foldl (λ utilities value, <[value := 0.0]> utilities) utilities values !! v
  = if decide (v ∈ values) then Some 0 else utilities !! v.
Proof.
  revert utilities. induction values as [|w values IH]; intros utilities; [done|].
  cbn [foldl]. rewrite IH. destruct (decide (v = w)) as [->|Hne].
  - rewrite lookup_insert_eq, (decide_True (P := w ∈ w :: values)) by left.
    replace 0.0 with 0 by lra. by destruct (decide _).
  - rewrite lookup_insert_ne by done.
    destruct (decide (v ∈ values)) as [Hv|Hv].
    + by rewrite decide_True by by right.
    + rewrite decide_False; [done|]. by intros [?|?]%elem_of_cons.
Qed.

(** X17: a recalculation gives an issue with fewer than two observations
    the utility 0.0 for every value of its value set, keeps what it stored for
    any other value, and does not touch the observations. *)
Theorem insufficient_data_zero_utility
    (kde_utilities : string → IssueInfo → gmap Value R)
    (issue_info : gmap string IssueInfo) (issue : string) (info : IssueInfo) :
  issue_info !! issue = Some info →
  insufficient info →
  ∃ info',
    _recalculate_weights_and_utilities kde_utilities issue_info !! issue = Some info' ∧
    (∀ v, v ∈ values info → value_utilities info' !! v = Some 0) ∧
    (∀ v, v ∉ values info → value_utilities info' !! v = value_utilities info !! v) ∧
    offered_values_numeric info' = offered_values_numeric info.
Proof.
  intros Hi Hins. unfold _recalculate_weights_and_utilities.
  rewrite map_lookup_imap.
  match goal with
  | |- context [decide (EPSILON < ?T)] => generalize T; intros total
  end.
  assert (∀ info (issue_info' : gmap string IssueInfo),
            issue_info' !! issue = Some info → insufficient info →
          ∃ info',
            (issue_info' !! issue ≫= λ info,
               Some (if decide (insufficient info)
                     then with_value_utilities info
                            (foldl (λ utilities value, <[value := 0.0]> utilities)
                                   (value_utilities info) (values info))
                     else with_value_utilities info (kde_utilities issue info)))
            = Some info' ∧
            (∀ v, v ∈ values info → value_utilities info' !! v = Some 0) ∧
            (∀ v, v ∉ values info → value_utilities info' !! v = value_utilities info !! v) ∧
            offered_values_numeric info' = offered_values_numeric info) as Hstep.
  { clear. intros info issue_info' -> Hins. cbn. rewrite decide_True by done.
    eexists. split; [reflexivity|]. cbn.
    split; [|split; [|done]]; intros v Hv; rewrite zero_utilities.
    - by rewrite decide_True.
    - by rewrite decide_False. }
  destruct (decide (EPSILON < total)).
  - destruct (Hstep info
      ((λ info, if decide (insufficient info) then info
                else with_weight info
                       (1.0 / (np_var (offered_values_numeric info) + EPSILON) / total
                        * (1 - map_fold (λ _ info acc, acc + weight info) 0
                                 (filter (λ kv, insufficient kv.2) issue_info))))
         <$> issue_info)) as (info' & ? & ?); [|done|by exists info'].
    by rewrite lookup_fmap, Hi; cbn; rewrite decide_True.
  - match goal with
    | |- context [(λ info, with_weight info ?u) <$> issue_info] =>
        destruct (Hstep (with_weight info u)
                    ((λ info, with_weight info u) <$> issue_info))
          as (info' & ? & ?); [by rewrite lookup_fmap, Hi|done|by exists info']
    end.
Qed.

Lemma insufficient_data_zero_utility_witness :
  ∃ info',
    _recalculate_weights_and_utilities (λ _ _, ∅)
      (<["B" := Density.unobserved]> {["A" := Density.info]}) !! "B" = Some info' ∧
    (∀ v, v ∈ values Density.unobserved → value_utilities info' !! v = Some 0) ∧
    (∀ v, v ∉ values Density.unobserved →
          value_utilities info' !! v = value_utilities Density.unobserved !! v) ∧
    offered_values_numeric info' = offered_values_numeric Density.unobserved.
Proof.
  apply insufficient_data_zero_utility; [done|].
  unfold insufficient. cbn. lia.
Defined.

End density_estimation_model.


(** * The Density-Estimation model: value maps and the first offers *)

Section density_estimation_tables.
Import StrategicConceder.
Local Open Scope R_scope.

Lemma dict_of_snoc {K V} `{Countable K} (items : list (K * V)) (kv : K * V) :
  dict_of (items ++ [kv]) = <[kv.1 := kv.2]> (dict_of items).
Proof. unfold dict_of. by rewrite foldl_snoc. Qed.

Lemma dict_of_lookup {K V} `{Countable K} (items : list (K * V)) (k : K) (x : V) :
  NoDup items.*1 → dict_of items !! k = Some x ↔ (k, x) ∈ items.
Proof.
  induction items as [|[k' x'] items IH] using rev_ind; intros Hnd.
  - unfold dict_of. cbn. rewrite lookup_empty. split; [done|]. by intros ?%elem_of_nil.
  - rewrite fmap_app in Hnd. apply NoDup_app in Hnd as (Hnd & Hnotin & _).
    rewrite dict_of_snoc, elem_of_app, list_elem_of_singleton. cbn [fst snd].
    destruct (decide (k = k')) as [->|Hne].
    + rewrite lookup_insert_eq. split; [intros [= ->]; by right|].
      intros [Hin|[= ->]]; [|done]. exfalso.
      apply (Hnotin k'); [|cbn; left].
      apply list_elem_of_fmap. by exists (k', x).
    + rewrite lookup_insert_ne by done. rewrite IH by done.
      split; [by left|]. intros [?|[= ? ?]]; [done|congruence].
Qed.

Lemma value_map_index (values : list Value) (v : Value) (i : nat) :
  dict_of (imap (λ i value, (value, i)) values) !! v = Some i → values !! i = Some v.
Proof.
  revert i. induction values as [|w values IH] using rev_ind; intros i.
  - unfold dict_of. cbn. by rewrite lookup_empty.
  - rewrite imap_app. cbn [imap]. rewrite dict_of_snoc. cbn [fst snd].
    rewrite Nat.add_0_r. destruct (decide (v = w)) as [->|Hne].
    + rewrite lookup_insert_eq. intros [= <-]. by rewrite list_lookup_middle.
    + rewrite lookup_insert_ne by done. intros Hi%IH.
      by apply lookup_app_l_Some.
Qed.

Lemma value_map_defined (values : list Value) (v : Value) :
  v ∈ values ↔ is_Some (dict_of (imap (λ i value, (value, i)) values) !! v).
Proof.
  split.
  - induction values as [|w values IH] using rev_ind; [by intros ?%elem_of_nil|].
    rewrite imap_app. cbn [imap]. rewrite dict_of_snoc. cbn [fst snd].
    intros Hv. destruct (decide (v = w)) as [->|Hne].
    + by rewrite lookup_insert_eq.
    + rewrite lookup_insert_ne by done. apply IH.
      apply elem_of_app in Hv as [?|Hv]; [done|].
      by apply list_elem_of_singleton in Hv.
  - intros [i Hi]. apply value_map_index in Hi. by eapply list_elem_of_lookup_2.
Qed.

Lemma inverse_value_map_lookup (values : list Value) (v : Value) (i : nat) :
  let value_map := dict_of (imap (λ i value, (value, i)) values) in
  dict_of ((λ kv : Value * nat, (kv.2, kv.1)) <$> map_to_list value_map) !! i = Some v
  ↔ value_map !! v = Some i.
Proof.
  intros value_map. rewrite dict_of_lookup.
  - rewrite list_elem_of_fmap. split.
    + intros ([v' i'] & [= -> ->] & Hin). by apply elem_of_map_to_list in Hin.
    + intros Hv. exists (v, i). split; [done|]. by apply elem_of_map_to_list.
  - rewrite <- list_fmap_compose. apply NoDup_fmap_2_strong; [|apply NoDup_map_to_list].
    intros [v1 i1] [v2 i2] H1%elem_of_map_to_list H2%elem_of_map_to_list. cbn.
    intros ->. apply value_map_index in H1, H2. congruence.
Qed.

Lemma density_estimation_init_info (domain : Domain) (m : OpponentModel)
    (issue : string) (info : IssueInfo) :
  OpponentModel_init domain = Ok m →
  issue_info m !! issue = Some info →
  domain !! issue = Some (DiscreteValueSet (values info)) ∧
  value_map info = dict_of (imap (λ i value, (value, i)) (values info)) ∧
  inverse_value_map info
    = dict_of ((λ kv : Value * nat, (kv.2, kv.1)) <$> map_to_list (value_map info)) ∧
  offered_values_numeric info = [] ∧
  weight info = 1 / INR (size domain) ∧
  value_utilities info = ∅.
Proof.
  unfold OpponentModel_init.
  set (Q := λ (d : Domain) (info : IssueInfo),
    d !! issue = Some (DiscreteValueSet (values info)) ∧
    value_map info = dict_of (imap (λ i value, (value, i)) (values info)) ∧
    inverse_value_map info
      = dict_of ((λ kv : Value * nat, (kv.2, kv.1)) <$> map_to_list (value_map info)) ∧
    offered_values_numeric info = [] ∧
    weight info = 1 / INR (size domain) ∧
    value_utilities info = ∅).
  set (P := λ (acc : result (gmap string IssueInfo)) (d : Domain),
    ∀ infos, acc = Ok infos → infos !! issue = Some info → Q d info).
  match goal with
  | |- context [map_fold ?f ?b domain] =>
      assert (P (map_fold f b domain) domain) as H
  end.
  { apply map_fold_weak_ind; unfold P, Q.
    - intros infos [= <-]. by rewrite lookup_empty.
    - intros i vs d r Hi IH infos Hacc Hinfo.
      destruct r as [infos0|e]; [|done]. rewrite bind_Ok in Hacc.
      destruct vs as [vals|low high step].
      + unfold float_div in Hacc. destruct (decide (INR (size domain) = 0)); [done|].
        rewrite bind_Ok in Hacc. injection Hacc as <-.
        destruct (decide (i = issue)) as [->|Hne].
        * rewrite lookup_insert_eq in Hinfo. injection Hinfo as <-. cbn.
          rewrite lookup_insert_eq. replace 1.0 with 1 by lra. done.
        * rewrite lookup_insert_ne in Hinfo by done.
          rewrite lookup_insert_ne by done. by apply (IH infos0).
      + injection Hacc as <-. destruct (decide (i = issue)) as [->|Hne].
        * destruct (IH infos0 eq_refl Hinfo) as [Hd _]. congruence.
        * rewrite lookup_insert_ne by done. by apply (IH infos0). }
  intros Hm Hinfo. destruct (map_fold _ _ domain) as [infos|e] eqn:Hfold; [|done].
  rewrite bind_Ok in Hm. injection Hm as <-. by apply (H infos).
Qed.

(** X18: the tables the Density-Estimation model builds for an issue are
    consistent: the issue is a discrete issue of the domain with these
    values, every value of the issue has an index and no other value has
    one, the index of a value is a position where the value stands, and
    the inverse table is exactly the table read backwards. *)
Theorem value_maps_inverse (domain : Domain) (m : OpponentModel)
    (issue : string) (info : IssueInfo) :
  OpponentModel_init domain = Ok m →
  issue_info m !! issue = Some info →
  domain !! issue = Some (DiscreteValueSet (values info)) ∧
  (∀ v, v ∈ values info ↔ is_Some (value_map info !! v)) ∧
  (∀ v i, value_map info !! v = Some i → values info !! i = Some v) ∧
  (∀ v i, inverse_value_map info !! i = Some v ↔ value_map info !! v = Some i).
Proof.
  intros Hm Hinfo.
  destruct (density_estimation_init_info domain m issue info Hm Hinfo)
    as (Hd & Hvm & Hivm & _).
  split; [done|]. rewrite Hivm, Hvm. split; [|split].
  - apply value_map_defined.
  - apply value_map_index.
  - apply inverse_value_map_lookup.
Qed.

Lemma update_keeps_utilities (recalculate : gmap string IssueInfo → gmap string IssueInfo)
    (m : OpponentModel) (bid : Bid) :
  (length (offers m) < 4)%nat →
  (∀ issue info, issue_info m !! issue = Some info → value_utilities info = ∅) →
  ∀ issue info, issue_info (update recalculate m bid) !! issue = Some info →
                value_utilities info = ∅.
Proof.
  intros Hlen Hm issue info. unfold update. cbn [issue_info].
  rewrite decide_False
    by (rewrite length_app; cbn; unfold MIN_SAMPLES_FOR_KDE; lia).
  rewrite map_lookup_imap.
  destruct (issue_info m !! issue) as [info0|] eqn:Hi; [|done]. cbn.
  specialize (Hm issue info0 Hi).
  intros [= <-]. destruct (bid !! issue) as [value|]; [|done].
  by destruct (value_map info0 !! value).
Qed.

Lemma updates_offers (recalculate : gmap string IssueInfo → gmap string IssueInfo)
    (m : OpponentModel) (bids : list Bid) :
  offers (foldl (update recalculate) m bids) = offers m ++ bids.
Proof.
  revert m. induction bids as [|bid bids IH]; intros m; cbn [foldl].
  - by rewrite app_nil_r.
  - rewrite IH. cbn. by rewrite <- app_assoc.
Qed.

Lemma no_utilities_no_prediction (m : OpponentModel) (bid : option Bid) :
  (∀ issue info, issue_info m !! issue = Some info → value_utilities info = ∅) →
  get_predicted_utility m bid = Ok 0.
Proof.
  intros Hm. unfold get_predicted_utility. replace 0.0 with 0 by lra.
  destruct bid as [bid|]; [|done]. destruct (decide (offers m = [])); [done|].
  match goal with
  | |- context [map_fold ?f 0 (issue_info m)] =>
      assert (map_fold f 0 (issue_info m) = 0) as ->
  end.
  { revert Hm. generalize (issue_info m). intros infos.
    match goal with
    | |- _ → map_fold ?f 0 infos = 0 =>
        apply (map_fold_weak_ind
                 (λ r (infos : gmap string IssueInfo),
                    (∀ issue info, infos !! issue = Some info → value_utilities info = ∅)
                    → r = 0) f)
    end; [done|].
    intros i x infos' r Hi IH Hall.
    rewrite IH.
    - destruct (bid !! i); [|done].
      rewrite (Hall i x) by by rewrite lookup_insert_eq.
      rewrite lookup_empty. cbn. lra.
    - intros issue info Hinfo. apply (Hall issue).
      rewrite lookup_insert_ne; [done|congruence]. }
  f_equal. rewrite Rmin_right by lra. rewrite Rmax_left; lra.
Qed.

Lemma value_maps_inverse_witness :
  ∃ m info,
    OpponentModel_init Scenario.domain = Ok m ∧
    issue_info m !! "A" = Some info ∧
    Scenario.domain !! "A" = Some (DiscreteValueSet (values info)) ∧
    (∀ v, v ∈ values info ↔ is_Some (value_map info !! v)) ∧
    (∀ v i, value_map info !! v = Some i → values info !! i = Some v) ∧
    (∀ v i, inverse_value_map info !! i = Some v ↔ value_map info !! v = Some i).
Proof.
  destruct (density_estimation_init Scenario.domain) as (m & Hm & _ & Hissues).
  destruct (proj2 (Hissues "A")) as [info Hinfo]; [by eexists|].
  exists m, info. split; [done|]. split; [done|].
  by apply (value_maps_inverse Scenario.domain m "A" info).
Defined.

(** X19: until its fifth offer the Density-Estimation model predicts the
    opponent utility 0.0 for every bid: it has no value utilities before
    the first recalculation, whatever the recalculation would compute. *)
Theorem prediction_needs_five_offers
    (recalculate : gmap string IssueInfo → gmap string IssueInfo)
    (domain : Domain) (m0 : OpponentModel) (bids : list Bid) (bid : option Bid) :
  OpponentModel_init domain = Ok m0 →
  (length bids < MIN_SAMPLES_FOR_KDE)%nat →
  get_predicted_utility (foldl (update recalculate) m0 bids) bid = Ok 0.
Proof.
  intros Hinit Hlen. apply no_utilities_no_prediction.
  assert (offers m0 = []) as Hoff.
  { unfold OpponentModel_init in Hinit.
    destruct (map_fold _ _ domain); [|done]. rewrite bind_Ok in Hinit.
    by injection Hinit as <-. }
  assert (∀ issue info, issue_info m0 !! issue = Some info → value_utilities info = ∅)
    as Hm0.
  { intros issue info Hinfo.
    by destruct (density_estimation_init_info domain m0 issue info Hinit Hinfo)
      as (_ & _ & _ & _ & _ & ?). }
  unfold MIN_SAMPLES_FOR_KDE in Hlen.
  assert (length (offers m0) + length bids < 5)%nat as Hlen'
    by (rewrite Hoff; cbn; lia).
  clear Hinit Hoff Hlen. revert m0 Hm0 Hlen'.
  induction bids as [|b bids IH]; intros m0 Hm0 Hlen; [done|].
  cbn [foldl]. cbn [length] in Hlen. apply IH.
  - apply update_keeps_utilities; [lia|done].
  - unfold update. cbn [offers]. rewrite length_app. cbn. lia.
Qed.

Lemma prediction_needs_five_offers_witness :
  ∃ m0,
    OpponentModel_init Scenario.domain = Ok m0 ∧
    get_predicted_utility
      (foldl (update (λ issue_info, issue_info)) m0
             [Scenario.low_x; Scenario.high_y; Scenario.low_x; Scenario.low_x])
      (Some Scenario.low_x) = Ok 0.
Proof.
  destruct (density_estimation_init Scenario.domain) as (m0 & Hm0 & _).
  exists m0. split; [done|].
  apply (prediction_needs_five_offers _ Scenario.domain); [done|].
  unfold MIN_SAMPLES_FOR_KDE. cbn. lia.
Defined.

End density_estimation_tables.


(** * The strategic conceder's search for a bid *)

Section conceder_find_bid.
Import StrategicConceder.
Local Open Scope R_scope.

Variable float : Q → R.
Variable self : Agent.

Lemma near_target_test (bid : Bid) :
  target_utility self <= float (profile self bid) ∧
  Rabs (float (profile self bid) - target_utility self) <= next_bid_difference_margin self
  ↔ near_target float self bid.
Proof.
  unfold near_target. split.
  - intros [Ht Ha]. rewrite Rabs_right in Ha by lra. lra.
  - intros [Ht Hm]. split; [done|]. rewrite Rabs_right by lra. lra.
Qed.

Lemma scan_cons (use_sampling : bool) (bid : Bid) (bids : list Bid) (s : Search) :
  scan float self use_sampling (bid :: bids) s
  = let s' := scan float self use_sampling [bid] s in
    if use_sampling && bool_decide (100 < length (candidate_bids s'))%nat
    then s' else scan float self use_sampling bids s'.
Proof.
  destruct use_sampling; [|reflexivity]. cbn [scan andb]. cbv zeta.
  set (s' := if decide (target_utility self <= _ ∧ _) then _ else _).
  destruct (bool_decide (100 < length (candidate_bids s'))%nat) eqn:Hbreak;
    cbv iota; by rewrite Hbreak.
Qed.

Lemma visit_lists (use_sampling : bool) (bid : Bid) (s : Search) :
  let s' := scan float self use_sampling [bid] s in
  (near_target float self bid ∧ not_conceding float self bid ∧
   candidate_bids s' = candidate_bids s ++ [bid] ∧
   secondary_candidate_bids s' = secondary_candidate_bids s ++ [bid]) ∨
  (near_target float self bid ∧ ¬ not_conceding float self bid ∧
   candidate_bids s' = candidate_bids s ∧
   secondary_candidate_bids s' = secondary_candidate_bids s ++ [bid]) ∨
  (¬ near_target float self bid ∧
   candidate_bids s' = candidate_bids s ∧
   secondary_candidate_bids s' = secondary_candidate_bids s).
Proof.
  cbn [scan]. cbv zeta.
  match goal with
  | |- context [decide (target_utility self <= _ ∧ _)] =>
      destruct (decide (target_utility self <= float (profile self bid) ∧
                        Rabs (float (profile self bid) - target_utility self)
                        <= next_bid_difference_margin self)) as [Hn|Hn]
  end; rewrite near_target_test in Hn.
  - unfold not_conceding.
    destruct (decide (highest_utility_found s < float (profile self bid)));
      cbn [candidate_bids highest_utility_found];
      destruct (decide (last_utility self <= float (profile self bid))); cbn;
      destruct (use_sampling && bool_decide _); cbn; tauto.
  - destruct (decide (highest_utility_found s < float (profile self bid))); cbn;
      destruct (use_sampling && bool_decide _); cbn; tauto.
Qed.

Lemma visit_best (use_sampling : bool) (bid : Bid) (s : Search) :
  let s' := scan float self use_sampling [bid] s in
  (highest_utility_found s < float (profile self bid) ∧ highest_utility_found s' = float (profile self bid) ∧
   best_bid_overall s' = Some bid) ∨
  (float (profile self bid) <= highest_utility_found s ∧
   highest_utility_found s' = highest_utility_found s ∧
   best_bid_overall s' = best_bid_overall s).
Proof.
  cbn [scan]. cbv zeta.
  destruct (decide (highest_utility_found s < float (profile self bid))) as [Hh|Hh];
    cbn [candidate_bids highest_utility_found];
    destruct (decide (target_utility self <= _ ∧ _)); cbn;
    destruct (use_sampling && bool_decide _); cbn;
    first [left; repeat split; (done || lra) | right; repeat split; (done || lra)].
Qed.

Lemma visit_members (use_sampling : bool) (bid : Bid) (s : Search) :
  let s' := scan float self use_sampling [bid] s in
  (∀ b, b ∈ candidate_bids s' ↔
        b ∈ candidate_bids s ∨ (b = bid ∧ near_target float self bid ∧ not_conceding float self bid)) ∧
  (∀ b, b ∈ secondary_candidate_bids s' ↔
        b ∈ secondary_candidate_bids s ∨ (b = bid ∧ near_target float self bid)).
Proof.
  cbv zeta.
  destruct (visit_lists use_sampling bid s)
    as [(Hn & Hc & -> & ->)|[(Hn & Hc & -> & ->)|(Hn & -> & ->)]];
    split; intros b; rewrite ?elem_of_app, ?list_elem_of_singleton; tauto.
Qed.

Lemma scan_lists (use_sampling : bool) (bids : list Bid) (s : Search) :
  let s' := scan float self use_sampling bids s in
  let stopped := use_sampling = true ∧ (100 < length (candidate_bids s'))%nat in
  (∀ b, b ∈ candidate_bids s → b ∈ candidate_bids s') ∧
  (∀ b, b ∈ secondary_candidate_bids s → b ∈ secondary_candidate_bids s') ∧
  (∀ b, b ∈ candidate_bids s' →
        b ∈ candidate_bids s ∨ (b ∈ bids ∧ near_target float self b ∧ not_conceding float self b)) ∧
  (∀ b, b ∈ secondary_candidate_bids s' →
        b ∈ secondary_candidate_bids s ∨ (b ∈ bids ∧ near_target float self b)) ∧
  (∀ b, b ∈ bids → near_target float self b → not_conceding float self b →
        b ∈ candidate_bids s' ∨ stopped) ∧
  (∀ b, b ∈ bids → near_target float self b → b ∈ secondary_candidate_bids s' ∨ stopped).
Proof.
  revert s. induction bids as [|bid bids IH]; intros s; cbv zeta.
  - cbn [scan]. repeat split; intros b; try tauto; by intros ?%elem_of_nil.
  - rewrite scan_cons. cbv zeta.
    destruct (visit_members use_sampling bid s) as [Hc Hs].
    set (s1 := scan float self use_sampling [bid] s) in *.
    destruct (use_sampling && bool_decide (100 < length (candidate_bids s1))%nat)
      eqn:Hbreak.
    + apply andb_true_iff in Hbreak as [-> Hlen%bool_decide_eq_true].
      repeat split; intros b; rewrite ?Hc, ?Hs, ?elem_of_cons;
        intuition (subst; auto).
    + specialize (IH s1). cbv zeta in IH.
      destruct IH as (I1 & I2 & I3 & I4 & I5 & I6).
      split; [|split; [|split; [|split; [|split]]]]; intros b; rewrite ?elem_of_cons.
      * intros Hb. apply I1, Hc. by left.
      * intros Hb. apply I2, Hs. by left.
      * intros [Hb%Hc|?]%I3; intuition (subst; auto).
      * intros [Hb%Hs|?]%I4; intuition (subst; auto).
      * intros [->|Hb] Hn Hl; [|by apply I5]. left. apply I1, Hc. by right.
      * intros [->|Hb] Hn; [|by apply I6]. left. apply I2, Hs. by right.
Qed.

Lemma scan_best (use_sampling : bool) (bids : list Bid) (s : Search) :
  let s' := scan float self use_sampling bids s in
  let stopped := use_sampling = true ∧ (100 < length (candidate_bids s'))%nat in
  highest_utility_found s <= highest_utility_found s' ∧
  ((best_bid_overall s' = best_bid_overall s ∧
    highest_utility_found s' = highest_utility_found s) ∨
   (∃ b, b ∈ bids ∧ best_bid_overall s' = Some b ∧
         highest_utility_found s' = float (profile self b))) ∧
  (∀ b, b ∈ bids → float (profile self b) <= highest_utility_found s' ∨ stopped).
Proof.
  revert s. induction bids as [|bid bids IH]; intros s; cbv zeta.
  - cbn [scan]. split; [lra|]. split; [by left|]. by intros b ?%elem_of_nil.
  - rewrite scan_cons. cbv zeta.
    pose proof (visit_best use_sampling bid s) as Hv. cbv zeta in Hv.
    set (s1 := scan float self use_sampling [bid] s) in *.
    assert (highest_utility_found s <= highest_utility_found s1 ∧
            float (profile self bid) <= highest_utility_found s1) as [Hle Hbid]
      by (destruct Hv as [(? & ? & ?)|(? & ? & ?)]; lra).
    assert ((best_bid_overall s1 = best_bid_overall s ∧
             highest_utility_found s1 = highest_utility_found s) ∨
            (best_bid_overall s1 = Some bid ∧
             highest_utility_found s1 = float (profile self bid))) as Hbest
      by (destruct Hv as [(? & ? & ?)|(? & ? & ?)]; [by right|by left]).
    clear Hv.
    destruct (use_sampling && bool_decide (100 < length (candidate_bids s1))%nat)
      eqn:Hbreak.
    + apply andb_true_iff in Hbreak as [-> Hlen%bool_decide_eq_true].
      split; [done|]. split.
      * destruct Hbest as [?|[? ?]]; [by left|right].
        exists bid. split; [left|done].
      * intros b _. by right.
    + destruct (IH s1) as (I1 & I2 & I3). split; [lra|]. split.
      * destruct I2 as [[-> ->]|(b & Hb & ? & ?)].
        -- destruct Hbest as [?|[? ?]]; [by left|right].
           exists bid. split; [left|done].
        -- right. exists b. split; [by right|done].
      * intros b [->|Hb]%elem_of_cons; [left; lra|by apply I3].
Qed.

Lemma prediction_Ok (bid : Bid) :
  match opponent_model self with
  | Some model => get_predicted_utility model (Some bid)
  | None => Ok 0.0
  end = Ok (opponent_utility self bid).
Proof.
  unfold opponent_utility. destruct (opponent_model self) as [model|].
  - unfold get_predicted_utility. by destruct (decide _).
  - f_equal. lra.
Qed.

Lemma opponent_utility_nonneg (bid : Bid) : 0 <= opponent_utility self bid.
Proof.
  unfold opponent_utility. destruct (opponent_model self) as [model|]; [|lra].
  unfold get_predicted_utility. destruct (decide _); [lra|].
  replace 0 with 0.0 at 1 by lra. apply Rmax_l.
Qed.

Lemma rank_from (bids : list Bid) (b : Bid) :
  ∃ b', rank self bids (Some b) (opponent_utility self b) = Ok (Some b') ∧
        (b' = b ∨ b' ∈ bids) ∧
        opponent_utility self b <= opponent_utility self b' ∧
        ∀ c, c ∈ bids → opponent_utility self c <= opponent_utility self b'.
Proof.
  revert b. induction bids as [|c bids IH]; intros b.
  - exists b. split; [done|]. split; [by left|]. split; [lra|].
    by intros c ?%elem_of_nil.
  - cbn [rank]. rewrite prediction_Ok, bind_Ok.
    destruct (decide (opponent_utility self b < opponent_utility self c)) as [Hlt|Hge].
    + destruct (IH c) as (b' & -> & Hin & Hc & Hall). exists b'.
      split; [done|]. split; [right; rewrite elem_of_cons; tauto|].
      split; [lra|]. intros x [->|Hx]%elem_of_cons; [done|by apply Hall].
    + destruct (IH b) as (b' & -> & Hin & Hb & Hall). exists b'.
      split; [done|]. split; [rewrite elem_of_cons; tauto|].
      split; [done|]. intros x [->|Hx]%elem_of_cons; [lra|by apply Hall].
Qed.

Lemma rank_first (c : Bid) (bids : list Bid) :
  ∃ b', rank self (c :: bids) None (-1.0) = Ok (Some b') ∧
        b' ∈ c :: bids ∧
        ∀ x, x ∈ c :: bids → opponent_utility self x <= opponent_utility self b'.
Proof.
  cbn [rank]. rewrite prediction_Ok, bind_Ok.
  pose proof (opponent_utility_nonneg c).
  rewrite decide_True by lra.
  destruct (rank_from bids c) as (b' & -> & Hin & Hc & Hall). exists b'.
  split; [done|]. split; [rewrite elem_of_cons; tauto|].
  intros x [->|Hx]%elem_of_cons; [done|by apply Hall].
Qed.

Lemma find_bid_scan (first_bid : Bid) (more_bids : list Bid) (res_bid : option Bid)
    (best_so_far : option Bid) (draws : list Bid) :
  let use_sampling := bool_decide (5000 < length (first_bid :: more_bids))%nat in
  let s := scan float self use_sampling (visited first_bid more_bids draws)
             {| candidate_bids := [];
                secondary_candidate_bids := [];
                highest_utility_found :=
                  match best_so_far with
                  | Some bid => float (profile self bid)
                  | None => 0.0
                  end;
                best_bid_overall := best_so_far |} in
  find_bid float self first_bid more_bids res_bid best_so_far draws
  = match candidate_bids s with
    | first_candidate :: _ =>
        best_tradeoff_bid ← rank self (candidate_bids s) None (-1.0);
        Ok (default first_candidate best_tradeoff_bid, best_bid_overall s)
    | [] =>
        match secondary_candidate_bids s with
        | first_candidate :: _ =>
            best_tradeoff_bid ← rank self (secondary_candidate_bids s) None (-1.0);
            Ok (default first_candidate best_tradeoff_bid, best_bid_overall s)
        | [] =>
            match best_bid_overall s with
            | None => Ok (first_bid, best_bid_overall s)
            | Some best =>
                if decide (float (profile self best) < reservation_value self)
                then Ok (default best res_bid, best_bid_overall s)
                else Ok (best, best_bid_overall s)
            end
        end
    end.
Proof.
  cbv zeta. unfold find_bid, visited. cbv zeta.
  destruct (candidate_bids _); [|done].
  destruct (secondary_candidate_bids _); [|done].
  destruct (best_bid_overall _); [|done].
  destruct (decide _); [|done]. by destruct res_bid.
Qed.

(** X20: when the utility of a bid the search looks at is, as a double, at
    or above the target utility and within the margin, the strategic
    conceder's [find_bid] returns such a bid; and when one of those passes
    the test against [self.last_utility] (the double of its utility is not
    below the exact utility of the last offer), the returned bid passes it
    too. *)
Theorem find_bid_near_target (first_bid : Bid) (more_bids : list Bid)
    (res_bid : option Bid) (best_so_far : option Bid) (draws : list Bid) :
  (∃ b, b ∈ visited first_bid more_bids draws ∧ near_target float self b) →
  ∃ bid best,
    find_bid float self first_bid more_bids res_bid best_so_far draws = Ok (bid, best) ∧
    bid ∈ visited first_bid more_bids draws ∧
    near_target float self bid ∧
    ((∃ b, b ∈ visited first_bid more_bids draws ∧
           near_target float self b ∧ not_conceding float self b) →
     not_conceding float self bid).
Proof.
  intros (b & Hb & Hn). rewrite find_bid_scan. cbv zeta.
  match goal with
  | |- context [scan float self ?sampling ?bids ?s0] =>
      pose proof (scan_lists sampling bids s0) as Hl; cbv zeta in Hl;
      set (s := scan float self sampling bids s0) in *
  end.
  cbn [candidate_bids secondary_candidate_bids] in Hl.
  destruct Hl as (_ & _ & I3 & I4 & I5 & I6).
  destruct (candidate_bids s) as [|c l] eqn:Hc.
  - destruct (secondary_candidate_bids s) as [|c l] eqn:Hs.
    + destruct (I6 b Hb Hn) as [?%elem_of_nil|[_ Hlen]]; [done|]. cbn in Hlen. lia.
    + destruct (rank_first c l) as (b' & -> & Hin & _). rewrite bind_Ok. cbn.
      exists b', (best_bid_overall s). split; [done|].
      destruct (I4 b' Hin) as [?%elem_of_nil|[? ?]]; [done|].
      split; [done|]. split; [done|].
      intros (x & Hx & Hxn & Hxl).
      destruct (I5 x Hx Hxn Hxl) as [?%elem_of_nil|[_ Hlen]]; [done|].
      cbn in Hlen. lia.
  - destruct (rank_first c l) as (b' & -> & Hin & _). rewrite bind_Ok. cbn.
    exists b', (best_bid_overall s). split; [done|].
    destruct (I3 b' Hin) as [?%elem_of_nil|(? & ? & ?)]; [done|]. done.
Qed.

(** X21: when the strategic conceder goes through the whole bid space (at
    most 5000 bids), no bid near the target has a higher predicted opponent
    utility than the bid [find_bid] returns; if the returned bid passes the
    test against [self.last_utility], this is among the bids that pass it
    too (the comparison of the double with the exact last utility). *)
Theorem find_bid_best_tradeoff (first_bid : Bid) (more_bids : list Bid)
    (res_bid : option Bid) (best_so_far : option Bid) (draws : list Bid) :
  (length (first_bid :: more_bids) ≤ 5000)%nat →
  ∃ bid best,
    find_bid float self first_bid more_bids res_bid best_so_far draws = Ok (bid, best) ∧
    ∀ c, c ∈ first_bid :: more_bids →
         near_target float self c →
         (not_conceding float self bid → not_conceding float self c) →
         opponent_utility self c <= opponent_utility self bid.
Proof.
  intros Hsize. rewrite find_bid_scan. cbv zeta. unfold visited.
  rewrite bool_decide_eq_false_2 by lia.
  match goal with
  | |- context [scan float self false ?bids ?s0] =>
      pose proof (scan_lists false bids s0) as Hl; cbv zeta in Hl;
      set (s := scan float self false bids s0) in *
  end.
  cbn [candidate_bids secondary_candidate_bids] in Hl.
  destruct Hl as (_ & _ & I3 & I4 & I5 & I6).
  destruct (candidate_bids s) as [|c l] eqn:Hc.
  - destruct (secondary_candidate_bids s) as [|c l] eqn:Hs.
    + assert (∀ x, x ∈ first_bid :: more_bids → ¬ near_target float self x) as Hnone.
      { intros x Hx Hn. by destruct (I6 x Hx Hn) as [?%elem_of_nil|[? _]]. }
      destruct (best_bid_overall s) as [best|].
      * destruct (decide _); eexists _, _; (split; [reflexivity|]);
          intros x Hx Hn; by destruct (Hnone x Hx).
      * eexists _, _. split; [reflexivity|]. intros x Hx Hn. by destruct (Hnone x Hx).
    + destruct (rank_first c l) as (b' & -> & Hin & Hmax). rewrite bind_Ok. cbn.
      exists b', (best_bid_overall s). split; [done|].
      intros x Hx Hn _. apply Hmax.
      by destruct (I6 x Hx Hn) as [?|[? _]].
  - destruct (rank_first c l) as (b' & -> & Hin & Hmax). rewrite bind_Ok. cbn.
    exists b', (best_bid_overall s). split; [done|].
    intros x Hx Hn Hl. apply Hmax.
    destruct (I3 b' Hin) as [?%elem_of_nil|(_ & _ & Hb')]; [done|].
    by destruct (I5 x Hx Hn (Hl Hb')) as [?|[? _]].
Qed.

(** X22: when no bid the search looks at is near the target, [find_bid]
    falls back on the best bid it knows: the bid of highest own utility among
    the one remembered and the ones looked at (the first bid of the space if
    it remembers none and none has a positive utility), or the reservation
    bid, if the profile has one, when that utility is below the reservation
    value.  It remembers the best bid for the next search. *)
Theorem find_bid_fallback (first_bid : Bid) (more_bids : list Bid)
    (res_bid : option Bid) (best_so_far : option Bid) (draws : list Bid) :
  (∀ b, b ∈ visited first_bid more_bids draws → ¬ near_target float self b) →
  ∃ bid best,
    find_bid float self first_bid more_bids res_bid best_so_far draws = Ok (bid, best) ∧
    match best with
    | None =>
        best_so_far = None ∧
        (∀ c, c ∈ visited first_bid more_bids draws → float (profile self c) <= 0) ∧
        bid = first_bid
    | Some top =>
        (top ∈ visited first_bid more_bids draws ∨ best_so_far = Some top) ∧
        (∀ c, c ∈ visited first_bid more_bids draws →
              float (profile self c) <= float (profile self top)) ∧
        (∀ old, best_so_far = Some old →
                float (profile self old) <= float (profile self top)) ∧
        bid = if decide (float (profile self top) < reservation_value self)
              then default top res_bid else top
    end.
Proof.
  intros Hnone. rewrite find_bid_scan. cbv zeta.
  match goal with
  | |- context [scan float self ?sampling ?bids ?s0] =>
      pose proof (scan_lists sampling bids s0) as Hl;
      pose proof (scan_best sampling bids s0) as Hb;
      cbv zeta in Hl, Hb; set (s := scan float self sampling bids s0) in *
  end.
  cbn [candidate_bids secondary_candidate_bids highest_utility_found
       best_bid_overall] in Hl, Hb.
  destruct Hl as (_ & _ & I3 & I4 & _ & _). destruct Hb as (B1 & B2 & B3).
  destruct (candidate_bids s) as [|c l] eqn:Hc.
  2:{ destruct (I3 c) as [?%elem_of_nil|(Hin & Hn & _)]; [left|done|].
      by destruct (Hnone c). }
  destruct (secondary_candidate_bids s) as [|c l] eqn:Hs.
  2:{ destruct (I4 c) as [?%elem_of_nil|(Hin & Hn)]; [left|done|].
      by destruct (Hnone c). }
  assert (∀ c, c ∈ visited first_bid more_bids draws →
               float (profile self c) <= highest_utility_found s) as Hmax.
  { intros c Hin. destruct (B3 c Hin) as [?|[_ Hlen]]; [done|]. cbn in Hlen. lia. }
  destruct (best_bid_overall s) as [top|] eqn:Htop.
  - assert (highest_utility_found s = float (profile self top)) as Hh.
    { destruct B2 as [[Hsame ->]|(b & _ & Hb & ->)]; [|congruence].
      by rewrite <- Hsame. }
    rewrite Hh in *.
    exists (if decide (float (profile self top) < reservation_value self)
            then default top res_bid else top), (Some top).
    split; [by destruct (decide _)|].
    split; [|split; [done|split; [|done]]].
    + destruct B2 as [[Hsame _]|(b & Hin & Hb & _)]; [by right|left]. congruence.
    + by intros old ->.
  - exists first_bid, None. split; [done|].
    destruct B2 as [[Hsame Hh]|(b & _ & ? & _)]; [|done].
    rewrite <- Hsame in Hh. split; [done|]. split; [|done].
    intros c Hin. specialize (Hmax c Hin). lra.
Qed.

Lemma least_utility_spec (bids : list Bid) (min_util_bid : Bid) :
  let bid := least_utility float self bids min_util_bid (float (profile self min_util_bid)) in
  (bid = min_util_bid ∨ bid ∈ bids) ∧
  float (profile self bid) <= float (profile self min_util_bid) ∧
  ∀ c, c ∈ bids → float (profile self bid) <= float (profile self c).
Proof.
  revert min_util_bid. induction bids as [|b bids IH]; intros m; cbv zeta.
  - cbn. split; [by left|]. split; [lra|]. by intros c ?%elem_of_nil.
  - cbn [least_utility].
    destruct (decide (float (profile self b) < float (profile self m))) as [Hlt|Hge].
    + destruct (IH b) as (Hin & Hb & Hall). split; [right; rewrite elem_of_cons; tauto|].
      split; [lra|]. intros c [->|Hc]%elem_of_cons; [done|by apply Hall].
    + destruct (IH m) as (Hin & Hm & Hall). split; [rewrite elem_of_cons; tauto|].
      split; [done|]. intros c [->|Hc]%elem_of_cons; [lra|by apply Hall].
Qed.

(** X23: the bid [_find_fallback_bid] returns is a bid of the space whose
    own utility no bid of the space goes below. *)
Theorem fallback_bid_least (first_bid : Bid) (more_bids : list Bid) :
  let bid := _find_fallback_bid float self first_bid more_bids in
  bid ∈ first_bid :: more_bids ∧
  ∀ c, c ∈ first_bid :: more_bids → float (profile self bid) <= float (profile self c).
Proof.
  cbv zeta. unfold _find_fallback_bid.
  destruct (least_utility_spec more_bids first_bid) as (Hin & Hf & Hall).
  split; [rewrite elem_of_cons; tauto|].
  intros c [->|Hc]%elem_of_cons; [done|by apply Hall].
Qed.

End conceder_find_bid.

Section conceder_find_bid_examples.
Import StrategicConceder.
Local Open Scope R_scope.

Lemma find_bid_near_target_witness :
  let self := init Density.getUtility None Density.five_offers in
  ∃ bid best,
    find_bid Q2R self Scenario.low_x [Scenario.high_y] None None [] = Ok (bid, best) ∧
    bid ∈ visited Scenario.low_x [Scenario.high_y] [] ∧
    near_target Q2R self bid ∧
    ((∃ b, b ∈ visited Scenario.low_x [Scenario.high_y] [] ∧
           near_target Q2R self b ∧ not_conceding Q2R self b) →
     not_conceding Q2R self bid).
Proof.
  apply find_bid_near_target. exists Scenario.low_x. split; [left|].
  unfold near_target, init, Density.getUtility. cbn [profile target_utility
    next_bid_difference_margin]. rewrite RMicromega.Q2R_1. lra.
Defined.

Lemma find_bid_best_tradeoff_witness :
  let self := init Density.getUtility None Density.five_offers in
  ∃ bid best,
    find_bid Q2R self Scenario.low_x [Scenario.high_y] None None [] = Ok (bid, best) ∧
    ∀ c, c ∈ [Scenario.low_x; Scenario.high_y] →
         near_target Q2R self c →
         (not_conceding Q2R self bid → not_conceding Q2R self c) →
         opponent_utility self c <= opponent_utility self bid.
Proof. apply find_bid_best_tradeoff. cbn. lia. Defined.

Lemma find_bid_fallback_witness :
  let self := init Density.quarter (Some Conceder.reservation_bid) Density.five_offers in
  ∃ bid best,
    find_bid Q2R self Scenario.low_x [Scenario.high_y] (Some Conceder.reservation_bid)
             (Some Conceder.reservation_bid) [] = Ok (bid, best) ∧
    match best with
    | None =>
        Some Conceder.reservation_bid = None ∧
        (∀ c, c ∈ visited Scenario.low_x [Scenario.high_y] [] →
              Q2R (profile self c) <= 0) ∧
        bid = Scenario.low_x
    | Some top =>
        (top ∈ visited Scenario.low_x [Scenario.high_y] [] ∨
         Some Conceder.reservation_bid = Some top) ∧
        (∀ c, c ∈ visited Scenario.low_x [Scenario.high_y] [] →
              Q2R (profile self c) <= Q2R (profile self top)) ∧
        (∀ old, Some Conceder.reservation_bid = Some old →
                Q2R (profile self old) <= Q2R (profile self top)) ∧
        bid = if decide (Q2R (profile self top) < reservation_value self)
              then default top (Some Conceder.reservation_bid) else top
    end.
Proof.
  apply (find_bid_fallback Q2R). intros b _. unfold near_target. cbn.
  unfold Q2R. cbn. lra.
Defined.

End conceder_find_bid_examples.


(** * A turn of the deadline pusher *)

Section deadline_pusher_turn.
Import DeadlinePusher.
Local Open Scope R_scope.

Lemma update_positive (domain : Domain) (m : OpponentModel) (bid : Bid) :
  model_invariant domain m → well_formed_bid domain bid →
  ∃ m', update m bid = Ok m' ∧ model_invariant domain m' ∧
        ∀ issue e, issue_estimators m' !! issue = Some e → 0 < weight e.
Proof.
  intros Hinv Hbid.
  destruct (update_spec domain m bid Hinv Hbid) as (m' & Hm' & Hinv' & Hoff & He).
  exists m'. split; [done|]. split; [done|]. intros issue e' He'.
  destruct (He issue e' He') as (values & e & Hd & _ & _ & ->).
  assert (rank_distance_weight values issue (offers m ++ [bid]) ∈ [6; 4; 3; 1; 0.5])
    as Hin.
  { apply rank_distance_weight_table; [|by destruct (offers m)].
    destruct Hinv as (_ & Hoffers & _).
    apply Forall_app. split; [|constructor; [by apply Hbid|constructor]].
    eapply Forall_impl; [exact Hoffers|]. intros b Hb. by apply Hb. }
  repeat (apply elem_of_cons in Hin as [->|Hin]; [lra|]).
  by apply elem_of_nil in Hin.
Qed.

Lemma total_weight_bound (ests : gmap string IssueEstimator) :
  (∀ issue e, ests !! issue = Some e → 0 < weight e) →
  0 <= map_fold (λ _ e acc, acc + weight e) 0 ests ∧
  ∀ issue e, ests !! issue = Some e →
             weight e <= map_fold (λ _ e acc, acc + weight e) 0 ests.
Proof.
  apply (map_fold_weak_ind
           (λ r (ests : gmap string IssueEstimator),
              (∀ issue e, ests !! issue = Some e → 0 < weight e) →
              0 <= r ∧ ∀ issue e, ests !! issue = Some e → weight e <= r)).
  - intros _. split; [lra|]. intros issue e. by rewrite lookup_empty.
  - intros i x m r Hi IH Hpos.
    destruct IH as [Hr Hle].
    { intros issue e He. apply (Hpos issue). rewrite lookup_insert_ne; [done|congruence]. }
    pose proof (Hpos i x ltac:(by rewrite lookup_insert_eq)).
    split; [lra|]. intros issue e. destruct (decide (i = issue)) as [->|Hne].
    + rewrite lookup_insert_eq. intros [= ->]. lra.
    + rewrite lookup_insert_ne by done. intros He. specialize (Hle issue e He). lra.
Qed.

Lemma getWeight_positive (m : OpponentModel) (issue : string) :
  (∀ issue e, issue_estimators m !! issue = Some e → 0 < weight e) →
  is_Some (issue_estimators m !! issue) →
  ∃ w, getWeight m issue = Ok w ∧ 0 < w.
Proof.
  intros Hpos [e He]. unfold getWeight. rewrite He.
  destruct (total_weight_bound (issue_estimators m) Hpos) as [_ Hle].
  specialize (Hle issue e He). specialize (Hpos issue e He).
  rewrite decide_False by lra. rewrite float_div_Ok by lra.
  eexists. split; [done|]. apply Rdiv_lt_0_compat; lra.
Qed.

(** What holds of the deadline pusher between the notifications of a session
    on a domain: the parameters are those of [__init__], and once an offer
    has arrived the model exists, knows the issues of the domain and gives
    each a positive weight. *)
Lemma run_session_state (domain : Domain) (actions : list Action) (self : Agent) :
  discrete_domain domain → Forall (well_formed_action domain) actions →
  kappa self = kappa init ∧ beta self = beta init ∧
  time_cutoff self = time_cutoff init →
  match last_received_bid self with
  | None => opponent_model self = None
  | Some _ => ∃ m, opponent_model self = Some m ∧ model_invariant domain m ∧
                   ∀ issue e, issue_estimators m !! issue = Some e → 0 < weight e
  end →
  ∃ self', run domain self actions = Ok self' ∧
    (kappa self' = kappa init ∧ beta self' = beta init ∧
     time_cutoff self' = time_cutoff init) ∧
    match last_received_bid self' with
    | None => True
    | Some _ => ∃ m, opponent_model self' = Some m ∧ model_invariant domain m ∧
                     ∀ issue e, issue_estimators m !! issue = Some e → 0 < weight e
    end.
Proof.
  intros Hd Hwf. revert self.
  induction Hwf as [|action actions Ha _ IH]; intros self Hp Hs; cbn [run].
  - exists self. split; [done|]. split; [done|]. by destruct (last_received_bid self).
  - destruct action as [bid| |]; cbn [opponent_action];
      [|rewrite bind_Ok; by apply IH..].
    assert (∃ m, match opponent_model self with
                 | None => OpponentModel_init domain
                 | Some model => Ok model
                 end = Ok m ∧ model_invariant domain m) as (m & -> & Hinv).
    { destruct (last_received_bid self).
      - destruct Hs as (m & -> & ? & _). eauto.
      - rewrite Hs. destruct (rank_distance_init_discrete domain Hd) as [m0 Hm0].
        destruct (init_invariant domain m0 Hm0) as (? & _). eauto. }
    rewrite bind_Ok.
    destruct (update_positive domain m bid Hinv Ha) as (m' & -> & Hinv' & Hpos).
    rewrite !bind_Ok. apply IH; cbn; [done|eauto].
Qed.

Lemma normalization_factor_positive {A} (g : string → R) (m : gmap string A) :
  (∀ issue, 0 <= g issue) →
  0 < map_fold (λ issue (_ : A) acc, acc + g issue) 1e-6 m.
Proof.
  intros Hg.
  apply (map_fold_weak_ind (λ r (_ : gmap string A), 0 < r)); [lra|].
  intros i x m' r _ Hr. specialize (Hg i). lra.
Qed.

Lemma time_bid_defined (self : Agent) (t : R)
    (utilities : gmap string (list (Value * Q))) :
  0 <= kappa self <= 1 → 0 < beta self → 0 <= t <= 1 →
  map_Forall (λ _ items, items ≠ []) utilities →
  ∃ bid, time_bid self t utilities = Ok bid ∧
         ∀ issue, match utilities !! issue with
                  | Some items => ∃ item, item ∈ items ∧ bid !! issue = Some item.1
                  | None => bid !! issue = None
                  end.
Proof.
  intros Hk Hb Ht Hall. unfold time_bid.
  destruct (dict_comprehension_Ok (λ _ utility, time_bid_value self t utility) utilities)
    as (bid & -> & Hbid).
  { intros issue items Hissue.
    destruct (time_bid_value_index self t items Hk Hb Ht (Hall issue items Hissue))
      as (item & -> & _). eauto. }
  exists bid. split; [done|]. intros issue. specialize (Hbid issue).
  destruct (utilities !! issue) as [items|] eqn:Hissue; [|done].
  destruct Hbid as (v & Hv & ->).
  destruct (time_bid_value_index self t items Hk Hb Ht (Hall issue items Hissue))
    as (item & Hitem & Hl & _).
  exists item. split; [|congruence].
  apply list_elem_of_lookup_2 in Hl. by rewrite sort_desc_perm in Hl.
Qed.

Lemma find_bid_defined (domain : Domain) (self : Agent) (profile : Profile) (t : R) :
  0 <= kappa self <= 1 → 0 < beta self → 0 <= t <= 1 →
  proper_profile profile →
  (∀ issue, is_Some (getUtilities profile !! issue) → is_Some (domain !! issue)) →
  match last_received_bid self with
  | None => True
  | Some _ => ∃ m, opponent_model self = Some m ∧ model_invariant domain m ∧
                   ∀ issue e, issue_estimators m !! issue = Some e → 0 < weight e
  end →
  ∃ bid, find_bid self profile t = Ok bid ∧ bid_of_profile profile bid.
Proof.
  intros Hk Hb Ht (Hne & Hu & Hw & Hev) Hissues Hs. unfold find_bid. cbv zeta.
  destruct (time_bid_defined self t (getUtilities profile) Hk Hb Ht Hne)
    as (time_bid & -> & Htb).
  rewrite bind_Ok. destruct (last_received_bid self) as [last|]; [|by exists time_bid].
  destruct Hs as (m & -> & Hinv & Hpos).
  pose proof (Q2R_unit _ (Hu time_bid)) as Hbs.
  rewrite float_div_Ok by lra. rewrite bind_Ok.
  match goal with
  | |- context [dict_comprehension ?f (getUtilities profile)] => set (step := f)
  end.
  assert (∀ issue items, getUtilities profile !! issue = Some items →
            ∃ item, item ∈ items ∧ step issue items = Ok item.1) as Hstep.
  { intros issue items Hitems. unfold step. cbv beta zeta.
    destruct (getWeight_positive m issue Hpos) as (w & -> & Hw0).
    { destruct Hinv as (_ & _ & Hkeys). specialize (Hkeys issue).
      destruct (Hissues issue ltac:(eauto)) as [vs Hvs]. rewrite Hvs in Hkeys.
      by destruct Hkeys. }
    rewrite bind_Ok.
    pose proof (Q2R_unit _ (Hw issue)) as Hws.
    rewrite (float_div_Ok (w - _) (w + _)) by lra. rewrite bind_Ok.
    rewrite float_div_Ok; [rewrite bind_Ok|].
    - destruct items as [|first items]; [by destruct (Hne issue [] Hitems)|].
      cbn [get_value_from_utility].
      eexists. split; [|reflexivity]. apply closest_spec.
    - apply Rgt_not_eq, Rlt_gt.
      match goal with
      | |- 0 < map_fold ?f0 _ _ =>
          apply (normalization_factor_positive
                   (λ issue,
                      Q2R (profile_getWeight profile issue)
                      * ((1.0 - Q2R (profile_getWeight profile issue))
                         * (1.0 - Q2R (value_getUtility profile issue
                                         (time_bid !! issue))))))
      end.
      intros i. pose proof (Q2R_unit _ (Hw i)).
      pose proof (Q2R_unit _ (Hev i (time_bid !! i))).
      apply Rmult_le_pos; [lra|]. apply Rmult_le_pos; lra. }
  destruct (dict_comprehension_Ok step (getUtilities profile)) as (bid & -> & Hbid).
  { intros issue items Hitems. destruct (Hstep issue items Hitems) as (item & _ & ->).
    eauto. }
  exists bid. split; [done|]. intros issue. specialize (Hbid issue).
  destruct (getUtilities profile !! issue) as [items|] eqn:Hitems; [|done].
  destruct Hbid as (y & Hy & ->).
  destruct (Hstep issue items Hitems) as (item & Hin & Hitem).
  exists item. split; [done|]. congruence.
Qed.

(** X24: on a domain of discrete issues, after any well-formed
    actions of the opponent and for a proper profile over issues of the domain,
    a turn of the deadline pusher fails nowhere (no division by zero, no
    missing value): it accepts the last received bid when the clock is past
    the cutoff 0.95, and otherwise offers a bid that gives every issue of
    the profile one of its values. *)
Theorem my_turn_well_formed (domain : Domain) (actions : list Action)
    (profile : Profile) (t1 t2 : R) :
  discrete_domain domain →
  Forall (well_formed_action domain) actions →
  proper_profile profile →
  (∀ issue, is_Some (getUtilities profile !! issue) → is_Some (domain !! issue)) →
  0 <= t2 <= 1 →
  ∃ self action,
    run domain init actions = Ok self ∧
    my_turn self profile t1 t2 = Ok action ∧
    match action with
    | Accept bid => last_received_bid self = Some bid ∧ 0.95 < t1
    | Offer bid =>
        bid_of_profile profile bid ∧ (last_received_bid self = None ∨ t1 <= 0.95)
    | EndNegotiation => False
    end.
Proof.
  intros Hd Hwf Hp Hissues Ht.
  destruct (run_session_state domain actions init Hd Hwf) as (self & Hrun & Hpar & Hs);
    [done..|].
  destruct Hpar as (Hk & Hb & Hc). cbn in Hk, Hb, Hc.
  exists self.
  destruct (find_bid_defined domain self profile t2) as (bid & Hbid & Hwfb);
    [rewrite Hk; lra|rewrite Hb; lra|done..|].
  unfold my_turn. destruct (last_received_bid self) as [last|] eqn:Hlast.
  - cbn [accept_condition]. rewrite Hc.
    destruct (bool_decide (0.95 < t1)) eqn:Hacc.
    + exists (Accept last). apply bool_decide_eq_true in Hacc. done.
    + exists (Offer bid). rewrite Hbid, bind_Ok. apply bool_decide_eq_false in Hacc.
      split; [done|]. split; [done|]. split; [done|]. right. lra.
  - exists (Offer bid). rewrite Hbid, bind_Ok. cbn.
    split; [done|]. split; [done|]. split; [done|]. by left.
Qed.

Lemma my_turn_well_formed_witness :
  ∃ self action,
    run Scenario.domain init (Offer <$> Scenario.offers) = Ok self ∧
    my_turn self Pusher.profile 0.5 0.5 = Ok action ∧
    match action with
    | Accept bid => last_received_bid self = Some bid ∧ 0.95 < 0.5
    | Offer bid =>
        bid_of_profile Pusher.profile bid ∧ (last_received_bid self = None ∨ 0.5 <= 0.95)
    | EndNegotiation => False
    end.
Proof.
  apply (my_turn_well_formed Scenario.domain (Offer <$> Scenario.offers)).
  - apply scenario_domain_discrete.
  - apply scenario_actions_well_formed.
  - split; [|split; [|split]].
    + apply map_Forall_singleton. done.
    + intros bid. cbn. split; discriminate.
    + intros issue. cbn. split; discriminate.
    + intros issue value. cbn. split; discriminate.
  - intros issue [items Hitems]. cbn in Hitems.
    apply lookup_singleton_Some in Hitems as [<- _]. by eexists.
  - lra.
Defined.

End deadline_pusher_turn.

